(** * Chilled Snake: the simulation core of [script.js]

    A shallow embedding of the game state, the direction queue, the
    occupancy index, the food spawner, the grid growth controller, the
    step engine and the frame scheduler, followed by the properties of
    the specification that concern them.

    Conventions of the embedding.
    - JavaScript numbers that hold integers (cell coordinates, grid
      size, score) are [Z]; numbers that hold fractions (timestamps,
      [Math.random()] draws, tick duration) are rationals [Q], and
      arithmetic on them is exact: the rounding of IEEE doubles is not
      modelled, but for the literal [1.15] of [renderEatWave], where
      it changes a floor.
    - [state] is the single global object of the script; every function
      reads and writes it, so the embedding threads a [State] record.
    - [performance.now()] and [Math.random()] are inputs of the host:
      the [Host] record carries a clock and the future random draws.
    - [state.occupied] is a JavaScript [Set] of strings built by
      [posKey]; it is embedded as a [gset string]. *)

From Stdlib Require Import ZArith QArith Qround Qabs Ascii String.
From stdpp Require Import base gmap sets list strings pretty.
From Stdlib Require Import Qminmax Lqa.
From stdpp Require Import sorting.

Local Open Scope Z_scope.

(** ** Data model *)

(** The [{x, y}] objects of the script: cells and direction vectors. *)
Record Vec : Type := mkVec { vx : Z; vy : Z }.

Global Instance Vec_eq_dec : EqDecision Vec.
Proof. solve_decision. Defined.

(** [state.eatWave]: pixel centre of the eaten cell and start time. *)
Record Wave : Type := mkWave { wave_x : Z; wave_y : Z; wave_start : Q }.

(** The global [state] object, field for field. [null] is [None]. *)
Record State : Type := mkState {
  grid : Z;
  stepMs : Q;
  snake : list Vec;
  dir : Vec;
  queuedDirs : list Vec;
  food : option Vec;
  score : Z;
  lastStepAt : Q;
  gameOver : bool;
  ateOnLastStep : bool;
  runStartAt : Q;
  endedAt : option Q;
  started : bool;
  foodFxAt : option Q;
  eatWave : option Wave;
  menuPopulated : bool;
  welcomePopulated : bool;
  occupied : gset string;
  shakeUntil : option Q
}.

(** Field assignments [state.f = v]. *)
Definition set_grid (v : Z) (s : State) : State :=
  {| grid := v; stepMs := stepMs s; snake := snake s; dir := dir s;
     queuedDirs := queuedDirs s; food := food s; score := score s;
     lastStepAt := lastStepAt s; gameOver := gameOver s;
     ateOnLastStep := ateOnLastStep s; runStartAt := runStartAt s;
     endedAt := endedAt s; started := started s; foodFxAt := foodFxAt s;
     eatWave := eatWave s; menuPopulated := menuPopulated s;
     welcomePopulated := welcomePopulated s; occupied := occupied s;
     shakeUntil := shakeUntil s |}.
Definition set_stepMs (v : Q) (s : State) : State :=
  {| grid := grid s; stepMs := v; snake := snake s; dir := dir s;
     queuedDirs := queuedDirs s; food := food s; score := score s;
     lastStepAt := lastStepAt s; gameOver := gameOver s;
     ateOnLastStep := ateOnLastStep s; runStartAt := runStartAt s;
     endedAt := endedAt s; started := started s; foodFxAt := foodFxAt s;
     eatWave := eatWave s; menuPopulated := menuPopulated s;
     welcomePopulated := welcomePopulated s; occupied := occupied s;
     shakeUntil := shakeUntil s |}.
Definition set_snake (v : list Vec) (s : State) : State :=
  {| grid := grid s; stepMs := stepMs s; snake := v; dir := dir s;
     queuedDirs := queuedDirs s; food := food s; score := score s;
     lastStepAt := lastStepAt s; gameOver := gameOver s;
     ateOnLastStep := ateOnLastStep s; runStartAt := runStartAt s;
     endedAt := endedAt s; started := started s; foodFxAt := foodFxAt s;
     eatWave := eatWave s; menuPopulated := menuPopulated s;
     welcomePopulated := welcomePopulated s; occupied := occupied s;
     shakeUntil := shakeUntil s |}.
Definition set_dir (v : Vec) (s : State) : State :=
  {| grid := grid s; stepMs := stepMs s; snake := snake s; dir := v;
     queuedDirs := queuedDirs s; food := food s; score := score s;
     lastStepAt := lastStepAt s; gameOver := gameOver s;
     ateOnLastStep := ateOnLastStep s; runStartAt := runStartAt s;
     endedAt := endedAt s; started := started s; foodFxAt := foodFxAt s;
     eatWave := eatWave s; menuPopulated := menuPopulated s;
     welcomePopulated := welcomePopulated s; occupied := occupied s;
     shakeUntil := shakeUntil s |}.
Definition set_queuedDirs (v : list Vec) (s : State) : State :=
  {| grid := grid s; stepMs := stepMs s; snake := snake s; dir := dir s;
     queuedDirs := v; food := food s; score := score s;
     lastStepAt := lastStepAt s; gameOver := gameOver s;
     ateOnLastStep := ateOnLastStep s; runStartAt := runStartAt s;
     endedAt := endedAt s; started := started s; foodFxAt := foodFxAt s;
     eatWave := eatWave s; menuPopulated := menuPopulated s;
     welcomePopulated := welcomePopulated s; occupied := occupied s;
     shakeUntil := shakeUntil s |}.
Definition set_food (v : option Vec) (s : State) : State :=
  {| grid := grid s; stepMs := stepMs s; snake := snake s; dir := dir s;
     queuedDirs := queuedDirs s; food := v; score := score s;
     lastStepAt := lastStepAt s; gameOver := gameOver s;
     ateOnLastStep := ateOnLastStep s; runStartAt := runStartAt s;
     endedAt := endedAt s; started := started s; foodFxAt := foodFxAt s;
     eatWave := eatWave s; menuPopulated := menuPopulated s;
     welcomePopulated := welcomePopulated s; occupied := occupied s;
     shakeUntil := shakeUntil s |}.
Definition set_score (v : Z) (s : State) : State :=
  {| grid := grid s; stepMs := stepMs s; snake := snake s; dir := dir s;
     queuedDirs := queuedDirs s; food := food s; score := v;
     lastStepAt := lastStepAt s; gameOver := gameOver s;
     ateOnLastStep := ateOnLastStep s; runStartAt := runStartAt s;
     endedAt := endedAt s; started := started s; foodFxAt := foodFxAt s;
     eatWave := eatWave s; menuPopulated := menuPopulated s;
     welcomePopulated := welcomePopulated s; occupied := occupied s;
     shakeUntil := shakeUntil s |}.
Definition set_lastStepAt (v : Q) (s : State) : State :=
  {| grid := grid s; stepMs := stepMs s; snake := snake s; dir := dir s;
     queuedDirs := queuedDirs s; food := food s; score := score s;
     lastStepAt := v; gameOver := gameOver s;
     ateOnLastStep := ateOnLastStep s; runStartAt := runStartAt s;
     endedAt := endedAt s; started := started s; foodFxAt := foodFxAt s;
     eatWave := eatWave s; menuPopulated := menuPopulated s;
     welcomePopulated := welcomePopulated s; occupied := occupied s;
     shakeUntil := shakeUntil s |}.
Definition set_gameOver (v : bool) (s : State) : State :=
  {| grid := grid s; stepMs := stepMs s; snake := snake s; dir := dir s;
     queuedDirs := queuedDirs s; food := food s; score := score s;
     lastStepAt := lastStepAt s; gameOver := v;
     ateOnLastStep := ateOnLastStep s; runStartAt := runStartAt s;
     endedAt := endedAt s; started := started s; foodFxAt := foodFxAt s;
     eatWave := eatWave s; menuPopulated := menuPopulated s;
     welcomePopulated := welcomePopulated s; occupied := occupied s;
     shakeUntil := shakeUntil s |}.
Definition set_ateOnLastStep (v : bool) (s : State) : State :=
  {| grid := grid s; stepMs := stepMs s; snake := snake s; dir := dir s;
     queuedDirs := queuedDirs s; food := food s; score := score s;
     lastStepAt := lastStepAt s; gameOver := gameOver s; ateOnLastStep := v;
     runStartAt := runStartAt s; endedAt := endedAt s; started := started s;
     foodFxAt := foodFxAt s; eatWave := eatWave s;
     menuPopulated := menuPopulated s;
     welcomePopulated := welcomePopulated s; occupied := occupied s;
     shakeUntil := shakeUntil s |}.
Definition set_runStartAt (v : Q) (s : State) : State :=
  {| grid := grid s; stepMs := stepMs s; snake := snake s; dir := dir s;
     queuedDirs := queuedDirs s; food := food s; score := score s;
     lastStepAt := lastStepAt s; gameOver := gameOver s;
     ateOnLastStep := ateOnLastStep s; runStartAt := v; endedAt := endedAt s;
     started := started s; foodFxAt := foodFxAt s; eatWave := eatWave s;
     menuPopulated := menuPopulated s;
     welcomePopulated := welcomePopulated s; occupied := occupied s;
     shakeUntil := shakeUntil s |}.
Definition set_endedAt (v : option Q) (s : State) : State :=
  {| grid := grid s; stepMs := stepMs s; snake := snake s; dir := dir s;
     queuedDirs := queuedDirs s; food := food s; score := score s;
     lastStepAt := lastStepAt s; gameOver := gameOver s;
     ateOnLastStep := ateOnLastStep s; runStartAt := runStartAt s;
     endedAt := v; started := started s; foodFxAt := foodFxAt s;
     eatWave := eatWave s; menuPopulated := menuPopulated s;
     welcomePopulated := welcomePopulated s; occupied := occupied s;
     shakeUntil := shakeUntil s |}.
Definition set_started (v : bool) (s : State) : State :=
  {| grid := grid s; stepMs := stepMs s; snake := snake s; dir := dir s;
     queuedDirs := queuedDirs s; food := food s; score := score s;
     lastStepAt := lastStepAt s; gameOver := gameOver s;
     ateOnLastStep := ateOnLastStep s; runStartAt := runStartAt s;
     endedAt := endedAt s; started := v; foodFxAt := foodFxAt s;
     eatWave := eatWave s; menuPopulated := menuPopulated s;
     welcomePopulated := welcomePopulated s; occupied := occupied s;
     shakeUntil := shakeUntil s |}.
Definition set_foodFxAt (v : option Q) (s : State) : State :=
  {| grid := grid s; stepMs := stepMs s; snake := snake s; dir := dir s;
     queuedDirs := queuedDirs s; food := food s; score := score s;
     lastStepAt := lastStepAt s; gameOver := gameOver s;
     ateOnLastStep := ateOnLastStep s; runStartAt := runStartAt s;
     endedAt := endedAt s; started := started s; foodFxAt := v;
     eatWave := eatWave s; menuPopulated := menuPopulated s;
     welcomePopulated := welcomePopulated s; occupied := occupied s;
     shakeUntil := shakeUntil s |}.
Definition set_eatWave (v : option Wave) (s : State) : State :=
  {| grid := grid s; stepMs := stepMs s; snake := snake s; dir := dir s;
     queuedDirs := queuedDirs s; food := food s; score := score s;
     lastStepAt := lastStepAt s; gameOver := gameOver s;
     ateOnLastStep := ateOnLastStep s; runStartAt := runStartAt s;
     endedAt := endedAt s; started := started s; foodFxAt := foodFxAt s;
     eatWave := v; menuPopulated := menuPopulated s;
     welcomePopulated := welcomePopulated s; occupied := occupied s;
     shakeUntil := shakeUntil s |}.
Definition set_menuPopulated (v : bool) (s : State) : State :=
  {| grid := grid s; stepMs := stepMs s; snake := snake s; dir := dir s;
     queuedDirs := queuedDirs s; food := food s; score := score s;
     lastStepAt := lastStepAt s; gameOver := gameOver s;
     ateOnLastStep := ateOnLastStep s; runStartAt := runStartAt s;
     endedAt := endedAt s; started := started s; foodFxAt := foodFxAt s;
     eatWave := eatWave s; menuPopulated := v;
     welcomePopulated := welcomePopulated s; occupied := occupied s;
     shakeUntil := shakeUntil s |}.
Definition set_welcomePopulated (v : bool) (s : State) : State :=
  {| grid := grid s; stepMs := stepMs s; snake := snake s; dir := dir s;
     queuedDirs := queuedDirs s; food := food s; score := score s;
     lastStepAt := lastStepAt s; gameOver := gameOver s;
     ateOnLastStep := ateOnLastStep s; runStartAt := runStartAt s;
     endedAt := endedAt s; started := started s; foodFxAt := foodFxAt s;
     eatWave := eatWave s; menuPopulated := menuPopulated s;
     welcomePopulated := v; occupied := occupied s;
     shakeUntil := shakeUntil s |}.
Definition set_occupied (v : gset string) (s : State) : State :=
  {| grid := grid s; stepMs := stepMs s; snake := snake s; dir := dir s;
     queuedDirs := queuedDirs s; food := food s; score := score s;
     lastStepAt := lastStepAt s; gameOver := gameOver s;
     ateOnLastStep := ateOnLastStep s; runStartAt := runStartAt s;
     endedAt := endedAt s; started := started s; foodFxAt := foodFxAt s;
     eatWave := eatWave s; menuPopulated := menuPopulated s;
     welcomePopulated := welcomePopulated s; occupied := v;
     shakeUntil := shakeUntil s |}.
Definition set_shakeUntil (v : option Q) (s : State) : State :=
  {| grid := grid s; stepMs := stepMs s; snake := snake s; dir := dir s;
     queuedDirs := queuedDirs s; food := food s; score := score s;
     lastStepAt := lastStepAt s; gameOver := gameOver s;
     ateOnLastStep := ateOnLastStep s; runStartAt := runStartAt s;
     endedAt := endedAt s; started := started s; foodFxAt := foodFxAt s;
     eatWave := eatWave s; menuPopulated := menuPopulated s;
     welcomePopulated := welcomePopulated s; occupied := occupied s;
     shakeUntil := v |}.

(** Constants of the script. *)
Definition BASE_GRID : Z := 15.
Definition TILE : Z := 30.
Definition EAT_FX_MS : Q := 360.
Definition SHAKE_MS : Q := 150.

(** The object literal [const state = { ... }]. *)
Definition state0 : State :=
  {| grid := BASE_GRID; stepMs := 150 * (15 / inject_Z BASE_GRID);
     snake := []; dir := mkVec 1 0; queuedDirs := []; food := None;
     score := 0; lastStepAt := 0; gameOver := false;
     ateOnLastStep := false; runStartAt := 0; endedAt := None;
     started := false; foodFxAt := None; eatWave := None;
     menuPopulated := false; welcomePopulated := false;
     occupied := ∅; shakeUntil := None |}.

(** ** The host: clock, random source, DOM *)

(** [randoms] are the values the next calls of [Math.random()] return;
    [clock n] is what the [n]-th call of [performance.now()] returns;
    [menuPresent] says whether [document.querySelector('#menu')] finds
    an element. *)
Record Host : Type := mkHost {
  randoms : list Q;
  clock : nat → Q;
  reads : nat;
  menuPresent : bool
}.

Definition set_randoms (v : list Q) (h : Host) : Host :=
  {| randoms := v; clock := clock h; reads := reads h;
     menuPresent := menuPresent h |}.
Definition set_reads (v : nat) (h : Host) : Host :=
  {| randoms := randoms h; clock := clock h; reads := v;
     menuPresent := menuPresent h |}.

(** What a call of a function of the script can do: return, throw a
    [TypeError] (a property read on [undefined] or [null]), or still be
    inside [spawnFood]'s [while (true)] when the given random draws are
    used up. *)
Inductive Outcome (A : Type) : Type :=
  | Done (a : A) (s : State) (h : Host)
  | TypeError
  | Spinning.
Arguments Done {A} a s h.
Arguments TypeError {A}.
Arguments Spinning {A}.

Definition M (A : Type) : Type := State → Host → Outcome A.

Definition ret {A} (a : A) : M A := λ s h, Done a s h.
Definition bind {A B} (m : M A) (k : A → M B) : M B := λ s h,
  match m s h with
  | Done a s' h' => k a s' h'
  | TypeError => TypeError
  | Spinning => Spinning
  end.

Declare Scope js_scope.
Delimit Scope js_scope with js.
Notation "x ← y ; z" := (bind y (λ x, z))
  (at level 20, y at level 100, z at level 200, only parsing) : js_scope.
Notation "x ;; z" := (bind x (λ _, z))
  (at level 100, z at level 200, only parsing, right associativity)
  : js_scope.
Local Open Scope js_scope.

Definition gets {A} (f : State → A) : M A := λ s h, Done (f s) s h.
Definition modify (f : State → State) : M unit := λ s h, Done tt (f s) h.
Definition throw {A} : M A := λ _ _, TypeError.

(** [now()]: the next reading of the clock. *)
Definition now : M Q := λ s h,
  Done (clock h (reads h)) s (set_reads (S (reads h)) h).

(** ** Utilities *)

(** [x + "," + y] on integer-valued numbers. *)
Definition posKey (x y : Z) : string := pretty x +:+ "," +:+ pretty y.

Definition keyOf (p : Vec) : string := posKey (vx p) (vy p).

(** The set of keys of a cell sequence: what [Set] holds after
    [forEach(p => set.add(posKey(p.x, p.y)))] on an empty set. *)
Definition cellKeys (l : list Vec) : gset string := list_to_set (keyOf <$> l).

(** [new Set()] followed by [state.snake.forEach(p => occupied.add(..))]. *)
Definition rebuildOccupied (l : list Vec) : gset string :=
  foldl (λ occ p, occ ∪ {[ keyOf p ]}) ∅ l.

(** [v | 0] on a number [v]: truncate towards zero, then wrap to a
    signed 32-bit integer (ToInt32). *)
Definition truncQ (v : Q) : Z := Z.quot (Qnum v) (Z.pos (Qden v)).
Definition toInt32 (z : Z) : Z := (z + 2 ^ 31) mod 2 ^ 32 - 2 ^ 31.
Definition bitor0 (v : Q) : Z := toInt32 (truncQ v).

(** [a.x + b.x === 0 && a.y + b.y === 0] *)
Definition reverses (a b : Vec) : bool :=
  (vx a + vx b =? 0) && (vy a + vy b =? 0).
(** [a.x === b.x && a.y === b.y] *)
Definition sameVec (a b : Vec) : bool :=
  (vx a =? vx b) && (vy a =? vy b).

(** ** Input handling *)

(** The direction a new input is compared with: the newest queued one,
    or the active direction when nothing is queued. *)
Definition lastDir (s : State) : Vec :=
  match last (queuedDirs s) with
  | Some d => d
  | None => dir s
  end.

(** [queueDir(nd)]; [None] is a falsy argument. *)
Definition queueDir (nd : option Vec) (s : State) : State :=
  match nd with
  | None => s
  | Some nd =>
      if reverses (lastDir s) nd then s
      else if sameVec (lastDir s) nd then s
      else if (2 <=? length (queuedDirs s))%nat then s
      else set_queuedDirs (queuedDirs s ++ [nd]) s
  end.

(** ** Update step *)

Definition consumeDirectionQueue (s : State) : State :=
  match queuedDirs s with
  | [] => s
  | d :: rest => set_dir d (set_queuedDirs rest s)
  end.

(** [nextHead()]; reading [head.x] of an empty snake throws. *)
Definition nextHead : M Vec := λ s h,
  match snake s with
  | [] => TypeError
  | hd :: _ => Done (mkVec (vx hd + vx (dir s)) (vy hd + vy (dir s))) s h
  end.

Definition isWallCollision (s : State) (nx ny : Z) : bool :=
  (nx <? 0) || (ny <? 0) || (grid s <=? nx) || (grid s <=? ny).

(** [state.occupied] always holds a [Set] object, which is truthy, so
    the guard [!state.occupied] never fires. *)
Definition isSelfCollision (s : State) (nx ny : Z) (willEat : bool) : bool :=
  let tail := last (snake s) in
  let hits := bool_decide (posKey nx ny ∈ occupied s) in
  if negb willEat
     && match tail with
        | Some t => (vx t =? nx) && (vy t =? ny)
        | None => false
        end
  then false
  else hits.

(** [state.snake.length >= state.grid ** 2 * 0.4 && state.grid < 36].
    The product is exact here. In doubles it is rounded, which does not
    change the comparison with an integer length for the grid sizes of
    a game (even, from 8 to 36): the exact product is either an integer
    that the rounded one hits again (grids 10, 20, 30) or at least 0.2
    away from every integer. *)
Definition growthDue (s : State) : bool :=
  Qle_bool (inject_Z (grid s ^ 2) * 0.4)
           (inject_Z (Z.of_nat (length (snake s))))
  && (grid s <? 36).

(** [growGridIfNeeded()]; [setupHiDPI] only resizes the canvas. *)
Definition growGridIfNeeded (s : State) : State :=
  if growthDue s then
    let s := set_grid (grid s + 2) s in
    let s := set_stepMs (150 * (15 / inject_Z (grid s))) s in
    let s := set_snake ((λ p, mkVec (vx p + 1) (vy p + 1)) <$> snake s) s in
    set_occupied (rebuildOccupied (snake s)) s
  else s.

(** The loop of [spawnFood]: one round per pair of draws, [None] when
    the draws are used up before a free cell came up. A double product
    [Math.random() * grid] can round to a neighbour of the exact one;
    the draws being arbitrary, the cells the loop can try are the same. *)
Fixpoint spawnFoodLoop (g : Z) (occ : gset string) (draws : list Q)
  : option (Vec * list Q) :=
  match draws with
  | rx :: ry :: rest =>
      let x := bitor0 (rx * inject_Z g) in
      let y := bitor0 (ry * inject_Z g) in
      if bool_decide (posKey x y ∈ occ) then spawnFoodLoop g occ rest
      else Some (mkVec x y, rest)
  | _ => None
  end.

Definition spawnFood : M Vec := λ s h,
  match spawnFoodLoop (grid s) (occupied s) (randoms h) with
  | None => Spinning
  | Some (pos, rest) =>
      (t ← now; modify (set_foodFxAt (Some t)) ;; ret pos)
        s (set_randoms rest h)
  end.

Definition applyEatEffects (cx cy : Z) : M unit :=
  start ← now;
  modify (set_eatWave (Some (mkWave cx cy start))).

(** [snake.pop()]: the sequence without its last element. *)
Definition pop (l : list Vec) : list Vec := removelast l.

Definition step : M unit :=
  modify (set_ateOnLastStep false) ;;
  modify consumeDirectionQueue ;;
  n ← nextHead;
  let nx := vx n in
  let ny := vy n in
  fd ← gets food;
  match fd with
  | None => throw
  | Some f =>
      let willEat := (nx =? vx f) && (ny =? vy f) in
      collides ← gets (λ s, isWallCollision s nx ny
                             || isSelfCollision s nx ny willEat);
      if collides then
        modify (set_gameOver true) ;;
        t ← now;
        modify (set_endedAt (Some t)) ;;
        modify (set_shakeUntil (Some (t + SHAKE_MS)%Q))
      else
        modify (λ s, set_snake (mkVec nx ny :: snake s) s) ;;
        modify (λ s, set_occupied (occupied s ∪ {[ posKey nx ny ]}) s) ;;
        if willEat then
          modify (λ s, set_score (score s + 1) s) ;;
          modify growGridIfNeeded ;;
          applyEatEffects (vx f * TILE + TILE / 2) (vy f * TILE + TILE / 2) ;;
          pos ← spawnFood;
          modify (set_food (Some pos)) ;;
          modify (set_ateOnLastStep true)
        else
          tail ← gets (λ s, last (snake s));
          modify (λ s, set_snake (pop (snake s)) s) ;;
          match tail with
          | Some t => modify (λ s, set_occupied (occupied s ∖ {[ keyOf t ]}) s)
          | None => ret tt
          end
  end.

(** ** Game lifecycle *)

(** [resetGame()]; [setupHiDPI] only resizes the canvas. *)
Definition resetGame : M unit :=
  modify (set_grid 8) ;;
  modify (λ s, set_stepMs (150 * (15 / inject_Z (grid s))) s) ;;
  modify (set_snake [mkVec 3 3; mkVec 2 3; mkVec 1 3]) ;;
  modify (set_dir (mkVec 1 0)) ;;
  modify (set_queuedDirs []) ;;
  modify (λ s, set_occupied (rebuildOccupied (snake s)) s) ;;
  f ← spawnFood;
  modify (set_food (Some f)) ;;
  modify (set_score 0) ;;
  modify (set_lastStepAt 0) ;;
  modify (set_gameOver false) ;;
  modify (set_ateOnLastStep false) ;;
  t ← now;
  modify (set_runStartAt t) ;;
  modify (set_endedAt None) ;;
  modify (set_menuPopulated false) ;;
  modify (set_started true) ;;
  modify (set_welcomePopulated false) ;;
  t ← now;
  modify (set_foodFxAt (Some t)) ;;
  modify (set_eatWave None) ;;
  modify (set_shakeUntil None).

(** [resetToWelcome()] *)
Definition resetToWelcome : M unit :=
  modify (set_grid 10) ;;
  modify (λ s, set_stepMs (150 * (15 / inject_Z (grid s))) s) ;;
  modify (set_snake [mkVec 3 3; mkVec 2 3; mkVec 1 3]) ;;
  modify (set_dir (mkVec 1 0)) ;;
  modify (set_queuedDirs []) ;;
  modify (λ s, set_occupied (rebuildOccupied (snake s)) s) ;;
  f ← spawnFood;
  modify (set_food (Some f)) ;;
  modify (set_score 0) ;;
  modify (set_lastStepAt 0) ;;
  modify (set_gameOver false) ;;
  modify (set_ateOnLastStep false) ;;
  t ← now;
  modify (set_runStartAt t) ;;
  modify (set_endedAt None) ;;
  modify (set_menuPopulated false) ;;
  modify (set_started false) ;;
  modify (set_welcomePopulated false) ;;
  modify (set_foodFxAt None) ;;
  modify (set_eatWave None) ;;
  modify (set_shakeUntil None).

(** ** What rendering writes back

    Drawing is outside the core. Of [renderFrame] the embedding keeps
    the three writes to [state]: the expiry of the eat wave and the two
    menu flags. The clock readings and random draws that drawing alone
    consumes (food halo, screen shake) are left out of [Host]: both
    sources are arbitrary, so [Host] lists the values the core sees.

    The exceptions of the page are left out as well, so a [Done] of
    the functions of this section, and of [loop], which ends with
    [renderFrame], is the state a frame leaves when none of its calls
    throws, and does not tell that the frame returns. The script
    throws in two places where they do not:
    - on a page without [#menu], [setGameTransform] ends in the
      [TypeError] of [menuEl.style], after its last write to [state]:
      the state of the [Done] is the state at the throw;
    - when [localStorage.setItem] refuses the entry, the exception
      leaves [populateMenuIfNeeded] before [menuPopulated] is set.
      [populateMenu] below is that function with the storage and the
      exception. *)

Definition Qltb (a b : Q) : bool := negb (Qle_bool b a).

(** The number the literal [1.15] denotes: the double nearest to it,
    which is a little below. *)
Definition lit_1_15 : Q := 2589569785738035 # 2251799813685248.

(** [renderEatWave()]. The product in [Math.floor(EAT_FX_MS * 1.15)] is
    the one place where rounding shows: 360 times the double of 1.15
    is below 414 and is rounded to the double next below 414, so the
    floor is 413, and not the 414 of the decimal product. The exact
    product of the two doubles has the same floor. *)
Definition renderEatWave : M unit :=
  w ← gets eatWave;
  match w with
  | None => ret tt
  | Some w =>
      t ← now;
      if Qle_bool (inject_Z (Qfloor (EAT_FX_MS * lit_1_15))) (t - wave_start w)
      then modify (set_eatWave None)
      else ret tt
  end.

Definition populateWelcomeIfNeeded : M unit := λ s h,
  if started s || welcomePopulated s then Done tt s h
  else if negb (menuPresent h) then Done tt s h
  else Done tt (set_welcomePopulated true s) h.

Definition populateMenuIfNeeded : M unit := λ s h,
  if negb (gameOver s) || menuPopulated s then Done tt s h
  else if negb (menuPresent h) then Done tt s h
  else Done tt (set_menuPopulated true s) h.

Definition setGameTransform : M unit :=
  st ← gets started;
  if negb st then populateWelcomeIfNeeded
  else
    over ← gets gameOver;
    if over then populateMenuIfNeeded else ret tt.

Definition renderFrame : M unit :=
  renderEatWave ;;
  setGameTransform.

(** ** Main loop *)

(** [loop(ts)], one animation frame. [!state.lastStepAt] holds when the
    field is [0]. *)
Definition loop (ts : Q) : M unit :=
  l ← gets lastStepAt;
  (if Qeq_bool l 0 then modify (set_lastStepAt ts) else ret tt) ;;
  due ← gets (λ s, started s && negb (gameOver s)
                   && Qle_bool (stepMs s) (ts - lastStepAt s));
  (if due then modify (set_lastStepAt ts) ;; step else ret tt) ;;
  renderFrame.

(** ** Input events *)

(** The direction keys of [onKeyDown], on [e.key.toLowerCase()]. *)
Definition keyDir (k : string) : option Vec :=
  if (k =? "arrowup")%string || (k =? "w")%string then Some (mkVec 0 (-1))
  else if (k =? "arrowdown")%string || (k =? "s")%string then Some (mkVec 0 1)
  else if (k =? "arrowleft")%string || (k =? "a")%string then Some (mkVec (-1) 0)
  else if (k =? "arrowright")%string || (k =? "d")%string then Some (mkVec 1 0)
  else None.

Definition startKeys : list string :=
  [" "; "spacebar"; "space"; "arrowup"; "arrowdown"; "arrowleft";
   "arrowright"].

(** [onKeyDown(e)] with [k = e.key.toLowerCase()]; ['f'] toggles
    fullscreen and touches no state. *)
Definition onKeyDown (k : string) : M unit :=
  if (k =? "f")%string then ret tt
  else
    match keyDir k with
    | Some nd => modify (queueDir (Some nd))
    | None =>
        restart ← gets (λ s, bool_decide (k ∈ startKeys)
                             && (gameOver s || negb (started s)));
        if restart then resetGame else ret tt
    end.

(** [onPlayClick(e)]; [onButton] says whether the click landed inside
    [#playBtn]. *)
Definition onPlayClick (onButton : bool) : M unit :=
  if onButton then resetGame else ret tt.

(** [onTouchEnd(e)] for a touch that started earlier and moved by
    [(dx, dy)] pixels. *)
Definition onTouchEnd (dx dy : Q) : M unit :=
  if Qltb (Qabs dx) 24 && Qltb (Qabs dy) 24 then
    idle ← gets (λ s, gameOver s || negb (started s));
    if idle then resetGame else ret tt
  else
    let nd :=
      if Qltb (Qabs dy) (Qabs dx)
      then (if Qltb 0 dx then mkVec 1 0 else mkVec (-1) 0)
      else (if Qltb 0 dy then mkVec 0 1 else mkVec 0 (-1)) in
    modify (queueDir (Some nd)).

Inductive Event : Type :=
  | KeyDown (k : string)
  | PlayClick (onButton : bool)
  | TouchEnd (dx dy : Q)
  | Frame (ts : Q).

Definition handle (e : Event) : M unit :=
  match e with
  | KeyDown k => onKeyDown k
  | PlayClick b => onPlayClick b
  | TouchEnd dx dy => onTouchEnd dx dy
  | Frame ts => loop ts
  end.

(** [bootstrap()]: install the listeners and show the welcome screen. *)
Definition bootstrap : M unit := resetToWelcome.

(** The events of a session, handled in order. *)
Fixpoint run (es : list Event) : M unit :=
  match es with
  | [] => ret tt
  | e :: es => handle e ;; run es
  end.

(** The states the script can be in between two event handlers. *)
Inductive reachable : State → Prop :=
  | reach_bootstrap h s h' :
      bootstrap state0 h = Done tt s h' → reachable s
  | reach_event e s h s' h' :
      reachable s → handle e s h = Done tt s' h' → reachable s'.

(** Whether handling [e] in state [s] starts a new run ([resetGame]). *)
Definition startsRun (e : Event) (s : State) : bool :=
  match e with
  | KeyDown k =>
      negb (k =? "f")%string
      && match keyDir k with Some _ => false | None => true end
      && bool_decide (k ∈ startKeys)
      && (gameOver s || negb (started s))
  | PlayClick b => b
  | TouchEnd dx dy =>
      Qltb (Qabs dx) 24 && Qltb (Qabs dy) 24
      && (gameOver s || negb (started s))
  | Frame _ => false
  end.

(** ** Vocabulary of the properties *)

(** The three phases, told apart the way [setGameTransform] does. *)
Inductive Phase : Type := Welcome | Playing | GameOver.

Global Instance Phase_eq_dec : EqDecision Phase.
Proof. solve_decision. Defined.

Definition phase (s : State) : Phase :=
  if negb (started s) then Welcome
  else if gameOver s then GameOver
  else Playing.

(** The contract of [Math.random()]: a number in [[0, 1)]. *)
Definition unitDraw (r : Q) : Prop := (0 <= r)%Q ∧ (r < 1)%Q.

(** A string without a comma. *)
Fixpoint commaFree (s : string) : Prop :=
  match s with
  | EmptyString => True
  | String c s' => c ≠ ","%char ∧ commaFree s'
  end.

(** The state in which [step] computes its candidate head: the flag is
    cleared and the direction queue consumed. *)
Definition stepPre (s : State) : State :=
  consumeDirectionQueue (set_ateOnLastStep false s).

(** The candidate head of the tick that starts in [s], or [None] when
    the snake is empty and [nextHead] throws. *)
Definition candidate (s : State) : option Vec :=
  match snake s with
  | [] => None
  | hd :: _ =>
      let d := dir (stepPre s) in Some (mkVec (vx hd + vx d) (vy hd + vy d))
  end.

(** The states [step] passes through, named; [step_eq] below states
    [step] in their terms. *)

(** Collision branch, the clock reading [t]. *)
Definition collided (t : Q) (s : State) : State :=
  set_shakeUntil (Some (t + SHAKE_MS)%Q)
    (set_endedAt (Some t) (set_gameOver true s)).

(** "move head": the new head is in the snake and in the index. *)
Definition advance (n : Vec) (s : State) : State :=
  set_occupied (occupied (set_snake (n :: snake s) s) ∪ {[ keyOf n ]})
    (set_snake (n :: snake s) s).

(** Non-eating branch: the tail leaves the snake and the index. *)
Definition dropTail (s : State) : State :=
  match last (snake s) with
  | Some t =>
      set_occupied (occupied s ∖ {[ keyOf t ]}) (set_snake (pop (snake s)) s)
  | None => set_snake (pop (snake s)) s
  end.

(** Eating branch up to the call of [spawnFood]; [f] is the food eaten
    and [t] the clock reading of [applyEatEffects]. *)
Definition fed (f : Vec) (t : Q) (s : State) : State :=
  set_eatWave
    (Some (mkWave (vx f * TILE + TILE / 2) (vy f * TILE + TILE / 2) t))
    (growGridIfNeeded (set_score (score s + 1) s)).

(** Eating branch after [spawnFood] returned [pos] at clock reading [t]. *)
Definition refed (pos : Vec) (t : Q) (s : State) : State :=
  set_ateOnLastStep true (set_food (Some pos) (set_foodFxAt (Some t) s)).

(** ** Invariants of the reachable states *)

(** No two neighbours of a direction sequence cancel out. *)
Fixpoint noReverse (l : list Vec) : Prop :=
  match l with
  | a :: (b :: _) as l' => reverses a b = false ∧ noReverse l'
  | _ => True
  end.

(** The four directions of the data model. *)
Definition unitDir (d : Vec) : Prop :=
  d ∈ [mkVec 0 (-1); mkVec 0 1; mkVec (-1) 0; mkVec 1 0].

Record Inv (s : State) : Prop := mkInv {
  inv_queue_cap : (length (queuedDirs s) ≤ 2)%nat;
  inv_units : Forall unitDir (dir s :: queuedDirs s);
  inv_no_reverse : noReverse (dir s :: queuedDirs s);
  inv_grid_even : Z.even (grid s) = true;
  inv_grid_bounds : 8 ≤ grid s ≤ 36
}.

(** What [step] needs in order not to throw: a head and a food cell. *)
Definition Ready (s : State) : Prop := snake s ≠ [] ∧ is_Some (food s).

(** The state a reset leaves behind. Both [resetGame] and
    [resetToWelcome] assign every field of [state]; they differ in the
    grid size [g], the [started] flag [st] and the food effect time
    [fx]. [pos] is the cell [spawnFood] returned and [t] the reading of
    the clock stored as the start of the run ([resetGame_eq] and
    [resetToWelcome_eq] below). *)
Definition resetState (g : Z) (st : bool) (pos : Vec) (t : Q)
    (fx : option Q) : State :=
  {| grid := g; stepMs := 150 * (15 / inject_Z g);
     snake := [mkVec 3 3; mkVec 2 3; mkVec 1 3]; dir := mkVec 1 0;
     queuedDirs := []; food := Some pos; score := 0; lastStepAt := 0;
     gameOver := false; ateOnLastStep := false; runStartAt := t;
     endedAt := None; started := st; foodFxAt := fx; eatWave := None;
     menuPopulated := false; welcomePopulated := false;
     occupied := rebuildOccupied [mkVec 3 3; mkVec 2 3; mkVec 1 3];
     shakeUntil := None |}.

(** States that agree on everything but the three fields rendering
    writes ([eatWave], [menuPopulated], [welcomePopulated]). *)
Definition sameCore (s s' : State) : Prop :=
  grid s' = grid s ∧ stepMs s' = stepMs s ∧ snake s' = snake s
  ∧ dir s' = dir s ∧ queuedDirs s' = queuedDirs s ∧ food s' = food s
  ∧ score s' = score s ∧ lastStepAt s' = lastStepAt s
  ∧ gameOver s' = gameOver s ∧ ateOnLastStep s' = ateOnLastStep s
  ∧ runStartAt s' = runStartAt s ∧ endedAt s' = endedAt s
  ∧ started s' = started s ∧ foodFxAt s' = foodFxAt s
  ∧ occupied s' = occupied s ∧ shakeUntil s' = shakeUntil s.

(** The first two statements of [loop]: the state after the first
    frame stamp, and whether this frame runs a tick ([loop_eq] below). *)
Definition stamped (ts : Q) (s : State) : State :=
  if Qeq_bool (lastStepAt s) 0 then set_lastStepAt ts s else s.

Definition tickDue (ts : Q) (s : State) : bool :=
  let s0 := stamped ts s in
  started s0 && negb (gameOver s0)
  && Qle_bool (stepMs s0) (ts - lastStepAt s0).

(** Later states of the same run: reached by events none of which
    starts a new run. *)
Inductive sameRun : State → State → Prop :=
  | sameRun_refl s : sameRun s s
  | sameRun_event s e h s1 h1 s' :
      startsRun e s = false →
      handle e s h = Done tt s1 h1 →
      sameRun s1 s' →
      sameRun s s'.

(** [queueDir] called once per element of [nds], in order. *)
Definition queueAll (nds : list (option Vec)) (s : State) : State :=
  foldl (λ s nd, queueDir nd s) s nds.

(** ** Concrete sessions *)

(** A host whose clock counts its own readings and whose page has the
    menu; [draws] are the values of [Math.random()]. *)
Definition host0 (draws : list Q) : Host :=
  {| randoms := draws; clock := λ n, inject_Z (Z.of_nat n); reads := 0;
     menuPresent := true |}.

(** Load the page, then handle the events [es]. *)
Definition session (es : list Event) (draws : list Q) : Outcome unit :=
  (bootstrap ;; run es) state0 (host0 draws).

(** Start a game whose first food is at (4,3), let the first frame
    stamp the clock and the second one tick: the snake eats, and the
    next food is drawn from [next]. *)
Definition firstBite (next : list Q) : list Q :=
  [0; 0; 1 # 2; 3 # 8]%Q ++ next.
Definition openingEvents : list Event :=
  [KeyDown " "; Frame 1000; Frame 2000].

(** Down, left, then the key for up: the head is about to enter the
    cell the tail is leaving. *)
Definition chaseEvents : list Event :=
  openingEvents ++ [KeyDown "arrowdown"; Frame 3000; KeyDown "arrowleft";
                    Frame 4000; KeyDown "arrowup"].

(** Keep going right after the first bite until the wall. *)
Definition crashEvents : list Event :=
  openingEvents ++ [Frame 3000; Frame 4000; Frame 5000].

(** Three bites, at (4,3), (5,3) and (5,4), bring the snake to six
    cells; it closes a 3 by 2 ring by entering the cell its tail
    leaves, walks a small square above it and is about to come back to
    that cell from the left. *)
Definition ringDraws : list Q :=
  [0; 0; 1 # 2; 3 # 8; 5 # 8; 3 # 8; 5 # 8; 4 # 8; 0; 0]%Q.
Definition ringEvents : list Event :=
  [KeyDown " "; Frame 1000; Frame 2000; Frame 3000; KeyDown "arrowdown";
   Frame 4000; KeyDown "arrowleft"; Frame 5000; Frame 6000;
   KeyDown "arrowup"; Frame 7000; Frame 8000; KeyDown "arrowleft";
   Frame 9000; KeyDown "arrowdown"; Frame 10000; KeyDown "arrowright"].

(** [n] cells laid out row by row on the initial grid of side 8. *)
Definition rowCells (n : nat) : list Vec :=
  (λ i, mkVec (Z.of_nat i mod 8) (Z.of_nat i / 8)) <$> seq 0 n.

(** [after o P]: the call returned, and [P] holds of the state and the
    host it left. *)
Definition after (o : Outcome unit) (P : State → Host → Prop) : Prop :=
  match o with
  | Done _ s h => P s h
  | _ => False
  end.

Global Instance after_dec o P :
  (∀ s h, Decision (P s h)) → Decision (after o P).
Proof. intros HP. destruct o; simpl; apply _. Defined.
Global Typeclasses Opaque after.

(** The inputs that start a run from the Welcome or GameOver phase:
    the space key under its three names, a click on the play button,
    a tap. *)
Definition startInputs : list Event :=
  [KeyDown " "; KeyDown "spacebar"; KeyDown "space"; PlayClick true;
   TouchEnd 0 0].

(** * The rest of the script

    The utilities, the highscore storage, the touch handlers and the
    numbers that drawing computes from the state. Canvas calls are
    outside the embedding; what is kept of a drawing function is the
    geometry it hands to the canvas. *)

(** ** Easing *)

(** [Math.max(0, Math.min(1, v))] *)
Definition clamp01 (v : Q) : Q := Qmax 0 (Qmin 1 v).

(** [1 - Math.pow(1 - t, 3)] *)
Definition easeOutCubic (t : Q) : Q := (1 - (1 - t) ^ 3)%Q.

(** ** Formatting a duration *)

(** [Math.round(v)]: the nearest integer, a half goes up. *)
Definition mathRound (v : Q) : Z := Qfloor (v + (1 # 2)).

(** [n] copies of [c] in front of [s]. *)
Fixpoint fill (n : nat) (c : ascii) (s : string) : string :=
  match n with
  | O => s
  | S n => String c (fill n c s)
  end.

(** [s.padStart(n, c)] with a filler of one character. *)
Definition padStart (n : nat) (c : ascii) (s : string) : string :=
  fill (n - String.length s) c s.

(** [formatTime(ms)]. [String(n)] of a non-negative integer below
    [10^21] is its decimal numeral, which is [pretty n]. *)
Definition formatTime (ms : Q) : string :=
  let total := Z.max 0 (mathRound ms) in
  let m := total / 60000 in
  let s := (total mod 60000) / 1000 in
  let cs := (total mod 1000) / 10 in
  let mm := padStart 2 "0" (pretty m) in
  let ss := padStart 2 "0" (pretty s) in
  let cc := padStart 2 "0" (pretty cs) in
  mm +:+ ":" +:+ ss +:+ "." +:+ cc.

(** ** Persistent storage (highscores) *)

(** An entry of the highscore table: [{ id, score, timeMs, date }]. *)
Record Entry : Type := mkEntry {
  entry_id : Z;
  entry_score : Z;
  entry_timeMs : Q;
  entry_date : Z
}.

(** [localStorage] as the script sees it. The script is the only writer
    of its two keys and stores [JSON.stringify] of an array of entries
    under [HS_KEY] and [String(id)] under [LAST_KEY]; [JSON.parse] and
    [Number] read both back unchanged.
    - [scoresItem] is what [JSON.parse(getItem(HS_KEY))] yields: the
      stored array, or [None] when there is no item or its text does
      not parse to a truthy value.
    - [lastIdItem] is what [Number(getItem(LAST_KEY))] yields, [None]
      when there is no item or it is not a number.
    - [refusals] says for the next calls of [setItem] whether they throw
      (a full quota); a call beyond the list succeeds. *)
Record Storage : Type := mkStorage {
  scoresItem : option (list Entry);
  lastIdItem : option Z;
  refusals : list bool
}.

Definition set_scoresItem (v : option (list Entry)) (st : Storage) : Storage :=
  {| scoresItem := v; lastIdItem := lastIdItem st; refusals := refusals st |}.
Definition set_lastIdItem (v : option Z) (st : Storage) : Storage :=
  {| scoresItem := scoresItem st; lastIdItem := v; refusals := refusals st |}.
Definition set_refusals (v : list bool) (st : Storage) : Storage :=
  {| scoresItem := scoresItem st; lastIdItem := lastIdItem st; refusals := v |}.

(** A call that touches the storage returns or throws. *)
Inductive Result (A : Type) : Type :=
  | Returned (a : A) (st : Storage)
  | Threw (st : Storage).
Arguments Returned {A} a st.
Arguments Threw {A} st.

(** [localStorage.setItem(key, text)], [write] being the assignment of
    the item: [true] when the item was set, [false] when the call threw. *)
Definition setItem (write : Storage → Storage) (st : Storage)
  : bool * Storage :=
  match refusals st with
  | true :: rest => (false, set_refusals rest st)
  | false :: rest => (true, write (set_refusals rest st))
  | [] => (true, write st)
  end.

(** [loadHighscores()]: the stored array, or [[]]. *)
Definition loadHighscores (st : Storage) : list Entry :=
  default [] (scoresItem st).

(** [saveHighscores(list)]: the exception of [setItem] is not caught. *)
Definition saveHighscores (l : list Entry) (st : Storage) : Result unit :=
  match setItem (set_scoresItem (Some l)) st with
  | (true, st') => Returned tt st'
  | (false, st') => Threw st'
  end.

(** [loadLastId()]: [Number(...) || 0]. *)
Definition loadLastId (st : Storage) : Z := default 0 (lastIdItem st).

(** The comparator of [addHighscore]: negative when [a] goes first. *)
Definition compareEntries (a b : Entry) : Q :=
  if negb (entry_score b =? entry_score a)
  then inject_Z (entry_score b - entry_score a)
  else (entry_timeMs a - entry_timeMs b)%Q.

(** [list.sort(cmp)]. The sort of an array is stable, and for a
    comparator that orders the elements consistently the sorted array
    is then determined; it is computed here by insertion, an element
    going behind the ones it does not precede. *)
Fixpoint insertSorted (cmp : Entry → Entry → Q) (x : Entry) (l : list Entry)
  : list Entry :=
  match l with
  | [] => [x]
  | y :: l' =>
      if Qltb (cmp x y) 0 then x :: y :: l' else y :: insertSorted cmp x l'
  end.

Definition sortEntries (cmp : Entry → Entry → Q) (l : list Entry)
  : list Entry :=
  foldl (λ acc x, insertSorted cmp x acc) [] l.

(** [addHighscore({ score, timeMs })], [id] being [Date.now()]. *)
Definition addHighscore (id score : Z) (timeMs : Q) (st : Storage)
  : Result (list Entry) :=
  let entry := mkEntry id score timeMs id in
  let list := loadHighscores st ++ [entry] in
  let list := sortEntries compareEntries list in
  let trimmed := take 5 list in
  match saveHighscores trimmed st with
  | Threw st' => Threw st'
  | Returned _ st' =>
      Returned trimmed (snd (setItem (set_lastIdItem (Some id)) st'))
  end.

(** [(state.endedAt ?? now()) - state.runStartAt] *)
Definition menuDuration (s : State) (h : Host) : Q :=
  (match endedAt s with
   | Some t => t
   | None => clock h (reads h)
   end - runStartAt s)%Q.

(** [populateMenuIfNeeded()] with the storage, [id] being [Date.now()]
    in [addHighscore]. The texts written into the page are left out;
    the clock is read only when [state.endedAt] is [null]. An exception
    of [addHighscore] leaves the function before the flag is set. *)
Definition populateMenu (id : Z) (s : State) (h : Host) (st : Storage)
  : Result (State * Host) :=
  if negb (gameOver s) || menuPopulated s then Returned (s, h) st
  else if negb (menuPresent h) then Returned (s, h) st
  else
    let h' :=
      match endedAt s with
      | Some _ => h
      | None => set_reads (S (reads h)) h
      end in
    match addHighscore id (score s) (menuDuration s h) st with
    | Threw st' => Threw st'
    | Returned _ st' => Returned (set_menuPopulated true s, h') st'
    end.

(** ** Touch handling *)

(** The two variables [touchStartX] and [touchStartY]. *)
Record Touch : Type := mkTouch {
  touchStartX : option Q;
  touchStartY : option Q
}.

(** [onTouchStart(e)]; [changedTouches] lists the [(clientX, clientY)]
    of the touches of the event, a missing list being empty. *)
Definition onTouchStart (changedTouches : list (Q * Q)) (tc : Touch)
  : Touch :=
  match changedTouches with
  | [] => tc
  | (x, y) :: _ => mkTouch (Some x) (Some y)
  end.

(** [onTouchEnd(e)] on the two variables: the displacement goes to the
    body of the handler, [onTouchEnd] above. *)
Definition onTouchEndEvent (changedTouches : list (Q * Q)) (tc : Touch)
  : M Touch :=
  match changedTouches with
  | [] => ret tc
  | (x, y) :: _ =>
      match touchStartX tc, touchStartY tc with
      | Some x0, Some y0 =>
          onTouchEnd (x - x0) (y - y0) ;; ret (mkTouch None None)
      | _, _ => ret tc
      end
  end.

(** ** Canvas size and scaling *)

Definition FOOD_FX_MS : Q := 500.
Definition SSAA : Q := 1.5.

(** What [setupHiDPI] assigns: the CSS size of the canvas in pixels,
    the size of its backing store and the scale of the context. *)
Record Canvas : Type := mkCanvas {
  cssWidth : Z;
  cssHeight : Z;
  width : Z;
  height : Z;
  ratio : Q
}.

(** [setupHiDPI(g)]; [dpr] is [window.devicePixelRatio], [None] when the
    browser does not define it. *)
Definition setupHiDPI (dpr : option Q) (g : Z) : Canvas :=
  let dpr :=
    Qmax 1 (match dpr with
            | Some d => if Qeq_bool d 0 then 1%Q else d
            | None => 1%Q
            end) in
  let ratio := (dpr * SSAA)%Q in
  let gridSize := if g =? 0 then BASE_GRID else g in
  let cssW := gridSize * TILE in
  let cssH := gridSize * TILE in
  {| cssWidth := cssW; cssHeight := cssH;
     width := mathRound (inject_Z cssW * ratio);
     height := mathRound (inject_Z cssH * ratio);
     ratio := ratio |}.

(** The factor [setGameTransform] puts into [transform: scale(...)].
    The side of the grid is never 0 (it is assigned 8, 10 and
    [grid + 2]), nor is the tick period [150 * (15 / grid)]; a division
    by either is the division of the script. *)
Definition gameScale (s : State) : Q :=
  if negb (started s) then 0%Q
  else if gameOver s
  then ((inject_Z BASE_GRID / inject_Z (grid s)) * 0.9)%Q
  else (inject_Z BASE_GRID / inject_Z (grid s))%Q.

(** The screen shake of [setGameTransform]: [None] when no shake is
    due, else the two offsets in pixels before [toFixed(1)]. [t1] and
    [t2] are the two readings of the clock, [rx] and [ry] the two
    random draws. *)
Definition shakeOffset (s : State) (t1 t2 rx ry : Q) : option (Q * Q) :=
  match shakeUntil s with
  | Some u =>
      if negb (Qeq_bool u 0) && Qltb t1 u then
        let tLeft := (u - t2)%Q in
        let p := Qmax 0 (Qmin 1 (tLeft / SHAKE_MS)) in
        let amp := (4 * p)%Q in
        Some (((rx * 2 - 1) * amp)%Q, ((ry * 2 - 1) * amp)%Q)
      else None
  | None => None
  end.

(** ** Drawing the food and the snake *)

(** The [margin] of [renderFrame]. *)
Definition frameMargin : Q := (inject_Z TILE * (12 / 30))%Q.

(** [moved] of [renderFrame], [t] being the reading of the clock. *)
Definition movedFraction (s : State) (t : Q) : Q :=
  if gameOver s || negb (started s) then 1%Q
  else Qmin 1 ((t - lastStepAt s) / stepMs s).

(** What [renderFood] hands to the canvas: the opacity, the radius of
    the halo and the rounded rectangle of the fruit. *)
Record FoodLook : Type := mkFoodLook {
  look_alpha : Q;
  look_halo : Q;
  look_x : Q;
  look_y : Q;
  look_w : Q;
  look_h : Q;
  look_radius : Q
}.

(** [renderFood(margin)], [t] being the reading of the clock; reading
    [state.food.x] of [null] throws, which is [None]. The corner radius
    is the [r] of [drawRoundedRect]. *)
Definition renderFood (margin t : Q) (s : State) : option FoodLook :=
  let el :=
    match foodFxAt s with
    | Some t0 => if Qeq_bool t0 0 then FOOD_FX_MS else (t - t0)%Q
    | None => FOOD_FX_MS
    end in
  let raw := clamp01 (el / FOOD_FX_MS) in
  let p := easeOutCubic raw in
  let scale := (0.94 + 0.06 * p)%Q in
  let alpha := (0.75 + 0.25 * p)%Q in
  match food s with
  | None => None
  | Some f =>
      let cx := (inject_Z (vx f * TILE) + inject_Z TILE / 2)%Q in
      let cy := (inject_Z (vy f * TILE) + inject_Z TILE / 2)%Q in
      let w := ((inject_Z TILE - margin) * scale)%Q in
      let h := ((inject_Z TILE - margin) * scale)%Q in
      Some {| look_alpha := alpha;
              look_halo := (inject_Z TILE * (0.45 + 0.15 * p))%Q;
              look_x := (cx - w / 2)%Q; look_y := (cy - h / 2)%Q;
              look_w := w; look_h := h;
              look_radius :=
                Qmin (Qmin (inject_Z TILE - margin) (w / 2)) (h / 2) |}
  end.

(** [(a + (b - a) * f) * TILE]: the pixel between cell [a] and cell [b]. *)
Definition lerpCell (a b : Z) (f : Q) : Q :=
  ((inject_Z a + (inject_Z b - inject_Z a) * f) * inject_Z TILE)%Q.

(** The callback of [computeSnakePoints] for the segment [point] at
    index [i]; [None] when it reads a coordinate of [undefined]. *)
Definition snakePoint (s : State) (moved : Q) (i : nat) (point : Vec)
  : option (Q * Q) :=
  if (i =? 0)%nat then
    match snake s !! 1%nat with
    | None => None
    | Some neck =>
        Some (lerpCell (vx neck) (vx point) moved,
              lerpCell (vy neck) (vy point) moved)
    end
  else if (i =? length (snake s) - 1)%nat then
    match snake s !! (length (snake s) - 2)%nat with
    | None => None
    | Some prev =>
        let tailFactor := (if ateOnLastStep s then 0 else 1 - moved)%Q in
        Some (lerpCell (vx prev) (vx point) tailFactor,
              lerpCell (vy prev) (vy point) tailFactor)
    end
  else Some (inject_Z (vx point * TILE), inject_Z (vy point * TILE)).

(** [computeSnakePoints(moved, margin)]: one point per segment. *)
Definition computeSnakePoints (moved : Q) (s : State)
  : option (list (Q * Q)) :=
  mapM id (imap (snakePoint s moved) (snake s)).

(** ** Vocabulary of the further properties *)

(** A cell of the board of side [g]. *)
Definition onBoard (g : Z) (p : Vec) : Prop :=
  0 ≤ vx p < g ∧ 0 ≤ vy p < g.

(** Two cells that share a side. *)
Definition adjacent (a b : Vec) : Prop :=
  Z.abs (vx a - vx b) + Z.abs (vy a - vy b) = 1.

(** A sequence of cells each of which shares a side with the next. *)
Fixpoint linked (l : list Vec) : Prop :=
  match l with
  | a :: (b :: _) as l' => adjacent a b ∧ linked l'
  | _ => True
  end.

(** [a] goes before [b] or ties with it in the order of the table:
    the higher score, then the shorter time. *)
Definition ranksNoLower (a b : Entry) : Prop :=
  entry_score b < entry_score a
  ∨ (entry_score a = entry_score b ∧ (entry_timeMs a <= entry_timeMs b)%Q).

(** The rounded duration in hundredths of a second. *)
Definition centiseconds (ms : Q) : Z := Z.max 0 (mathRound ms) / 10.

(** The direction of the last move: from the second segment to the
    head. *)
Definition heading (l : list Vec) : option Vec :=
  match l with
  | hd :: nk :: _ => Some (mkVec (vx hd - vx nk) (vy hd - vy nk))
  | _ => None
  end.

(** The initial snake of both resets. *)
Definition snake0 : list Vec := [mkVec 3 3; mkVec 2 3; mkVec 1 3].

(** What every reachable state satisfies besides [Inv]: the shape of
    the snake, the score, the index, the tick period and the
    bookkeeping of the end of a run. *)
Record Body (s : State) : Prop := mkBody {
  body_length : (3 ≤ length (snake s))%nat;
  body_score : score s = Z.of_nat (length (snake s)) - 3;
  body_board : Forall (onBoard (grid s)) (snake s);
  body_linked : linked (snake s);
  body_heading : gameOver s = false → heading (snake s) = Some (dir s);
  body_index : occupied s ⊆ cellKeys (snake s);
  body_period : stepMs s = (150 * (15 / inject_Z (grid s)))%Q;
  body_over :
    if gameOver s
    then started s = true
         ∧ ∃ t, endedAt s = Some t ∧ shakeUntil s = Some (t + SHAKE_MS)%Q
    else endedAt s = None ∧ shakeUntil s = None;
  body_welcome :
    started s = false →
    grid s = 10 ∧ snake s = snake0 ∧ score s = 0 ∧ dir s = mkVec 1 0
}.

(** States that agree on the fields [Body] speaks of. *)
Definition sameBody (s s' : State) : Prop :=
  grid s' = grid s ∧ stepMs s' = stepMs s ∧ snake s' = snake s
  ∧ dir s' = dir s ∧ score s' = score s ∧ gameOver s' = gameOver s
  ∧ endedAt s' = endedAt s ∧ started s' = started s
  ∧ occupied s' = occupied s ∧ shakeUntil s' = shakeUntil s
  ∧ food s' = food s.

(** A host all of whose coming draws are in [[0, 1)]. *)
Definition fairHost (h : Host) : Prop := Forall unitDraw (randoms h).

(** The food cell of [s] is a cell of the board. *)
Definition foodOnBoard (s : State) : Prop :=
  ∃ f, food s = Some f ∧ onBoard (grid s) f.

(** A string in which the character [c] does not occur. *)
Fixpoint lacks (c : ascii) (s : string) : Prop :=
  match s with
  | EmptyString => True
  | String c' s' => c' ≠ c ∧ lacks c s'
  end.

(** Five stored runs with scores 5 down to 1. *)
Definition fullTable : list Entry :=
  (λ n, mkEntry n (6 - n) 1000 n) <$> [1; 2; 3; 4; 5].

(** A point of the canvas at which a cell of the board of side [g] can
    be drawn: the top left corner of a cell. *)
Definition cellCorner (g : Z) (p : Q * Q) : Prop :=
  (0 <= fst p)%Q ∧ (fst p <= inject_Z ((g - 1) * TILE))%Q
  ∧ (0 <= snd p)%Q ∧ (snd p <= inject_Z ((g - 1) * TILE))%Q.

(** Two directions at a right angle. *)
Definition perpendicular (a b : Vec) : Prop :=
  vx a * vx b + vy a * vy b = 0.

(** A sequence of directions each at a right angle to the next. *)
Fixpoint quarterTurns (l : list Vec) : Prop :=
  match l with
  | a :: (b :: _) as l' => perpendicular a b ∧ quarterTurns l'
  | _ => True
  end.

(** * Properties of the embedding *)

#[local] Set Warnings "-clear-no-such-hyp".

(** ** Keys identify cells *)

Lemma pretty_N_char_comma x : pretty_N_char x ≠ ","%char.
Proof. unfold pretty_N_char. repeat case_match; discriminate. Qed.

Lemma pretty_N_go_commaFree x s : commaFree s → commaFree (pretty_N_go x s).
Proof.
  revert s. induction (N.lt_wf_0 x) as [x _ IH]. intros s Hs.
  destruct (decide (x = 0)%N) as [->|Hx].
  - by rewrite pretty_N_go_0.
  - rewrite pretty_N_go_step by lia.
    apply IH; [apply N.div_lt; lia|].
    split; [apply pretty_N_char_comma | done].
Qed.

Lemma pretty_N_commaFree (x : N) : commaFree (pretty x).
Proof.
  unfold pretty, pretty_N. case_decide; [by repeat split|].
  by apply pretty_N_go_commaFree.
Qed.

Lemma pretty_Z_commaFree (x : Z) : commaFree (pretty x).
Proof.
  destruct x as [|p|p]; unfold pretty, pretty_Z.
  - by repeat split.
  - apply pretty_N_commaFree.
  - split; [discriminate | apply pretty_N_commaFree].
Qed.

Lemma comma_split a a' b b' :
  commaFree a → commaFree a' →
  a +:+ "," +:+ b = a' +:+ "," +:+ b' → a = a' ∧ b = b'.
Proof.
  revert a'. induction a as [|c a IH]; intros [|c' a'] Ha Ha' Heq;
    simpl in *.
  - by injection Heq.
  - injection Heq as Hc _. destruct Ha' as [Hc' _]. by rewrite Hc in Hc'.
  - injection Heq as Hc _. destruct Ha as [Hc' _]. by rewrite Hc in Hc'.
  - injection Heq as -> Heq. destruct Ha as [_ Ha], Ha' as [_ Ha'].
    destruct (IH a' Ha Ha' Heq) as [-> ->]. done.
Qed.

Lemma posKey_inj x y x' y' : posKey x y = posKey x' y' → x = x' ∧ y = y'.
Proof.
  unfold posKey. intros Heq.
  apply comma_split in Heq as [Hx Hy]; try apply pretty_Z_commaFree.
  split; by apply (inj pretty).
Qed.

Global Instance keyOf_inj : Inj (=) (=) keyOf.
Proof.
  intros [x y] [x' y'] Heq. unfold keyOf in Heq. simpl in Heq.
  apply posKey_inj in Heq as [-> ->]. done.
Qed.

(** ** The occupancy index as a set of keys *)

Lemma foldl_add_keys (l : list Vec) (acc : gset string) :
  foldl (λ occ p, occ ∪ {[ keyOf p ]}) acc l = acc ∪ cellKeys l.
Proof.
  revert acc. induction l as [|p l IH]; intros acc; unfold cellKeys; simpl.
  - set_solver.
  - rewrite IH. unfold cellKeys. set_solver.
Qed.

Lemma rebuildOccupied_cellKeys l : rebuildOccupied l = cellKeys l.
Proof. unfold rebuildOccupied. rewrite foldl_add_keys. set_solver. Qed.

Lemma elem_of_cellKeys k l : k ∈ cellKeys l ↔ ∃ p, p ∈ l ∧ k = keyOf p.
Proof.
  unfold cellKeys. rewrite elem_of_list_to_set, list_elem_of_fmap.
  naive_solver.
Qed.

Lemma keyOf_elem_of_cellKeys p l : keyOf p ∈ cellKeys l ↔ p ∈ l.
Proof.
  rewrite elem_of_cellKeys. split.
  - intros (q & Hq & Heq). by apply (inj keyOf) in Heq as ->.
  - eauto.
Qed.

Lemma cellKeys_cons p l : cellKeys (p :: l) = {[ keyOf p ]} ∪ cellKeys l.
Proof. done. Qed.

Lemma cellKeys_cons_r p l : cellKeys (p :: l) = cellKeys l ∪ {[ keyOf p ]}.
Proof. rewrite cellKeys_cons. set_solver. Qed.

Lemma cellKeys_snoc l p : cellKeys (l ++ [p]) = cellKeys l ∪ {[ keyOf p ]}.
Proof.
  unfold cellKeys. rewrite fmap_app, list_to_set_app_L. simpl. set_solver.
Qed.

(** ** Popping a sequence *)

Lemma pop_snoc l t : pop (l ++ [t]) = l.
Proof. apply removelast_last. Qed.

(** A sequence with a head has a tail end to pop. *)
Lemma cons_snoc (n : Vec) l :
  ∃ l' t, n :: l = l' ++ [t] ∧ last (n :: l) = Some t.
Proof.
  destruct (last (n :: l)) as [t|] eqn:Hlast.
  - pose proof Hlast as [l' Hl']%last_Some. eauto.
  - by apply last_None in Hlast.
Qed.

Lemma pop_cons_length (n : Vec) l : length (pop (n :: l)) = length l.
Proof.
  destruct (cons_snoc n l) as (l' & t & Heq & _).
  rewrite Heq, pop_snoc.
  apply (f_equal length) in Heq. rewrite length_app in Heq. simpl in Heq. lia.
Qed.

(** ** The food spawner *)

Lemma bitor0_range (r : Q) (g : Z) :
  unitDraw r → 0 < g < 2 ^ 31 → 0 ≤ bitor0 (r * inject_Z g) < g.
Proof.
  intros [H0 H1] Hg. destruct r as [a b].
  unfold Qle in H0. unfold Qlt in H1. simpl in H0, H1.
  unfold bitor0, truncQ. simpl.
  rewrite Pos.mul_1_r.
  assert (0 ≤ a) by lia. assert (a < Z.pos b) by lia.
  rewrite Z.quot_div_nonneg by nia.
  assert (0 ≤ (a * g) / Z.pos b < g) as Hr.
  { split; [apply Z.div_pos; nia|]. apply Z.div_lt_upper_bound; nia. }
  unfold toInt32. rewrite Z.mod_small by lia. lia.
Qed.

Lemma spawnFoodLoop_free g occ draws pos rest :
  spawnFoodLoop g occ draws = Some (pos, rest) →
  keyOf pos ∉ occ.
Proof.
  revert pos rest.
  induction draws as [draws IH] using (induction_ltof1 _ (@length Q)).
  unfold ltof in IH. intros pos rest.
  destruct draws as [|rx [|ry tl]]; simpl; try discriminate.
  case_bool_decide as Hocc.
  - apply IH. simpl. lia.
  - intros [= <- <-]. exact Hocc.
Qed.

Lemma spawnFoodLoop_range g occ draws pos rest :
  Forall unitDraw draws → 0 < g < 2 ^ 31 →
  spawnFoodLoop g occ draws = Some (pos, rest) →
  (0 ≤ vx pos < g ∧ 0 ≤ vy pos < g) ∧ Forall unitDraw rest.
Proof.
  intros Hdraws Hg. revert Hdraws pos rest.
  induction draws as [draws IH] using (induction_ltof1 _ (@length Q)).
  unfold ltof in IH. intros Hdraws pos rest.
  destruct draws as [|rx [|ry tl]]; simpl; try discriminate.
  apply Forall_cons in Hdraws as [Hrx Hdraws].
  apply Forall_cons in Hdraws as [Hry Hdraws].
  case_bool_decide as Hocc.
  - apply IH; [simpl; lia | done].
  - intros [= <- <-]. simpl. auto using bitor0_range.
Qed.

(** The loop ends as soon as a pair of draws names a free cell. *)
Lemma spawnFoodLoop_returns g occ pre rx ry rest :
  Nat.Even (length pre) →
  posKey (bitor0 (rx * inject_Z g)) (bitor0 (ry * inject_Z g)) ∉ occ →
  is_Some (spawnFoodLoop g occ (pre ++ rx :: ry :: rest)).
Proof.
  induction pre as [pre IH] using (induction_ltof1 _ (@length Q)).
  unfold ltof in IH. intros Hev Hfree.
  destruct pre as [|a [|b pre]]; simpl.
  - rewrite bool_decide_eq_false_2 by done. eauto.
  - destruct Hev as [k Hk]. simpl in Hk. lia.
  - case_bool_decide; [|eauto].
    apply IH; [simpl; lia| |done].
    destruct Hev as [k Hk]. simpl in Hk. exists (k - 1)%nat. lia.
Qed.

(** [spawnFood] against the index: the cell it returns is not in the
    index, hence on no snake cell the index holds, and with draws in
    [[0, 1)] it lies on the grid. *)
Lemma spawnFood_contract s h pos s' h' :
  spawnFood s h = Done pos s' h' →
  (keyOf pos ∉ occupied s)
  ∧ (∀ p, p ∈ snake s → keyOf p ∈ occupied s → p ≠ pos)
  ∧ (Forall unitDraw (randoms h) → 0 < grid s < 2 ^ 31 →
     0 ≤ vx pos < grid s ∧ 0 ≤ vy pos < grid s).
Proof.
  unfold spawnFood.
  destruct (spawnFoodLoop _ _ _) as [[p rest]|] eqn:Hloop; [|done].
  unfold bind, now, modify, ret. intros [= <- _ _].
  pose proof (spawnFoodLoop_free _ _ _ _ _ Hloop) as Hfree.
  split; [done|]. split.
  - intros q _ Hq ->. done.
  - intros Hdraws Hg.
    by destruct (spawnFoodLoop_range _ _ _ _ _ Hdraws Hg Hloop).
Qed.

(** [spawnFood] returns as soon as a pair of draws names a free cell. *)
Lemma spawnFood_returns s h pre rx ry rest :
  randoms h = pre ++ rx :: ry :: rest →
  Nat.Even (length pre) →
  posKey (bitor0 (rx * inject_Z (grid s))) (bitor0 (ry * inject_Z (grid s)))
  ∉ occupied s →
  ∃ pos s' h', spawnFood s h = Done pos s' h'.
Proof.
  intros Hr Hev Hfree. unfold spawnFood. rewrite Hr.
  destruct (spawnFoodLoop_returns (grid s) (occupied s) pre rx ry rest
              Hev Hfree) as [[pos rest'] ->].
  unfold bind, now, modify, ret. eauto.
Qed.

(** ** The grid growth controller *)

Lemma growthDue_spec s :
  growthDue s = true ↔
  2 * grid s ^ 2 ≤ 5 * Z.of_nat (length (snake s)) ∧ grid s < 36.
Proof.
  unfold growthDue. rewrite andb_true_iff, Qle_bool_iff, Z.ltb_lt.
  unfold Qle. simpl. lia.
Qed.

Lemma growGridIfNeeded_grid s :
  grid (growGridIfNeeded s) = if growthDue s then grid s + 2 else grid s.
Proof. unfold growGridIfNeeded. by destruct (growthDue s). Qed.

Lemma growGridIfNeeded_snake s :
  snake (growGridIfNeeded s) =
  if growthDue s then (λ p, mkVec (vx p + 1) (vy p + 1)) <$> snake s
  else snake s.
Proof. unfold growGridIfNeeded. by destruct (growthDue s). Qed.

Lemma growGridIfNeeded_length s :
  length (snake (growGridIfNeeded s)) = length (snake s).
Proof.
  rewrite growGridIfNeeded_snake. destruct (growthDue s); [|done].
  by rewrite length_fmap.
Qed.

Lemma growGridIfNeeded_occupied s :
  occupied (growGridIfNeeded s) =
  if growthDue s then cellKeys (snake (growGridIfNeeded s)) else occupied s.
Proof.
  unfold growGridIfNeeded. destruct (growthDue s); [|done].
  simpl. apply rebuildOccupied_cellKeys.
Qed.

Lemma growGridIfNeeded_frame s :
  score (growGridIfNeeded s) = score s
  ∧ dir (growGridIfNeeded s) = dir s
  ∧ queuedDirs (growGridIfNeeded s) = queuedDirs s
  ∧ food (growGridIfNeeded s) = food s
  ∧ started (growGridIfNeeded s) = started s
  ∧ gameOver (growGridIfNeeded s) = gameOver s.
Proof. unfold growGridIfNeeded. by destruct (growthDue s). Qed.

(** On the grid of side 8 the threshold 0.4 * 64 = 25.6 is passed at 26
    cells: 25 cells leave the grid alone, 26 make it 10 and move every
    cell one step down and right. *)
Lemma growGridIfNeeded_threshold :
  let s n := set_snake (rowCells n) (resetState 8 true (mkVec 7 7) 1 None) in
  grid (growGridIfNeeded (s 25%nat)) = 8
  ∧ grid (growGridIfNeeded (s 26%nat)) = 10
  ∧ snake (growGridIfNeeded (s 26%nat))
    = (λ p, mkVec (vx p + 1) (vy p + 1)) <$> rowCells 26.
Proof. by vm_compute. Qed.

(** ** The states of a tick *)

Lemma stepPre_fields s :
  grid (stepPre s) = grid s ∧ snake (stepPre s) = snake s
  ∧ occupied (stepPre s) = occupied s ∧ food (stepPre s) = food s
  ∧ score (stepPre s) = score s ∧ started (stepPre s) = started s
  ∧ gameOver (stepPre s) = gameOver s
  ∧ dir (stepPre s) = dir (consumeDirectionQueue s)
  ∧ queuedDirs (stepPre s) = queuedDirs (consumeDirectionQueue s).
Proof.
  unfold stepPre, consumeDirectionQueue. simpl.
  destruct (queuedDirs s); simpl; repeat split.
Qed.

Lemma isWallCollision_stepPre s nx ny :
  isWallCollision (stepPre s) nx ny = isWallCollision s nx ny.
Proof.
  destruct (stepPre_fields s) as (Hg & _).
  unfold isWallCollision. by rewrite Hg.
Qed.

Lemma isSelfCollision_stepPre s nx ny e :
  isSelfCollision (stepPre s) nx ny e = isSelfCollision s nx ny e.
Proof.
  destruct (stepPre_fields s) as (_ & Hsn & Hocc & _).
  unfold isSelfCollision. by rewrite Hsn, Hocc.
Qed.

Lemma collided_frame t s :
  gameOver (collided t (stepPre s)) = true
  ∧ started (collided t (stepPre s)) = started s
  ∧ endedAt (collided t (stepPre s)) = Some t
  ∧ snake (collided t (stepPre s)) = snake s
  ∧ occupied (collided t (stepPre s)) = occupied s
  ∧ score (collided t (stepPre s)) = score s
  ∧ food (collided t (stepPre s)) = food s
  ∧ grid (collided t (stepPre s)) = grid s.
Proof.
  destruct (stepPre_fields s) as (? & ? & ? & ? & ? & ? & _).
  unfold collided. simpl. done.
Qed.

Lemma collided_dirs t s :
  dir (collided t s) = dir s ∧ queuedDirs (collided t s) = queuedDirs s.
Proof. done. Qed.

Lemma advance_fields n s :
  snake (advance n s) = n :: snake s
  ∧ occupied (advance n s) = occupied s ∪ {[ keyOf n ]}
  ∧ grid (advance n s) = grid s ∧ score (advance n s) = score s.
Proof. done. Qed.

Lemma advance_dirs n s :
  dir (advance n s) = dir s ∧ queuedDirs (advance n s) = queuedDirs s.
Proof. done. Qed.

Lemma dropTail_frame s :
  grid (dropTail s) = grid s ∧ dir (dropTail s) = dir s
  ∧ queuedDirs (dropTail s) = queuedDirs s ∧ score (dropTail s) = score s
  ∧ food (dropTail s) = food s ∧ started (dropTail s) = started s
  ∧ gameOver (dropTail s) = gameOver s
  ∧ snake (dropTail s) = pop (snake s).
Proof. unfold dropTail. by destruct (last (snake s)). Qed.

Lemma dropTail_snoc s l t :
  snake s = l ++ [t] →
  snake (dropTail s) = l ∧ occupied (dropTail s) = occupied s ∖ {[ keyOf t ]}.
Proof.
  intros Hs. unfold dropTail. rewrite Hs, last_snoc.
  cbn [snake occupied set_occupied set_snake]. by rewrite pop_snoc.
Qed.

Lemma fed_fields f t s :
  length (snake (fed f t s)) = length (snake s)
  ∧ score (fed f t s) = score s + 1
  ∧ grid (fed f t s) = (if growthDue s then grid s + 2 else grid s).
Proof.
  unfold fed. cbn [snake score grid set_eatWave].
  rewrite growGridIfNeeded_length, growGridIfNeeded_grid.
  destruct (growGridIfNeeded_frame (set_score (score s + 1) s)) as (-> & _).
  done.
Qed.

Lemma fed_snake f t s :
  snake (fed f t s) =
  if growthDue s then (λ p, mkVec (vx p + 1) (vy p + 1)) <$> snake s
  else snake s.
Proof. unfold fed. cbn [snake set_eatWave]. by rewrite growGridIfNeeded_snake. Qed.

Lemma fed_occupied f t s :
  occupied (fed f t s) =
  if growthDue s then cellKeys (snake (fed f t s)) else occupied s.
Proof.
  unfold fed. cbn [snake occupied set_eatWave].
  by rewrite growGridIfNeeded_occupied.
Qed.

Lemma fed_dirs f t s :
  dir (fed f t s) = dir s ∧ queuedDirs (fed f t s) = queuedDirs s.
Proof.
  unfold fed. cbn [dir queuedDirs set_eatWave].
  by destruct (growGridIfNeeded_frame (set_score (score s + 1) s))
    as (_ & -> & -> & _).
Qed.

Lemma refed_fields pos t s :
  snake (refed pos t s) = snake s ∧ score (refed pos t s) = score s
  ∧ grid (refed pos t s) = grid s ∧ food (refed pos t s) = Some pos
  ∧ occupied (refed pos t s) = occupied s ∧ dir (refed pos t s) = dir s
  ∧ queuedDirs (refed pos t s) = queuedDirs s
  ∧ started (refed pos t s) = started s
  ∧ gameOver (refed pos t s) = gameOver s.
Proof. done. Qed.

(** ** The step engine, branch by branch *)

Lemma sameVec_eq a b : sameVec a b = true ↔ a = b.
Proof.
  unfold sameVec. rewrite andb_true_iff, !Z.eqb_eq.
  destruct a, b; simpl. naive_solver.
Qed.

Lemma candidate_Some s : snake s ≠ [] → is_Some (candidate s).
Proof. unfold candidate. destruct (snake s); [done|eauto]. Qed.

Lemma candidate_snake s n : candidate s = Some n → snake s ≠ [].
Proof. unfold candidate. by destruct (snake s). Qed.

Lemma step_eq s h :
  step s h =
  match candidate s, food s with
  | None, _ | _, None => TypeError
  | Some n, Some f =>
      if isWallCollision s (vx n) (vy n)
         || isSelfCollision s (vx n) (vy n) (sameVec n f)
      then Done tt (collided (clock h (reads h)) (stepPre s))
                   (set_reads (S (reads h)) h)
      else if sameVec n f then
        let s3 := fed f (clock h (reads h)) (advance n (stepPre s)) in
        match spawnFoodLoop (grid s3) (occupied s3) (randoms h) with
        | None => Spinning
        | Some (pos, rest) =>
            Done tt (refed pos (clock h (S (reads h))) s3)
              (set_reads (S (S (reads h)))
                 (set_randoms rest (set_reads (S (reads h)) h)))
        end
      else Done tt (dropTail (advance n (stepPre s))) h
  end.
Proof.
  destruct (stepPre_fields s) as (_ & Hsn & _ & Hfd & _).
  unfold step, candidate, bind, modify, gets, nextHead. fold (stepPre s).
  rewrite Hsn. destruct (snake s) as [|hd tl] eqn:Hsnake; [done|].
  rewrite Hfd. destruct (food s) as [f|] eqn:Hfood; [|done].
  cbn [vx vy].
  rewrite isWallCollision_stepPre, isSelfCollision_stepPre.
  unfold sameVec. cbn [vx vy].
  destruct (_ || _); [reflexivity|].
  destruct (_ && _);
    [|unfold dropTail, advance; cbn [snake set_occupied set_snake];
      destruct (last _); reflexivity].
  unfold applyEatEffects, spawnFood, bind, modify, now, ret, fed, refed,
    advance.
  cbn [randoms clock reads set_reads set_randoms].
  destruct (spawnFoodLoop _ _ _) as [[pos rest]|]; reflexivity.
Qed.

(** A returning [step], branch by branch. *)
Lemma step_inv s h s' h' :
  step s h = Done tt s' h' →
  ∃ n f,
    candidate s = Some n ∧ food s = Some f
    ∧ let hit := isWallCollision s (vx n) (vy n)
                 || isSelfCollision s (vx n) (vy n) (sameVec n f) in
      (hit = true ∧ s' = collided (clock h (reads h)) (stepPre s))
      ∨ (hit = false ∧ n = f
         ∧ ∃ pos, s' = refed pos (clock h (S (reads h)))
                         (fed f (clock h (reads h)) (advance n (stepPre s))))
      ∨ (hit = false ∧ n ≠ f ∧ s' = dropTail (advance n (stepPre s))).
Proof.
  rewrite step_eq.
  destruct (candidate s) as [n|]; [|done].
  destruct (food s) as [f|]; [|done].
  intros Hstep. exists n, f. split; [done|]. split; [done|]. cbv zeta.
  destruct (_ || _); [left; by injection Hstep as <- _|right].
  destruct (sameVec n f) eqn:He.
  - left. apply sameVec_eq in He. split; [done|]. split; [done|].
    cbv zeta in Hstep.
    destruct (spawnFoodLoop _ _ _) as [[pos rest]|]; [|done].
    exists pos. by injection Hstep as <- _.
  - right. split; [done|]. split; [|by injection Hstep as <- _].
    intros Heq%sameVec_eq. congruence.
Qed.

(** The three branches of a tick that has a candidate head [n] and a
    food cell [f]; [hit] is the verdict of the two collision tests. *)
Section Branches.
Context (s : State) (h : Host) (n f : Vec).
Hypothesis Hn : candidate s = Some n.
Hypothesis Hf : food s = Some f.

Let hit : bool :=
  isWallCollision s (vx n) (vy n)
  || isSelfCollision s (vx n) (vy n) (sameVec n f).

(** The collision branch of [step]. *)
Lemma step_collision :
  hit = true →
  step s h = Done tt (collided (clock h (reads h)) (stepPre s))
               (set_reads (S (reads h)) h).
Proof. unfold hit. intros Hc. by rewrite step_eq, Hn, Hf, Hc. Qed.

(** The eating branch of [step]. *)
Lemma step_eat :
  hit = false → sameVec n f = true →
  step s h =
  let s3 := fed f (clock h (reads h)) (advance n (stepPre s)) in
  match spawnFoodLoop (grid s3) (occupied s3) (randoms h) with
  | None => Spinning
  | Some (pos, rest) =>
      Done tt (refed pos (clock h (S (reads h))) s3)
        (set_reads (S (S (reads h)))
           (set_randoms rest (set_reads (S (reads h)) h)))
  end.
Proof. unfold hit. intros Hc He. by rewrite step_eq, Hn, Hf, Hc, He. Qed.

(** The moving branch of [step]. *)
Lemma step_move :
  hit = false → sameVec n f = false →
  step s h = Done tt (dropTail (advance n (stepPre s))) h.
Proof. unfold hit. intros Hc He. by rewrite step_eq, Hn, Hf, Hc, He. Qed.
End Branches.

(** What a returning [step] does to the grid. *)
Lemma step_grid s h s' h' :
  step s h = Done tt s' h' →
  grid s' = grid s
  ∨ (grid s' = grid s + 2
     ∧ 2 * grid s ^ 2 ≤ 5 * Z.of_nat (S (length (snake s)))
     ∧ grid s < 36).
Proof.
  rewrite step_eq.
  destruct (stepPre_fields s) as (Hg & Hsn & _).
  destruct (candidate s) as [n|]; [|done].
  destruct (food s) as [f|]; [|done].
  destruct (advance_fields n (stepPre s)) as (Hsna & _ & Hga & _).
  destruct (_ || _).
  { intros [= <- _]. left. apply collided_frame. }
  destruct (sameVec n f).
  - cbv zeta.
    destruct (spawnFoodLoop _ _ _) as [[pos rest]|]; [|done].
    intros [= <- _].
    destruct (refed_fields pos (clock h (S (reads h)))
                (fed f (clock h (reads h)) (advance n (stepPre s))))
      as (_ & _ & -> & _).
    destruct (fed_fields f (clock h (reads h)) (advance n (stepPre s)))
      as (_ & _ & ->).
    rewrite Hga, Hg.
    destruct (growthDue _) eqn:Hdue; [|by left].
    apply growthDue_spec in Hdue. rewrite Hsna, Hga, Hsn, Hg in Hdue.
    right. done.
  - intros [= <- _].
    destruct (dropTail_frame (advance n (stepPre s))) as (-> & _).
    left. congruence.
Qed.

Lemma step_dirs s h s' h' :
  step s h = Done tt s' h' →
  dir s' = dir (consumeDirectionQueue s)
  ∧ queuedDirs s' = queuedDirs (consumeDirectionQueue s).
Proof.
  rewrite step_eq.
  destruct (stepPre_fields s) as (_ & _ & _ & _ & _ & _ & _ & Hd & Hq).
  destruct (candidate s) as [n|]; [|done].
  destruct (food s) as [f|]; [|done].
  destruct (advance_dirs n (stepPre s)) as [Hda Hqa].
  rewrite <-Hd, <-Hq.
  destruct (_ || _).
  { intros [= <- _]. apply collided_dirs. }
  rewrite <-Hda, <-Hqa.
  generalize (advance n (stepPre s)). intros sa.
  destruct (sameVec n f).
  - cbv zeta.
    destruct (spawnFoodLoop _ _ _) as [[pos rest]|]; [|done].
    intros [= <- _].
    destruct (refed_fields pos (clock h (S (reads h)))
                (fed f (clock h (reads h)) sa))
      as (_ & _ & _ & _ & _ & -> & -> & _).
    apply fed_dirs.
  - intros [= <- _].
    by destruct (dropTail_frame sa) as (_ & -> & -> & _).
Qed.

(** ** Collision tests *)

Lemma isWallCollision_spec s nx ny :
  isWallCollision s nx ny = true ↔
  nx < 0 ∨ ny < 0 ∨ grid s ≤ nx ∨ grid s ≤ ny.
Proof.
  unfold isWallCollision.
  rewrite !orb_true_iff, !Z.ltb_lt, !Z.leb_le. tauto.
Qed.

(** The tail test of [isSelfCollision]. *)
Lemma tail_test (t : option Vec) nx ny :
  match t with
  | Some t => (vx t =? nx) && (vy t =? ny)
  | None => false
  end = bool_decide (t = Some (mkVec nx ny)).
Proof.
  destruct t as [[tx ty]|]; simpl; [|done].
  case_bool_decide as Heq.
  - injection Heq as -> ->. by rewrite !Z.eqb_refl.
  - apply andb_false_iff.
    destruct (decide (tx = nx)) as [->|?]; [|left; by apply Z.eqb_neq].
    right. apply Z.eqb_neq. by intros ->.
Qed.

Lemma isSelfCollision_true s nx ny willEat :
  isSelfCollision s nx ny willEat = true ↔
  posKey nx ny ∈ occupied s
  ∧ ¬ (willEat = false ∧ last (snake s) = Some (mkVec nx ny)).
Proof.
  unfold isSelfCollision. rewrite tail_test.
  destruct willEat; simpl.
  { rewrite bool_decide_eq_true. naive_solver. }
  case_bool_decide as Heq; [naive_solver|].
  rewrite bool_decide_eq_true. naive_solver.
Qed.

(** ** The direction queue *)

Lemma queueDir_frame nd s :
  grid (queueDir nd s) = grid s ∧ snake (queueDir nd s) = snake s
  ∧ dir (queueDir nd s) = dir s ∧ food (queueDir nd s) = food s
  ∧ score (queueDir nd s) = score s ∧ occupied (queueDir nd s) = occupied s
  ∧ started (queueDir nd s) = started s
  ∧ gameOver (queueDir nd s) = gameOver s.
Proof.
  unfold queueDir. destruct nd as [nd|]; [|done].
  by repeat (case_match; try done).
Qed.

Lemma queueDir_queue nd s :
  queuedDirs (queueDir nd s) = queuedDirs s
  ∨ ∃ d, nd = Some d ∧ reverses (lastDir s) d = false
         ∧ (length (queuedDirs s) < 2)%nat
         ∧ queuedDirs (queueDir nd s) = queuedDirs s ++ [d].
Proof.
  unfold queueDir. destruct nd as [d|]; [|by left].
  destruct (reverses (lastDir s) d) eqn:Hrev; [by left|].
  destruct (sameVec (lastDir s) d); [by left|].
  destruct (2 <=? length (queuedDirs s))%nat eqn:Hlen; [by left|].
  right. exists d. apply Nat.leb_gt in Hlen. done.
Qed.

Lemma queueDir_length nd s :
  (length (queuedDirs s) ≤ 2)%nat →
  (length (queuedDirs (queueDir nd s)) ≤ 2)%nat.
Proof.
  intros Hlen. destruct (queueDir_queue nd s) as [->|(d & _ & _ & Hlt & ->)];
    [done|].
  rewrite length_app. simpl. lia.
Qed.

Lemma noReverse_snoc l a b :
  last l = Some a → reverses a b = false →
  noReverse l → noReverse (l ++ [b]).
Proof.
  induction l as [|x [|y l] IH]; simpl; intros Hlast Hrev Hl.
  - done.
  - injection Hlast as ->. done.
  - destruct Hl as [Hxy Hl]. split; [done|]. by apply IH.
Qed.

Lemma last_dir_queue s : last (dir s :: queuedDirs s) = Some (lastDir s).
Proof.
  unfold lastDir. rewrite last_cons. by destruct (last (queuedDirs s)).
Qed.

Lemma queueDir_noReverse nd s :
  noReverse (dir s :: queuedDirs s) →
  noReverse (dir (queueDir nd s) :: queuedDirs (queueDir nd s)).
Proof.
  intros Hchain. destruct (queueDir_frame nd s) as (_ & _ & -> & _).
  destruct (queueDir_queue nd s) as [->|(d & _ & Hrev & _ & ->)]; [done|].
  change (noReverse ((dir s :: queuedDirs s) ++ [d])).
  eapply noReverse_snoc; eauto using last_dir_queue.
Qed.

Lemma consume_noReverse s :
  noReverse (dir s :: queuedDirs s) →
  noReverse (dir (consumeDirectionQueue s)
             :: queuedDirs (consumeDirectionQueue s)).
Proof.
  unfold consumeDirectionQueue.
  destruct (queuedDirs s) as [|d q] eqn:Hq; [by rewrite Hq|].
  simpl. by intros [_ ?].
Qed.

(** The direction after [consume] either stays or is the next one of the
    chain, which does not reverse it. *)
Lemma consume_no_reversal s :
  noReverse (dir s :: queuedDirs s) →
  reverses (dir s) (dir s) = false →
  reverses (dir s) (dir (consumeDirectionQueue s)) = false.
Proof.
  unfold consumeDirectionQueue. destruct (queuedDirs s) as [|d q]; [done|].
  simpl. by intros [? _].
Qed.

Lemma consume_length s :
  (length (queuedDirs (consumeDirectionQueue s)) ≤ length (queuedDirs s))%nat.
Proof.
  unfold consumeDirectionQueue.
  destruct (queuedDirs s) as [|d q] eqn:Hq; [by rewrite Hq|]. simpl. lia.
Qed.

Lemma unitDir_cases d :
  unitDir d ↔
  d = mkVec 0 (-1) ∨ d = mkVec 0 1 ∨ d = mkVec (-1) 0 ∨ d = mkVec 1 0.
Proof. unfold unitDir. set_solver. Qed.

Lemma unitDir_not_self_reverse d : unitDir d → reverses d d = false.
Proof. rewrite unitDir_cases. by intros [-> | [-> | [-> | ->]]]. Qed.

Lemma keyDir_unit k d : keyDir k = Some d → unitDir d.
Proof.
  unfold keyDir. rewrite unitDir_cases.
  repeat case_match; naive_solver.
Qed.

Lemma queueDir_units nd s :
  (∀ d, nd = Some d → unitDir d) →
  Forall unitDir (dir s :: queuedDirs s) →
  Forall unitDir (dir (queueDir nd s) :: queuedDirs (queueDir nd s)).
Proof.
  intros Hnd Hall. destruct (queueDir_frame nd s) as (_ & _ & -> & _).
  destruct (queueDir_queue nd s) as [->|(d & -> & _ & _ & ->)]; [done|].
  rewrite app_comm_cons. apply Forall_app. split; [done|].
  apply Forall_singleton. by apply Hnd.
Qed.

Lemma consume_units s :
  Forall unitDir (dir s :: queuedDirs s) →
  Forall unitDir (dir (consumeDirectionQueue s)
                  :: queuedDirs (consumeDirectionQueue s)).
Proof.
  unfold consumeDirectionQueue.
  destruct (queuedDirs s) as [|d q] eqn:Hq; [by rewrite Hq|].
  simpl. by intros [_ ?]%Forall_cons.
Qed.

Lemma queueAll_length nds s :
  (length (queuedDirs s) ≤ 2)%nat →
  (length (queuedDirs (queueAll nds s)) ≤ 2)%nat.
Proof.
  unfold queueAll. revert s. induction nds as [|nd nds IH]; intros s Hs;
    simpl; [done|].
  by apply IH, queueDir_length.
Qed.

Lemma queueAll_chain nds s :
  noReverse (dir s :: queuedDirs s) →
  dir (queueAll nds s) = dir s
  ∧ noReverse (dir (queueAll nds s) :: queuedDirs (queueAll nds s)).
Proof.
  unfold queueAll. revert s. induction nds as [|nd nds IH]; intros s Hs;
    cbn [foldl]; [done|].
  destruct (IH (queueDir nd s)) as [Hd Hc]; [by apply queueDir_noReverse|].
  destruct (queueDir_frame nd s) as (_ & _ & Hd' & _).
  split; [congruence|done].
Qed.

(** ** The two resets *)

Lemma resetGame_eq s h :
  resetGame s h =
  match spawnFoodLoop 8 (rebuildOccupied [mkVec 3 3; mkVec 2 3; mkVec 1 3])
          (randoms h) with
  | None => Spinning
  | Some (pos, rest) =>
      Done tt
        (resetState 8 true pos (clock h (S (reads h)))
           (Some (clock h (S (S (reads h))))))
        (set_reads (S (S (S (reads h))))
           (set_reads (S (S (reads h)))
              (set_reads (S (reads h)) (set_randoms rest h))))
  end.
Proof.
  unfold resetGame, bind, modify, spawnFood, now, ret.
  cbn [grid occupied snake set_grid set_stepMs set_snake set_dir
       set_queuedDirs set_occupied].
  destruct (spawnFoodLoop _ _ _) as [[pos rest]|]; reflexivity.
Qed.

Lemma resetToWelcome_eq s h :
  resetToWelcome s h =
  match spawnFoodLoop 10 (rebuildOccupied [mkVec 3 3; mkVec 2 3; mkVec 1 3])
          (randoms h) with
  | None => Spinning
  | Some (pos, rest) =>
      Done tt
        (resetState 10 false pos (clock h (S (reads h))) None)
        (set_reads (S (S (reads h)))
           (set_reads (S (reads h)) (set_randoms rest h)))
  end.
Proof.
  unfold resetToWelcome, bind, modify, spawnFood, now, ret.
  cbn [grid occupied snake set_grid set_stepMs set_snake set_dir
       set_queuedDirs set_occupied].
  destruct (spawnFoodLoop _ _ _) as [[pos rest]|]; reflexivity.
Qed.

Lemma resetState_fresh pos t fx :
  let s := resetState 8 true pos t fx in
  phase s = Playing ∧ score s = 0 ∧ grid s = 8
  ∧ snake s = [mkVec 3 3; mkVec 2 3; mkVec 1 3]
  ∧ dir s = mkVec 1 0 ∧ queuedDirs s = []
  ∧ occupied s = cellKeys (snake s)
  ∧ food s = Some pos ∧ endedAt s = None.
Proof.
  intros s. split; [done|]. do 5 (split; [done|]).
  split; [apply rebuildOccupied_cellKeys|done].
Qed.

(** The two constants, whatever the host does. *)
Lemma reset_grids s h s' h' :
  (resetToWelcome s h = Done tt s' h' → grid s' = 10)
  ∧ (resetGame s h = Done tt s' h' → grid s' = 8).
Proof.
  rewrite resetToWelcome_eq, resetGame_eq.
  destruct (spawnFoodLoop 10 _ _) as [[p1 r1]|],
           (spawnFoodLoop 8 _ _) as [[p2 r2]|];
    split; try done; by intros [= <- _].
Qed.

(** ** Rendering leaves the core alone *)

Lemma sameCore_refl s : sameCore s s.
Proof. by repeat split. Qed.

Lemma sameCore_trans s1 s2 s3 :
  sameCore s1 s2 → sameCore s2 s3 → sameCore s1 s3.
Proof. unfold sameCore. intros H12 H23. destruct_and!. repeat split; congruence. Qed.

(** [Math.floor(EAT_FX_MS * 1.15)] is 413. *)
Lemma eatWave_span : Qfloor (EAT_FX_MS * lit_1_15) = 413.
Proof. reflexivity. Qed.

Lemma renderEatWave_core s h :
  ∃ s' h', renderEatWave s h = Done tt s' h' ∧ sameCore s s'.
Proof.
  unfold renderEatWave, bind, gets, now, modify, ret.
  destruct (eatWave s) as [w|]; [|eauto using sameCore_refl].
  destruct (Qle_bool _ _); eexists _, _; (split; [done|by repeat split]).
Qed.

Lemma setGameTransform_core s h :
  ∃ s' h', setGameTransform s h = Done tt s' h' ∧ sameCore s s'.
Proof.
  unfold setGameTransform, bind, gets, populateWelcomeIfNeeded,
    populateMenuIfNeeded, ret.
  repeat case_match; eexists _, _; (split; [done|by repeat split]).
Qed.

Lemma renderFrame_core s h :
  ∃ s' h', renderFrame s h = Done tt s' h' ∧ sameCore s s'.
Proof.
  unfold renderFrame, bind.
  destruct (renderEatWave_core s h) as (s1 & h1 & -> & H1).
  destruct (setGameTransform_core s1 h1) as (s2 & h2 & -> & H2).
  eauto using sameCore_trans.
Qed.

(** ** Frames and input events *)

Lemma loop_eq ts s h :
  loop ts s h =
  if tickDue ts s
  then bind step (λ _, renderFrame) (set_lastStepAt ts (stamped ts s)) h
  else renderFrame (stamped ts s) h.
Proof.
  unfold loop, tickDue, stamped, bind, gets, modify, ret.
  destruct (Qeq_bool (lastStepAt s) 0); cbv zeta;
    destruct (_ && _); reflexivity.
Qed.

Lemma stamped_core ts s :
  grid (stamped ts s) = grid s ∧ snake (stamped ts s) = snake s
  ∧ dir (stamped ts s) = dir s ∧ queuedDirs (stamped ts s) = queuedDirs s
  ∧ food (stamped ts s) = food s ∧ score (stamped ts s) = score s
  ∧ occupied (stamped ts s) = occupied s
  ∧ started (stamped ts s) = started s
  ∧ gameOver (stamped ts s) = gameOver s.
Proof. unfold stamped. by destruct (Qeq_bool _ _). Qed.

(** An input event either starts a run or queues a direction; a key or
    touch that does nothing queues [None]. *)
Lemma input_cases e s h :
  (∀ ts, e ≠ Frame ts) →
  if startsRun e s then handle e s h = resetGame s h
  else ∃ nd, (∀ d, nd = Some d → unitDir d)
             ∧ handle e s h = Done tt (queueDir nd s) h.
Proof.
  intros Hframe. destruct e as [k|b|dx dy|ts]; simpl.
  - unfold onKeyDown. destruct (k =? "f")%string; simpl.
    { by exists None. }
    destruct (keyDir k) as [d|] eqn:Hk; simpl.
    { exists (Some d). split; [|done]. intros ? [= <-]. by eapply keyDir_unit. }
    unfold bind, gets.
    destruct (_ && _); [done|by exists None].
  - unfold onPlayClick. destruct b; [done|by exists None].
  - unfold onTouchEnd.
    destruct (Qltb (Qabs dx) 24 && Qltb (Qabs dy) 24); simpl.
    + unfold bind, gets. destruct (_ || _); [done|by exists None].
    + eexists (Some _). split; [|done]. intros ? [= <-].
      apply unitDir_cases. repeat case_match; auto.
  - by destruct (Hframe ts).
Qed.

Lemma quiet_input e s h :
  (∀ ts, e ≠ Frame ts) → startsRun e s = false →
  ∃ nd, (∀ d, nd = Some d → unitDir d)
        ∧ handle e s h = Done tt (queueDir nd s) h.
Proof.
  intros Hne Hstart. pose proof (input_cases e s h Hne) as Hin.
  by rewrite Hstart in Hin.
Qed.

Lemma phase_Playing s :
  phase s = Playing ↔ started s = true ∧ gameOver s = false.
Proof. unfold phase. destruct (started s), (gameOver s); naive_solver. Qed.

Lemma phase_idle s :
  phase s = Welcome ∨ phase s = GameOver →
  gameOver s || negb (started s) = true.
Proof. unfold phase. by destruct (started s), (gameOver s); intros [?|?]. Qed.

Lemma startInputs_start e s :
  e ∈ startInputs → phase s = Welcome ∨ phase s = GameOver →
  startsRun e s = true.
Proof.
  intros He Hidle%phase_idle. unfold startInputs in He.
  rewrite !elem_of_cons, elem_of_nil in He.
  destruct He as [-> | [-> | [-> | [-> | [-> | []]]]]];
    simpl; rewrite ?Hidle; done.
Qed.

(** ** Invariants of the reachable states *)

Lemma Inv_queueDir nd s :
  (∀ d, nd = Some d → unitDir d) → Inv s → Inv (queueDir nd s).
Proof.
  intros Hnd [Hcap Hunit Hrev Hev Hb].
  destruct (queueDir_frame nd s) as (Hg & _).
  split; rewrite ?Hg;
    auto using queueDir_length, queueDir_units, queueDir_noReverse.
Qed.

Lemma Inv_stepPre s : Inv s → Inv (stepPre s).
Proof.
  intros [Hcap Hunit Hrev Hev Hb].
  destruct (stepPre_fields s) as (Hg & _ & _ & _ & _ & _ & _ & Hd & Hq).
  split; rewrite ?Hg, ?Hd, ?Hq;
    auto using consume_units, consume_noReverse.
  etrans; [apply consume_length|done].
Qed.

(** A state that agrees with [s] on the direction fields and whose grid
    stayed or grew by one increment below the ceiling. *)
Lemma Inv_transfer s s' :
  Inv s →
  dir s' = dir s → queuedDirs s' = queuedDirs s →
  grid s' = grid s ∨ (grid s' = grid s + 2 ∧ grid s < 36) →
  Inv s'.
Proof.
  intros [Hcap Hunit Hrev Hev Hb] Hd Hq Hg.
  split; rewrite ?Hd, ?Hq; try done.
  - destruct Hg as [->|[-> _]]; [done|].
    by rewrite Z.even_add, Hev.
  - destruct Hg as [->|[-> Hlt]]; [done|].
    assert (grid s ≠ 35) by (intros Heq; by rewrite Heq in Hev). lia.
Qed.

Lemma Inv_step s h s' h' : Inv s → step s h = Done tt s' h' → Inv s'.
Proof.
  intros HI Hstep. apply Inv_stepPre in HI.
  destruct (stepPre_fields s) as (Hg & _ & _ & _ & _ & _ & _ & Hd & Hq).
  destruct (step_dirs _ _ _ _ Hstep) as [Hd' Hq'].
  apply (Inv_transfer (stepPre s)); [done|congruence|congruence|].
  rewrite Hg. destruct (step_grid _ _ _ _ Hstep) as [?|(? & _ & ?)]; auto.
Qed.

Lemma Inv_resetState g st pos t fx :
  Z.even g = true → 8 ≤ g ≤ 36 → Inv (resetState g st pos t fx).
Proof.
  intros Hev Hb. split; simpl; try done.
  - lia.
  - apply Forall_singleton, unitDir_cases. auto.
Qed.

Lemma Inv_resetGame s h s' h' : resetGame s h = Done tt s' h' → Inv s'.
Proof.
  rewrite resetGame_eq.
  destruct (spawnFoodLoop _ _ _) as [[pos rest]|]; [|done].
  intros [= <- _]. by apply Inv_resetState.
Qed.

Lemma Inv_bootstrap s h s' h' : bootstrap s h = Done tt s' h' → Inv s'.
Proof.
  unfold bootstrap. rewrite resetToWelcome_eq.
  destruct (spawnFoodLoop _ _ _) as [[pos rest]|]; [|done].
  intros [= <- _]. by apply Inv_resetState.
Qed.

Lemma Inv_sameCore s s' : sameCore s s' → Inv s → Inv s'.
Proof.
  intros (Hg & _ & _ & Hd & Hq & _) HI.
  apply (Inv_transfer s); auto.
Qed.

Lemma Inv_loop ts s h s' h' : Inv s → loop ts s h = Done tt s' h' → Inv s'.
Proof.
  intros HI. rewrite loop_eq.
  destruct (stamped_core ts s) as (Hg & _ & Hd & Hq & _).
  assert (Inv (stamped ts s)) as HI0 by (apply (Inv_transfer s); auto).
  destruct (tickDue ts s).
  - unfold bind.
    destruct (step _ h) as [[] s1 h1| |] eqn:Hstep; [|done..].
    apply Inv_step in Hstep; [|apply (Inv_transfer (stamped ts s)); auto].
    destruct (renderFrame_core s1 h1) as (s2 & h2 & -> & Hcore).
    intros [= <- _]. by eapply Inv_sameCore.
  - destruct (renderFrame_core (stamped ts s) h) as (s2 & h2 & -> & Hcore).
    intros [= <- _]. by eapply Inv_sameCore.
Qed.

Lemma Inv_input e s h s' h' :
  (∀ ts, e ≠ Frame ts) → Inv s → handle e s h = Done tt s' h' → Inv s'.
Proof.
  intros Hne HI. pose proof (input_cases e s h Hne) as Hin.
  destruct (startsRun e s).
  - rewrite Hin. apply Inv_resetGame.
  - destruct Hin as (nd & Hnd & ->). intros [= <- _]. by apply Inv_queueDir.
Qed.

Lemma Inv_handle e s h s' h' : Inv s → handle e s h = Done tt s' h' → Inv s'.
Proof.
  destruct e as [k|b|dx dy|ts]; try (by apply Inv_input).
  apply Inv_loop.
Qed.

Lemma reachable_Inv s : reachable s → Inv s.
Proof.
  induction 1 as [h s h' Hboot|e s h s' h' _ IH Hev].
  - by eapply Inv_bootstrap.
  - by eapply Inv_handle.
Qed.

Lemma Ready_step s h s' h' : step s h = Done tt s' h' → Ready s'.
Proof.
  intros (n & f & Hn%candidate_snake & Hf & Hcase)%step_inv.
  destruct (stepPre_fields s) as (_ & Hsn & _ & Hfd & _).
  destruct (advance_fields n (stepPre s)) as (Hsna & _).
  assert (food (advance n (stepPre s)) = food (stepPre s)) as Hfa by done.
  destruct Hcase as [[_ ->]|[(_ & _ & pos & ->)|(_ & _ & ->)]]; split.
  - destruct (collided_frame (clock h (reads h)) s)
      as (_ & _ & _ & -> & _). done.
  - destruct (collided_frame (clock h (reads h)) s)
      as (_ & _ & _ & _ & _ & _ & -> & _). by rewrite Hf.
  - destruct (refed_fields pos (clock h (S (reads h)))
                (fed f (clock h (reads h)) (advance n (stepPre s))))
      as (Hs & _).
    destruct (fed_fields f (clock h (reads h)) (advance n (stepPre s)))
      as (Hl & _).
    intros Hnil. rewrite Hs in Hnil. rewrite Hnil, Hsna in Hl. done.
  - destruct (refed_fields pos (clock h (S (reads h)))
                (fed f (clock h (reads h)) (advance n (stepPre s))))
      as (_ & _ & _ & -> & _). eauto.
  - destruct (dropTail_frame (advance n (stepPre s)))
      as (_ & _ & _ & _ & _ & _ & _ & Hs).
    intros Hnil. rewrite Hnil in Hs. apply (f_equal length) in Hs.
    rewrite Hsna, Hsn, pop_cons_length in Hs. by destruct (snake s).
  - destruct (dropTail_frame (advance n (stepPre s)))
      as (_ & _ & _ & _ & -> & _). rewrite Hfa, Hfd, Hf. eauto.
Qed.

Lemma Ready_resetState g st pos t fx : Ready (resetState g st pos t fx).
Proof. split; simpl; [done|eauto]. Qed.

Lemma Ready_handle e s h s' h' :
  Ready s → handle e s h = Done tt s' h' → Ready s'.
Proof.
  intros [Hsn Hfd]. destruct e as [k|b|dx dy|ts].
  1-3: match goal with
       | |- handle ?e _ _ = _ → _ =>
           pose proof (input_cases e s h) as Hin;
           destruct (startsRun e s);
           [rewrite Hin, resetGame_eq by done;
            destruct (spawnFoodLoop _ _ _) as [[pos rest]|]; [|done];
            intros [= <- _]; apply Ready_resetState
           |destruct Hin as (nd & _ & ->); [done|];
            intros [= <- _];
            destruct (queueDir_frame nd s) as (_ & Hs & _ & Hf & _);
            split; by rewrite ?Hs, ?Hf]
       end.
  simpl. rewrite loop_eq.
  destruct (stamped_core ts s) as (_ & Hs0 & _ & _ & Hf0 & _).
  destruct (tickDue ts s).
  - unfold bind.
    destruct (step _ h) as [[] s1 h1| |] eqn:Hstep; [|done..].
    apply Ready_step in Hstep as [Hs1 Hf1].
    destruct (renderFrame_core s1 h1)
      as (s2 & h2 & -> & (_ & _ & Hs2 & _ & _ & Hf2 & _)).
    intros [= <- _]. split; by rewrite ?Hs2, ?Hf2.
  - destruct (renderFrame_core (stamped ts s) h)
      as (s2 & h2 & -> & (_ & _ & Hs2 & _ & _ & Hf2 & _)).
    intros [= <- _]. split; by rewrite ?Hs2, ?Hf2, ?Hs0, ?Hf0.
Qed.

Lemma reachable_Ready s : reachable s → Ready s.
Proof.
  induction 1 as [h s h' Hboot|e s h s' h' _ IH Hev].
  - revert Hboot. unfold bootstrap. rewrite resetToWelcome_eq.
    destruct (spawnFoodLoop _ _ _) as [[pos rest]|]; [|done].
    intros [= <- _]. apply Ready_resetState.
  - by eapply Ready_handle.
Qed.

(** In a reachable state [step] has a candidate head and a food cell
    to compare it with: it returns, or spins in [spawnFood], and never
    throws. *)
Lemma reachable_tick_ready s :
  reachable s →
  (∃ n f, candidate s = Some n ∧ food s = Some f)
  ∧ ∀ h, step s h ≠ TypeError.
Proof.
  intros [Hsn [f Hf]]%reachable_Ready.
  destruct (candidate_Some s Hsn) as [n Hn].
  split; [by exists n, f|].
  intros h. rewrite step_eq, Hn, Hf.
  destruct (_ || _); [done|]. destruct (sameVec n f); [|done].
  cbv zeta. by destruct (spawnFoodLoop _ _ _) as [[pos rest]|].
Qed.

Lemma run_reachable es s h s' h' :
  reachable s → run es s h = Done tt s' h' → reachable s'.
Proof.
  revert s h. induction es as [|e es IH]; intros s h Hs; simpl.
  - unfold ret. by intros [= <- _].
  - unfold bind. destruct (handle e s h) as [[] s1 h1| |] eqn:He; [|done..].
    apply IH. by eapply reach_event.
Qed.

Lemma session_reachable es draws s h :
  session es draws = Done tt s h → reachable s.
Proof.
  unfold session, bind.
  destruct (bootstrap state0 (host0 draws)) as [[] s0 h0| |] eqn:Hboot;
    [|done..].
  intros Hrun. eapply run_reachable; [|done]. by eapply reach_bootstrap.
Qed.

Lemma welcome_reachable :
  reachable (resetState 10 false (mkVec 0 0) 1 None).
Proof.
  apply (reach_bootstrap (host0 [0; 0]%Q) _
           (set_reads 2 (set_reads 1 (set_randoms [] (host0 [0; 0]%Q))))).
  reflexivity.
Defined.

(** What one event of a run does to the grid. *)
Lemma handle_grid e s h s' h' :
  startsRun e s = false →
  handle e s h = Done tt s' h' →
  grid s' = grid s
  ∨ (grid s' = grid s + 2
     ∧ 2 * grid s ^ 2 ≤ 5 * Z.of_nat (S (length (snake s)))
     ∧ grid s < 36).
Proof.
  intros Hstart. destruct e as [k|b|dx dy|ts].
  1-3: match goal with
       | |- handle ?e _ _ = _ → _ =>
           destruct (quiet_input e s h) as (nd & _ & ->); [done..|]
       end; intros [= <- _]; left; apply queueDir_frame.
  simpl. rewrite loop_eq.
  destruct (stamped_core ts s) as (Hg & Hsn & _).
  destruct (tickDue ts s).
  - unfold bind.
    destruct (step _ h) as [[] s1 h1| |] eqn:Hstep; [|done..].
    apply step_grid in Hstep. simpl in Hstep. rewrite Hg, Hsn in Hstep.
    destruct (renderFrame_core s1 h1) as (s2 & h2 & -> & (Hg2 & _)).
    intros [= <- _]. by rewrite Hg2.
  - destruct (renderFrame_core (stamped ts s) h)
      as (s2 & h2 & -> & (Hg2 & _)).
    intros [= <- _]. left. congruence.
Qed.

Lemma sameRun_grid s s' :
  Inv s → sameRun s s' →
  Inv s' ∧ ∃ k : nat, grid s' = grid s + 2 * Z.of_nat k.
Proof.
  intros HI Hrun. induction Hrun as [s|s e h s1 h1 s' Hstart Hev _ IH].
  - split; [done|]. exists 0%nat. lia.
  - destruct IH as [HI' [k Hk]]; [by eapply Inv_handle|].
    split; [done|].
    destruct (handle_grid _ _ _ _ _ Hstart Hev) as [Hg|(Hg & _)].
    + exists k. lia.
    + exists (S k). lia.
Qed.

(** * The claims of the specification *)

(** ** The occupancy index across a tick (C1) *)

(** C1: the index does not survive a tick on which the head enters the
    cell the tail leaves. The session eats once, turns down, left and
    up; before the last tick the state is reachable, Playing and its
    index is the set of snake cells. [step] adds the key of the new
    head (3,3), which is already there, then deletes the key of the
    popped tail, the same key: the head is on (3,3) and the index does
    not hold it. *)
Theorem tail_chase_breaks_index :
  after (session chaseEvents (firstBite [0; 0]%Q)) (λ s h,
    phase s = Playing
    ∧ occupied s = cellKeys (snake s)
    ∧ candidate s = Some (mkVec 3 3)
    ∧ last (snake s) = Some (mkVec 3 3)
    ∧ after (step s h) (λ s' _,
        phase s' = Playing
        ∧ snake s' = [mkVec 3 3; mkVec 3 4; mkVec 4 4; mkVec 4 3]
        ∧ occupied s' = cellKeys [mkVec 3 4; mkVec 4 4; mkVec 4 3]
        ∧ (keyOf (mkVec 3 3) ∉ occupied s')
        ∧ occupied s' ≠ cellKeys (snake s'))).
Proof. apply (bool_decide_unpack _). vm_compute. exact I. Qed.

(** So the equality of index and snake is no invariant of the reachable
    Playing states: the frame that runs this tick leaves such a state
    without it. *)
Lemma index_breaks_in_reachable_state :
  ∃ s, reachable s ∧ phase s = Playing ∧ occupied s ≠ cellKeys (snake s).
Proof.
  assert (after (session (chaseEvents ++ [Frame 5000]) (firstBite [0; 0]%Q))
            (λ s _, phase s = Playing ∧ occupied s ≠ cellKeys (snake s)))
    as Hrun by (apply (bool_decide_unpack _); vm_compute; exact I).
  remember (session _ _) as o eqn:Ho.
  destruct o as [[] s h| |]; [|unfold after in Hrun; destruct Hrun..].
  exists s. split; [|exact Hrun].
  eapply session_reachable. symmetry. exact Ho.
Qed.

(** Every tick on which the head enters the tail's cell without eating
    ends like that: the candidate is not even tested against the
    index, the tail's key is deleted after the head's was added, and
    the head's cell is missing from the index. *)
Lemma step_tail_chase_drops_head s h n f :
  candidate s = Some n → food s = Some f → n ≠ f →
  last (snake s) = Some n →
  isWallCollision s (vx n) (vy n) = false →
  ∃ s', step s h = Done tt s' h
        ∧ snake s' = n :: pop (snake s)
        ∧ keyOf n ∉ occupied s'.
Proof.
  intros Hn Hf Hne Htail Hwall.
  assert (sameVec n f = false) as He.
  { apply not_true_is_false. by rewrite sameVec_eq. }
  assert (isSelfCollision s (vx n) (vy n) (sameVec n f) = false) as Hself.
  { apply not_true_is_false. rewrite isSelfCollision_true.
    destruct n as [nx ny]. naive_solver. }
  destruct (stepPre_fields s) as (_ & Hsn & _).
  destruct (advance_fields n (stepPre s)) as (Hsna & _).
  rewrite Hsn in Hsna.
  exists (dropTail (advance n (stepPre s))). split.
  { apply (step_move s h n f); [done..| |done]. by rewrite Hwall, Hself. }
  apply last_Some in Htail as [l' Hl']. rewrite Hl' in Hsna |- *.
  rewrite pop_snoc.
  destruct (dropTail_snoc (advance n (stepPre s)) (n :: l') n)
    as [-> ->]; [done|].
  split; [done|set_solver].
Qed.

(** On every other tick without collision the index follows the snake:
    if it held the cells of a snake without repeated cells before the
    tick, it holds the cells of the snake after it. *)
Lemma step_keeps_index s h s' h' n f :
  occupied s = cellKeys (snake s) → NoDup (snake s) →
  candidate s = Some n → food s = Some f →
  isWallCollision s (vx n) (vy n)
  || isSelfCollision s (vx n) (vy n) (sameVec n f) = false →
  n = f ∨ last (snake s) ≠ Some n →
  step s h = Done tt s' h' →
  occupied s' = cellKeys (snake s').
Proof.
  intros Hidx Hnodup Hn Hf Hc Hcase.
  destruct (stepPre_fields s) as (_ & Hsn & Hocc & _).
  destruct (advance_fields n (stepPre s)) as (Hsna & Hocca & _).
  rewrite Hsn in Hsna. rewrite Hocc, Hidx in Hocca.
  destruct (decide (n = f)) as [He|Hne].
  - rewrite (step_eat s h n f) by (done || by apply sameVec_eq).
    cbv zeta.
    pose proof (fed_snake f (clock h (reads h)) (advance n (stepPre s)))
      as Hsn3.
    pose proof (fed_occupied f (clock h (reads h)) (advance n (stepPre s)))
      as Hocc3.
    destruct (spawnFoodLoop _ _ _) as [[pos rest]|]; [|done].
    intros [= <- _].
    destruct (refed_fields pos (clock h (S (reads h)))
                (fed f (clock h (reads h)) (advance n (stepPre s))))
      as (-> & _ & _ & _ & -> & _).
    rewrite Hocc3. destruct (growthDue _); [done|].
    rewrite Hsn3, Hocca, Hsna, cellKeys_cons. set_solver.
  - destruct Hcase as [?|Htail]; [done|].
    rewrite (step_move s h n f) by
      (done || (apply not_true_is_false; by rewrite sameVec_eq)).
    intros [= <- _].
    unfold candidate in Hn.
    destruct (snake s) as [|hd tl] eqn:Hsnake; [done|]. clear Hn.
    destruct (cons_snoc hd tl) as (l' & t & Heq & Hlast).
    rewrite Heq in Hsna, Hocca, Hnodup. rewrite Hlast in Htail.
    destruct (dropTail_snoc (advance n (stepPre s)) (n :: l') t)
      as [-> ->]; [done|].
    rewrite Hocca, cellKeys_cons, cellKeys_snoc.
    apply NoDup_app in Hnodup as (_ & Hnot & _).
    assert (keyOf t ∉ cellKeys l') as Ht.
    { rewrite keyOf_elem_of_cellKeys. intros Hin. apply (Hnot t Hin).
      by apply list_elem_of_singleton. }
    assert (keyOf n ≠ keyOf t) as Hnt.
    { intros Hk%(inj keyOf). apply Htail. by rewrite Hk. }
    set_solver.
Qed.

(** What the lost key costs. In this session the six-cell snake enters
    the cell (3,3) its tail leaves, so the index loses (3,3); three
    ticks later (3,3) is the fourth of the six cells, the head comes
    back to it from the left, [isSelfCollision] finds nothing in the
    index, and the game goes on with the snake lying across itself. *)
Lemma snake_passes_through_itself :
  after (session ringEvents ringDraws) (λ s h,
    phase s = Playing
    ∧ snake s = [mkVec 2 3; mkVec 2 2; mkVec 3 2; mkVec 3 3; mkVec 3 4;
                 mkVec 4 4]
    ∧ candidate s = Some (mkVec 3 3)
    ∧ food s = Some (mkVec 0 0)
    ∧ isSelfCollision s 3 3 false = false
    ∧ after (step s h) (λ s' _,
        phase s' = Playing
        ∧ snake s' = [mkVec 3 3; mkVec 2 3; mkVec 2 2; mkVec 3 2; mkVec 3 3;
                      mkVec 3 4]
        ∧ ¬ NoDup (snake s'))).
Proof. apply (bool_decide_unpack _). vm_compute. exact I. Qed.

(** ** Self collision (C2) *)

(** While the index holds the cells of the snake, [isSelfCollision]
    tells the cells of the snake apart as the script means it to: a
    candidate head on a cell of the snake is no collision exactly when
    that cell is the tail and the move does not eat. *)
Lemma isSelfCollision_on_intact_index s nx ny willEat :
  occupied s = cellKeys (snake s) → mkVec nx ny ∈ snake s →
  isSelfCollision s nx ny willEat = false
  ↔ last (snake s) = Some (mkVec nx ny) ∧ willEat = false.
Proof.
  intros Hidx Hin.
  assert (posKey nx ny ∈ occupied s) as Hkey.
  { rewrite Hidx. by apply (keyOf_elem_of_cellKeys (mkVec nx ny)). }
  pose proof (isSelfCollision_true s nx ny willEat) as Hspec.
  split.
  - intros Hno.
    destruct (decide (last (snake s) = Some (mkVec nx ny)
                      ∧ willEat = false)) as [?|Hnot]; [done|].
    assert (isSelfCollision s nx ny willEat = true) as Hyes
      by (apply Hspec; naive_solver).
    congruence.
  - intros [Ht He]. apply not_true_is_false. naive_solver.
Qed.

(** C2: [isSelfCollision] lets the head onto an interior cell of the
    snake. At the end of this session the game is in the Playing
    phase, the snake has six cells, and the candidate head (3,3) is
    the fourth of them, not the tail (4,4). The index does not hold
    the key of (3,3): it lost it three ticks earlier, when the head
    entered (3,3) as the tail left it (C1). So [isSelfCollision]
    reports no collision for (3,3), whether the move eats or not. On
    the tail (4,4) it answers as stated: no collision on a move that
    does not eat, a collision on one that does. *)
Theorem isSelfCollision_misses_interior_cell :
  after (session ringEvents ringDraws) (λ s _,
    phase s = Playing
    ∧ snake s = [mkVec 2 3; mkVec 2 2; mkVec 3 2; mkVec 3 3; mkVec 3 4;
                 mkVec 4 4]
    ∧ candidate s = Some (mkVec 3 3)
    ∧ food s = Some (mkVec 0 0)
    ∧ (posKey 3 3 ∉ occupied s)
    ∧ isSelfCollision s 3 3 false = false
    ∧ isSelfCollision s 3 3 true = false
    ∧ isSelfCollision s 4 4 false = false
    ∧ isSelfCollision s 4 4 true = true).
Proof. apply (bool_decide_unpack _). vm_compute. exact I. Qed.

(** ** Collision ends the run (C3) *)

(** C3: a tick of the Playing phase whose candidate head leaves the
    grid on any side, or hits the snake, ends in the GameOver phase
    with the end timestamp read off the clock, and with snake, index,
    score, food and grid as they were. *)
Theorem step_collision_freezes (s : State) (h : Host) (n f : Vec) :
  phase s = Playing →
  candidate s = Some n → food s = Some f →
  (vx n < 0 ∨ vy n < 0 ∨ grid s ≤ vx n ∨ grid s ≤ vy n)
  ∨ isSelfCollision s (vx n) (vy n) (sameVec n f) = true →
  ∃ s' h',
    step s h = Done tt s' h'
    ∧ phase s' = GameOver
    ∧ endedAt s' = Some (clock h (reads h))
    ∧ snake s' = snake s ∧ occupied s' = occupied s
    ∧ score s' = score s ∧ food s' = food s ∧ grid s' = grid s.
Proof.
  intros [Hst Hgo]%phase_Playing Hn Hf Hc.
  eexists _, _. split.
  - apply (step_collision s h n f); [done..|].
    apply orb_true_iff. destruct Hc as [Hw|?]; [left|by right].
    by apply isWallCollision_spec.
  - destruct (collided_frame (clock h (reads h)) s)
      as (Hg' & Hs' & ? & ? & ? & ? & ? & ?).
    repeat split; try done.
    unfold phase. by rewrite Hs', Hg', Hst.
Qed.

(** C3 at the upper wall: the head is on (3,0) and moves up. *)
Lemma step_collision_freezes_witness :
  let s := set_dir (mkVec 0 (-1))
             (set_snake [mkVec 3 0; mkVec 3 1; mkVec 3 2]
                (resetState 8 true (mkVec 4 3) 1 (Some 2%Q))) in
  let h := host0 [] in
  (phase s = Playing ∧ candidate s = Some (mkVec 3 (-1))
   ∧ food s = Some (mkVec 4 3))
  ∧ ∃ s' h',
      step s h = Done tt s' h'
      ∧ phase s' = GameOver
      ∧ endedAt s' = Some (clock h (reads h))
      ∧ snake s' = snake s ∧ occupied s' = occupied s
      ∧ score s' = score s ∧ food s' = food s ∧ grid s' = grid s.
Proof.
  intros s h. split; [by repeat split|].
  apply (step_collision_freezes s h (mkVec 3 (-1)) (mkVec 4 3)).
  - reflexivity.
  - reflexivity.
  - reflexivity.
  - left. right. left. simpl. lia.
Defined.

(** ** Phase transitions (C4) *)

(** C4, as stated, fails: the collision that ends a run leaves the
    score at 1 and the snake where it stood. *)
Lemma collision_does_not_reinitialize :
  match session crashEvents (firstBite [0; 0]%Q),
        session (crashEvents ++ [Frame 6000]) (firstBite [0; 0]%Q) with
  | Done _ s _, Done _ s' _ =>
      phase s = Playing ∧ phase s' = GameOver
      ∧ score s' = 1 ∧ score s' ≠ 0
      ∧ snake s' = [mkVec 7 3; mkVec 6 3; mkVec 5 3; mkVec 4 3]
      ∧ snake s' ≠ [mkVec 3 3; mkVec 2 3; mkVec 1 3]
  | _, _ => False
  end.
Proof. vm_compute. by repeat split. Qed.

(** C4, amended: every start of a run, from the Welcome phase on a
    start input or from the GameOver phase on a restart input,
    reinitializes snake, grid, score, direction queue, food and index:
    the phase is Playing, the score 0, the grid 8, the queue empty, the
    index is the set of cells of the fresh snake and the food is off
    it. The collision that takes Playing to GameOver reinitializes
    nothing: snake, index, score, food and grid stay. *)
Theorem run_start_reinitializes (s : State) (e : Event) (h : Host) :
  ((e ∈ startInputs ∧ (phase s = Welcome ∨ phase s = GameOver))
   ∨ startsRun e s = true →
   (∀ pos rest,
      spawnFoodLoop 8 (cellKeys [mkVec 3 3; mkVec 2 3; mkVec 1 3])
        (randoms h) = Some (pos, rest) →
      ∃ s' h', handle e s h = Done tt s' h' ∧ food s' = Some pos)
   ∧ (∀ s' h', handle e s h = Done tt s' h' →
        phase s' = Playing ∧ score s' = 0 ∧ grid s' = 8
        ∧ snake s' = [mkVec 3 3; mkVec 2 3; mkVec 1 3]
        ∧ dir s' = mkVec 1 0 ∧ queuedDirs s' = []
        ∧ occupied s' = cellKeys (snake s')
        ∧ (∃ p, food s' = Some p ∧ p ∉ snake s')
        ∧ endedAt s' = None))
  ∧ (∀ n f,
       phase s = Playing → candidate s = Some n → food s = Some f →
       isWallCollision s (vx n) (vy n)
       || isSelfCollision s (vx n) (vy n) (sameVec n f) = true →
       ∃ s' h', step s h = Done tt s' h'
                ∧ phase s' = GameOver
                ∧ snake s' = snake s ∧ occupied s' = occupied s
                ∧ score s' = score s ∧ food s' = food s
                ∧ grid s' = grid s).
Proof.
  split.
  - intros Hstart.
    assert (startsRun e s = true) as Hruns.
    { destruct Hstart as [[He Hp]|?]; [by apply startInputs_start|done]. }
    assert (handle e s h = resetGame s h) as ->.
    { destruct e as [k|b|dx dy|ts]; [..|done];
        match goal with
        | |- handle ?e _ _ = _ =>
            pose proof (input_cases e s h) as Hin
        end; rewrite Hruns in Hin; by apply Hin. }
    rewrite resetGame_eq, rebuildOccupied_cellKeys. split.
    + intros pos rest ->. eexists _, _. split; [done|]. done.
    + intros s' h'.
      destruct (spawnFoodLoop _ _ _) as [[pos rest]|] eqn:Hloop; [|done].
      intros [= <- _].
      destruct (resetState_fresh pos (clock h (S (reads h)))
                  (Some (clock h (S (S (reads h))))))
        as (? & ? & ? & Hsn & ? & ? & Hocc & ? & ?).
      repeat split; try done.
      exists pos. split; [done|]. rewrite Hsn.
      apply spawnFoodLoop_free in Hloop.
      by rewrite keyOf_elem_of_cellKeys in Hloop.
  - intros n f [Hst Hgo]%phase_Playing Hn Hf Hc.
    eexists _, _. split; [by apply (step_collision s h n f)|].
    destruct (collided_frame (clock h (reads h)) s)
      as (Hg' & Hs' & ? & ? & ? & ? & ? & ?).
    repeat split; try done.
    unfold phase. by rewrite Hs', Hg', Hst.
Qed.

(** C4 for the space key pressed in the GameOver phase. *)
Lemma run_start_reinitializes_witness :
  let s := collided 9 (resetState 8 true (mkVec 0 0) 1 (Some 2%Q)) in
  let h := host0 [1 # 2; 1 # 2]%Q in
  (KeyDown " " ∈ startInputs ∧ phase s = GameOver)
  ∧ ∃ s' h',
      handle (KeyDown " ") s h = Done tt s' h'
      ∧ food s' = Some (mkVec 4 4)
      ∧ phase s' = Playing ∧ score s' = 0 ∧ grid s' = 8
      ∧ occupied s' = cellKeys (snake s').
Proof.
  intros s h.
  assert (KeyDown " " ∈ startInputs) as Hin by (apply elem_of_cons; by left).
  assert (phase s = GameOver) as Hp by reflexivity.
  split; [done|].
  destruct (proj1 (run_start_reinitializes s (KeyDown " ") h)
              (or_introl (conj Hin (or_intror Hp)))) as [Hret Hpost].
  destruct (Hret (mkVec 4 4) []) as (s' & h' & Hrun & Hfood);
    [vm_compute; reflexivity|].
  exists s', h'.
  destruct (Hpost s' h' Hrun) as (? & ? & ? & _ & _ & _ & ? & _).
  done.
Defined.

(** ** Queueing directions (C5) *)

(** C5, as stated, fails: with "down" queued behind the active
    direction "right", the candidate "left" reverses the active
    direction and is still appended. *)
Lemma queueDir_accepts_reverse_of_active :
  match session [KeyDown " "; KeyDown "arrowdown"] [0; 0; 0; 0]%Q with
  | Done _ s _ =>
      dir s = mkVec 1 0
      ∧ reverses (dir s) (mkVec (-1) 0) = true
      ∧ queuedDirs s = [mkVec 0 1]
      ∧ queuedDirs (queueDir (Some (mkVec (-1) 0)) s)
        = [mkVec 0 1; mkVec (-1) 0]
  | _ => False
  end.
Proof. vm_compute. done. Qed.

(** C5, amended: a candidate that exactly reverses the newest queued
    direction, or the active direction when nothing is queued, leaves
    the queue (and the whole state) unchanged; and whatever is queued
    afterwards, the queue of a reachable state never holds more than
    two entries. *)
Theorem queueDir_rejects_reverse_of_last
    (s : State) (nd : Vec) (nds : list (option Vec)) :
  reachable s ∨ (length (queuedDirs s) ≤ 2)%nat →
  (reverses (lastDir s) nd = true → queueDir (Some nd) s = s)
  ∧ (queuedDirs s = [] → reverses (dir s) nd = true →
     queuedDirs (queueDir (Some nd) s) = [])
  ∧ (length (queuedDirs (queueAll nds s)) ≤ 2)%nat.
Proof.
  intros Hs. split; [|split].
  - intros Hrev. unfold queueDir. by rewrite Hrev.
  - intros Hq Hrev. unfold queueDir, lastDir. rewrite Hq. simpl.
    by rewrite Hrev.
  - apply queueAll_length. destruct Hs as [Hs|Hs]; [|done].
    by apply reachable_Inv.
Qed.

(** C5 on the initial state: "left" is refused while "right" is
    active, and of three accepted turns two are kept. *)
Lemma queueDir_rejects_reverse_of_last_witness :
  (reverses (lastDir state0) (mkVec (-1) 0) = true →
   queueDir (Some (mkVec (-1) 0)) state0 = state0)
  ∧ (queuedDirs state0 = [] → reverses (dir state0) (mkVec (-1) 0) = true →
     queuedDirs (queueDir (Some (mkVec (-1) 0)) state0) = [])
  ∧ (length (queuedDirs
               (queueAll [Some (mkVec 0 1); Some (mkVec (-1) 0);
                          Some (mkVec 0 (-1))] state0)) ≤ 2)%nat.
Proof.
  apply (queueDir_rejects_reverse_of_last state0 (mkVec (-1) 0)
           [Some (mkVec 0 1); Some (mkVec (-1) 0); Some (mkVec 0 (-1))]).
  right. simpl. lia.
Defined.

(** ** Grid growth (C6) *)

(** C6: within a run the grid never shrinks, every operation leaves it
    alone or adds exactly 2, which happens only when the snake covers
    at least 0.4 of the grid and the grid is below 36, and the grid
    never exceeds 36. *)
Theorem grid_grows_by_two_up_to_ceiling
    (s s' : State) (e : Event) (h : Host) (s'' : State) (h'' : Host) :
  reachable s → sameRun s s' →
  startsRun e s' = false → handle e s' h = Done tt s'' h'' →
  (grid s ≤ grid s' ∧ grid s' ≤ grid s'' ∧ grid s'' ≤ 36)
  ∧ (∃ k : nat, grid s' = grid s + 2 * Z.of_nat k)
  ∧ (grid s'' = grid s'
     ∨ (grid s'' = grid s' + 2
        ∧ (inject_Z (grid s' ^ 2) * 0.4
           <= inject_Z (Z.of_nat (S (length (snake s')))))%Q
        ∧ grid s' < 36)).
Proof.
  intros Hs%reachable_Inv Hrun Hstart Hev.
  destruct (sameRun_grid s s' Hs Hrun) as [HI' [k Hk]].
  pose proof (Inv_handle _ _ _ _ _ HI' Hev) as [_ _ _ _ Hb''].
  pose proof (handle_grid _ _ _ _ _ Hstart Hev) as Hg.
  split; [|split; [by exists k|]].
  - destruct Hg as [Hg|(Hg & _)]; lia.
  - destruct Hg as [?|(? & Hdue & ?)]; [by left|right].
    repeat split; try done. unfold Qle. simpl. lia.
Qed.

(** C6 for a direction key on the welcome screen. *)
Lemma grid_grows_by_two_up_to_ceiling_witness :
  let s := resetState 10 false (mkVec 0 0) 1 None in
  let s'' := queueDir (Some (mkVec 0 1)) s in
  (grid s ≤ grid s ∧ grid s ≤ grid s'' ∧ grid s'' ≤ 36)
  ∧ (∃ k : nat, grid s = grid s + 2 * Z.of_nat k)
  ∧ (grid s'' = grid s
     ∨ (grid s'' = grid s + 2
        ∧ (inject_Z (grid s ^ 2) * 0.4
           <= inject_Z (Z.of_nat (S (length (snake s)))))%Q
        ∧ grid s < 36)).
Proof.
  intros s s''.
  apply (grid_grows_by_two_up_to_ceiling s s (KeyDown "arrowdown")
           (host0 []) s'' (host0 [])).
  - exact welcome_reachable.
  - apply sameRun_refl.
  - reflexivity.
  - reflexivity.
Defined.

(** ** Food placement (C7) *)

(** C7: the food can land on the snake. After the tick of C1 the head
    is on (3,3) and the index does not hold that cell; the next tick
    eats the food at (3,2), and [spawnFood], drawing (3,3), finds it
    free in the index and returns it: the new food lies under the
    second segment of the snake. *)
Theorem food_spawns_on_snake :
  after (session (chaseEvents ++ [Frame 5000])
           (firstBite [3 # 8; 2 # 8; 3 # 8; 3 # 8]%Q)) (λ s h,
    phase s = Playing
    ∧ food s = Some (mkVec 3 2)
    ∧ snake s = [mkVec 3 3; mkVec 3 4; mkVec 4 4; mkVec 4 3]
    ∧ (keyOf (mkVec 3 3) ∉ occupied s)
    ∧ after (step s h) (λ s' _,
        phase s' = Playing
        ∧ snake s' = [mkVec 3 2; mkVec 3 3; mkVec 3 4; mkVec 4 4; mkVec 4 3]
        ∧ food s' = Some (mkVec 3 3)
        ∧ mkVec 3 3 ∈ snake s')).
Proof. apply (bool_decide_unpack _). vm_compute. exact I. Qed.

(** The state the frame of that tick leaves is reachable, Playing, and
    its food is a cell of its snake. *)
Lemma food_on_snake_in_reachable_state :
  ∃ s p, reachable s ∧ phase s = Playing ∧ food s = Some p ∧ p ∈ snake s.
Proof.
  assert (after (session (chaseEvents ++ [Frame 5000; Frame 6000])
                   (firstBite [3 # 8; 2 # 8; 3 # 8; 3 # 8]%Q))
            (λ s _, phase s = Playing ∧ food s = Some (mkVec 3 3)
                    ∧ mkVec 3 3 ∈ snake s))
    as Hrun by (apply (bool_decide_unpack _); vm_compute; exact I).
  remember (session _ _) as o eqn:Ho.
  destruct o as [[] s h| |]; [|unfold after in Hrun; destruct Hrun..].
  exists s, (mkVec 3 3). split; [|exact Hrun].
  eapply session_reachable. symmetry. exact Ho.
Qed.

(** ** Eating and moving (C8) *)

(** C8: a tick without collision lengthens the snake by one cell and
    raises the score by one when the candidate head is the food cell,
    and leaves both as they were otherwise; the eating tick returns as
    soon as the food loop finds a cell. In the scenario of the
    specification the snake becomes [(4,3),(3,3),(2,3),(1,3)], the
    score 1, the grid stays at 8 and the new food is off the snake. *)
Theorem step_eats_or_moves (s : State) (h : Host) (n f : Vec) :
  candidate s = Some n → food s = Some f →
  isWallCollision s (vx n) (vy n)
  || isSelfCollision s (vx n) (vy n) (sameVec n f) = false →
  let s3 := fed f (clock h (reads h)) (advance n (stepPre s)) in
  (n ≠ f →
   ∃ s' h', step s h = Done tt s' h'
            ∧ length (snake s') = length (snake s) ∧ score s' = score s)
  ∧ (n = f →
     (∀ pos rest,
        spawnFoodLoop (grid s3) (occupied s3) (randoms h) = Some (pos, rest) →
        ∃ s' h', step s h = Done tt s' h' ∧ food s' = Some pos)
     ∧ (∀ s' h', step s h = Done tt s' h' →
                 length (snake s') = S (length (snake s))
                 ∧ score s' = score s + 1))
  ∧ (snake s = [mkVec 3 3; mkVec 2 3; mkVec 1 3] → dir s = mkVec 1 0 →
     queuedDirs s = [] → f = mkVec 4 3 → score s = 0 → grid s = 8 →
     occupied s = cellKeys (snake s) →
     (∀ pos rest,
        spawnFoodLoop 8
          (cellKeys [mkVec 4 3; mkVec 3 3; mkVec 2 3; mkVec 1 3])
          (randoms h) = Some (pos, rest) →
        ∃ s' h', step s h = Done tt s' h' ∧ food s' = Some pos)
     ∧ ∀ s' h', step s h = Done tt s' h' →
                snake s' = [mkVec 4 3; mkVec 3 3; mkVec 2 3; mkVec 1 3]
                ∧ score s' = 1 ∧ grid s' = 8
                ∧ ∃ p, food s' = Some p ∧ p ∉ snake s').
Proof.
  intros Hn Hf Hc s3.
  destruct (stepPre_fields s)
    as (Hg & Hsn & Hocc & _ & Hsc & _ & _ & Hd & _).
  pose proof (fed_fields f (clock h (reads h)) (advance n (stepPre s)))
    as (Hlen3 & Hsc3 & Hg3).
  pose proof (fed_snake f (clock h (reads h)) (advance n (stepPre s)))
    as Hsn3.
  pose proof (fed_occupied f (clock h (reads h)) (advance n (stepPre s)))
    as Hocc3.
  pose proof (step_eat s h n f Hn Hf Hc) as Heat. cbv zeta in Heat.
  pose proof (step_move s h n f Hn Hf Hc) as Hmove.
  pose proof (dropTail_frame (advance n (stepPre s)))
    as (_ & _ & _ & Hscm & _ & _ & _ & Hsnm).
  pose proof (growthDue_spec (advance n (stepPre s))) as Hdue.
  destruct (advance_fields n (stepPre s)) as (Hsna & Hocca & Hga & Hsca).
  rewrite Hsna, Hga in Hdue.
  rewrite Hsna in Hlen3, Hsnm, Hsn3. rewrite Hsca in Hsc3, Hscm.
  rewrite Hga in Hg3. rewrite Hocca in Hocc3.
  rewrite Hsn in Hlen3, Hsnm, Hsn3, Hdue. rewrite Hsc in Hsc3, Hscm.
  rewrite Hg in Hg3, Hdue. rewrite Hocc in Hocc3.
  fold s3 in Hlen3, Hsc3, Hg3, Hsn3, Hocc3, Heat.
  clearbody s3.
  generalize dependent (dropTail (advance n (stepPre s))). intros sm Hmove Hscm Hsnm.
  generalize dependent (growthDue (advance n (stepPre s))).
  intros due Hg3 Hsn3 Hocc3 Hdue.
  assert (n = f →
          ∀ s' h', step s h = Done tt s' h' →
                   ∃ pos rest,
                     spawnFoodLoop (grid s3) (occupied s3) (randoms h)
                     = Some (pos, rest)
                     ∧ s' = refed pos (clock h (S (reads h))) s3) as Hate.
  { intros He%sameVec_eq s' h'. rewrite (Heat He).
    destruct (spawnFoodLoop _ _ _) as [[pos rest]|]; [|done].
    intros [= <- _]. eauto. }
  split; [|split].
  - intros Hne. assert (sameVec n f = false) as He.
    { apply not_true_is_false. by rewrite sameVec_eq. }
    exists sm, h. split; [by apply Hmove|].
    rewrite Hsnm, Hscm, pop_cons_length. done.
  - intros He. split.
    + intros pos rest Hloop. rewrite Heat by (by apply sameVec_eq).
      rewrite Hloop. eauto.
    + intros s' h' Hstep.
      destruct (Hate He s' h' Hstep) as (pos & rest & _ & ->).
      destruct (refed_fields pos (clock h (S (reads h))) s3)
        as (-> & -> & _).
      done.
  - intros Hsnake Hdir Hq -> Hscore Hgrid Hoccupied.
    assert (n = mkVec 4 3) as ->.
    { revert Hn. unfold candidate. rewrite Hsnake, Hd.
      unfold consumeDirectionQueue. rewrite Hq, Hdir. by intros [= <-]. }
    assert (due = false) as ->.
    { apply not_true_is_false. rewrite Hdue, Hsnake, Hgrid. simpl. lia. }
    rewrite Hoccupied, Hsnake, <-cellKeys_cons_r in Hocc3.
    rewrite Hsnake in Hsn3. rewrite Hgrid in Hg3. rewrite Hscore in Hsc3.
    split.
    + intros pos rest Hloop. rewrite Heat by done.
      rewrite Hg3, Hocc3, Hloop. eauto.
    + intros s' h' Hstep.
      destruct (Hate eq_refl s' h' Hstep) as (pos & rest & Hloop & ->).
      destruct (refed_fields pos (clock h (S (reads h))) s3)
        as (-> & -> & -> & -> & _).
      rewrite Hsn3, Hsc3, Hg3.
      do 3 (split; [done|]).
      exists pos. split; [done|].
      apply spawnFoodLoop_free in Hloop. rewrite Hocc3 in Hloop.
      by rewrite keyOf_elem_of_cellKeys in Hloop.
Qed.

(** C8 on the scenario of the specification. *)
Lemma step_eats_or_moves_witness :
  let s := resetState 8 true (mkVec 4 3) 1 (Some 2%Q) in
  let h := host0 [0; 0]%Q in
  (candidate s = Some (mkVec 4 3) ∧ food s = Some (mkVec 4 3)
   ∧ isWallCollision s 4 3 || isSelfCollision s 4 3 true = false)
  ∧ ∃ s' h',
      step s h = Done tt s' h'
      ∧ length (snake s') = S (length (snake s))
      ∧ snake s' = [mkVec 4 3; mkVec 3 3; mkVec 2 3; mkVec 1 3]
      ∧ score s' = 1 ∧ grid s' = 8 ∧ food s' = Some (mkVec 0 0).
Proof.
  intros s h.
  assert (candidate s = Some (mkVec 4 3)) as Hn by reflexivity.
  assert (food s = Some (mkVec 4 3)) as Hf by reflexivity.
  assert (isWallCollision s 4 3 || isSelfCollision s 4 3 true = false) as Hc
    by (vm_compute; reflexivity).
  split; [done|].
  destruct (step_eats_or_moves s h (mkVec 4 3) (mkVec 4 3) Hn Hf Hc)
    as (_ & Heat & Hscn).
  destruct (Heat eq_refl) as [Hret Hlen].
  destruct (Hret (mkVec 0 0) []) as (s' & h' & Hstep & Hfood);
    [vm_compute; reflexivity|].
  exists s', h'.
  destruct (Hlen s' h' Hstep) as [Hl _].
  destruct (Hscn eq_refl eq_refl eq_refl eq_refl eq_refl eq_refl
              (rebuildOccupied_cellKeys _)) as [_ Hres].
  destruct (Hres s' h' Hstep) as (Hsn & Hsc & Hg & _).
  done.
Defined.

(** ** The grid at the start of a run (C9) *)

(** C9: the welcome-idle run and a player-started run do not begin on
    the same grid. After loading the page the grid is 10; after the
    start key it is 8. *)
Theorem welcome_grid_differs_from_game_grid :
  match session [] [0; 0]%Q, session [KeyDown " "] [0; 0; 0; 0]%Q with
  | Done _ sw _, Done _ sg _ =>
      phase sw = Welcome ∧ grid sw = 10
      ∧ phase sg = Playing ∧ grid sg = 8
      ∧ grid sw ≠ grid sg
  | _, _ => False
  end.
Proof. vm_compute. by repeat split. Qed.

(** ** No reversal between ticks (C10) *)

(** C10: between two ticks of a run the active direction never turns
    into its exact reverse, whatever was queued in between: the
    direction the next tick consumes does not cancel the direction of
    the state the inputs arrived in. *)
Theorem active_direction_never_reverses
    (s : State) (nds : list (option Vec)) (h : Host) :
  reachable s →
  reverses (dir s) (dir (consumeDirectionQueue (queueAll nds s))) = false
  ∧ (∀ s' h', step (queueAll nds s) h = Done tt s' h' →
              dir s' = dir (consumeDirectionQueue (queueAll nds s))
              ∧ reverses (dir s) (dir s') = false
              ∧ (vx (dir s) + vx (dir s'), vy (dir s) + vy (dir s')) ≠ (0, 0)).
Proof.
  intros [Hcap Hunit Hrev _ _]%reachable_Inv.
  destruct (queueAll_chain nds s Hrev) as [Hd Hchain].
  assert (reverses (dir s)
            (dir (consumeDirectionQueue (queueAll nds s))) = false) as Hno.
  { rewrite <-Hd at 1. apply consume_no_reversal; [done|].
    rewrite Hd. apply unitDir_not_self_reverse.
    by apply Forall_cons in Hunit as [? _]. }
  split; [done|]. intros s' h' Hstep.
  destruct (step_dirs _ _ _ _ Hstep) as [-> _].
  repeat split; [done|]. intros [= Hx Hy].
  unfold reverses in Hno. rewrite Hx, Hy in Hno. done.
Qed.

(** C10 with two turns, "down" then "left", queued before the tick. *)
Lemma active_direction_never_reverses_witness :
  let s := resetState 10 false (mkVec 0 0) 1 None in
  let nds := [Some (mkVec 0 1); Some (mkVec (-1) 0)] in
  reachable s
  ∧ reverses (dir s) (dir (consumeDirectionQueue (queueAll nds s))) = false
  ∧ (∀ s' h', step (queueAll nds s) (host0 []) = Done tt s' h' →
              dir s' = dir (consumeDirectionQueue (queueAll nds s))
              ∧ reverses (dir s) (dir s') = false
              ∧ (vx (dir s) + vx (dir s'), vy (dir s) + vy (dir s')) ≠ (0, 0)).
Proof.
  intros s nds.
  assert (reachable s) as Hs.
  { apply (reach_bootstrap (host0 [0; 0]%Q) _
             (set_reads 2 (set_reads 1 (set_randoms [] (host0 [0; 0]%Q))))).
    reflexivity. }
  split; [exact Hs|].
  exact (active_direction_never_reverses s nds (host0 []) Hs).
Defined.

(** * Further properties of the script *)

(** ** The shape of the snake *)

Lemma linked_cons a l :
  linked (a :: l) ↔ (∀ b, head l = Some b → adjacent a b) ∧ linked l.
Proof. destruct l as [|b l]; simpl; naive_solver. Qed.

Lemma linked_pop l : linked l → linked (pop l).
Proof.
  unfold pop. induction l as [|a [|b l] IH]; [done..|].
  intros [Hab Hl]. specialize (IH Hl).
  change (removelast (a :: b :: l)) with (a :: removelast (b :: l)).
  destruct l as [|c l]; [done|].
  change (removelast (b :: c :: l)) with (b :: removelast (c :: l)) in *.
  done.
Qed.

Lemma linked_shift l :
  linked l → linked ((λ p, mkVec (vx p + 1) (vy p + 1)) <$> l).
Proof.
  induction l as [|a [|b l] IH]; [done..|].
  intros [Hab Hl]. specialize (IH Hl). split; [|done].
  unfold adjacent in *. simpl. by replace (vx a + 1 - (vx b + 1)) with (vx a - vx b) by lia;
    replace (vy a + 1 - (vy b + 1)) with (vy a - vy b) by lia.
Qed.

Lemma Forall_pop (P : Vec → Prop) l : Forall P l → Forall P (pop l).
Proof.
  unfold pop. induction l as [|a [|b l] IH]; [done| by intros _; constructor |].
  intros [Ha Hl]%Forall_cons.
  change (removelast (a :: b :: l)) with (a :: removelast (b :: l)).
  constructor; auto.
Qed.

Lemma onBoard_shift g l :
  Forall (onBoard g) l →
  Forall (onBoard (g + 2)) ((λ p, mkVec (vx p + 1) (vy p + 1)) <$> l).
Proof.
  intros Hl. apply Forall_fmap. eapply Forall_impl; [done|].
  unfold onBoard. simpl. intros p. lia.
Qed.

Lemma heading_shift l :
  heading ((λ p, mkVec (vx p + 1) (vy p + 1)) <$> l) = heading l.
Proof.
  destruct l as [|a [|b l]]; [done..|]. simpl. f_equal. f_equal; lia.
Qed.

Lemma heading_pop a b c l : heading (pop (a :: b :: c :: l)) = heading (a :: b :: c :: l).
Proof. done. Qed.

Lemma cellKeys_pop_subset (occ : gset string) l t :
  last l = Some t → occ ⊆ cellKeys l → occ ∖ {[ keyOf t ]} ⊆ cellKeys (pop l).
Proof.
  intros [l' ->]%last_Some. rewrite pop_snoc, cellKeys_snoc. set_solver.
Qed.

(** ** What a tick leaves alone *)

Lemma stepPre_more s :
  stepMs (stepPre s) = stepMs s ∧ endedAt (stepPre s) = endedAt s
  ∧ shakeUntil (stepPre s) = shakeUntil s
  ∧ lastStepAt (stepPre s) = lastStepAt s
  ∧ runStartAt (stepPre s) = runStartAt s.
Proof.
  unfold stepPre, consumeDirectionQueue. simpl.
  destruct (queuedDirs s); simpl; repeat split.
Qed.

Lemma queueDir_sameBody nd s : sameBody s (queueDir nd s).
Proof.
  unfold queueDir. destruct nd as [nd|]; [|by repeat split].
  repeat case_match; by repeat split.
Qed.

Lemma stamped_sameBody ts s : sameBody s (stamped ts s).
Proof. unfold stamped. destruct (Qeq_bool _ _); by repeat split. Qed.

Lemma sameCore_sameBody s s' : sameCore s s' → sameBody s s'.
Proof. unfold sameCore, sameBody. naive_solver. Qed.

Lemma sameBody_trans s1 s2 s3 :
  sameBody s1 s2 → sameBody s2 s3 → sameBody s1 s3.
Proof.
  unfold sameBody. intros H12 H23. destruct_and!. repeat split; congruence.
Qed.

Lemma Body_sameBody s s' : sameBody s s' → Body s → Body s'.
Proof.
  intros (Hg & Hms & Hsn & Hd & Hsc & Hov & Hen & Hst & Hocc & Hsh & _)
    [H1 H2 H3 H4 H5 H6 H7 H8 H9].
  split; rewrite ?Hg, ?Hms, ?Hsn, ?Hd, ?Hsc, ?Hov, ?Hen, ?Hst, ?Hocc, ?Hsh;
    done.
Qed.

Lemma growGridIfNeeded_period s :
  stepMs s = (150 * (15 / inject_Z (grid s)))%Q →
  stepMs (growGridIfNeeded s)
  = (150 * (15 / inject_Z (grid (growGridIfNeeded s))))%Q.
Proof. unfold growGridIfNeeded. by destruct (growthDue s). Qed.

Lemma growGridIfNeeded_more s :
  gameOver (growGridIfNeeded s) = gameOver s
  ∧ started (growGridIfNeeded s) = started s
  ∧ endedAt (growGridIfNeeded s) = endedAt s
  ∧ shakeUntil (growGridIfNeeded s) = shakeUntil s.
Proof. unfold growGridIfNeeded. by destruct (growthDue s). Qed.

(** The candidate head is the head moved by the direction the tick
    takes. *)
Lemma candidate_head s n :
  candidate s = Some n →
  ∃ hd tl, snake s = hd :: tl
           ∧ n = mkVec (vx hd + vx (dir (stepPre s)))
                       (vy hd + vy (dir (stepPre s))).
Proof.
  unfold candidate. destruct (snake s) as [|hd tl]; [done|].
  intros [= <-]. eauto.
Qed.

Lemma unitDir_adjacent hd d :
  unitDir d → adjacent (mkVec (vx hd + vx d) (vy hd + vy d)) hd.
Proof.
  rewrite unitDir_cases. unfold adjacent.
  intros [-> | [-> | [-> | ->]]]; simpl; lia.
Qed.

Lemma isWallCollision_onBoard s n :
  isWallCollision s (vx n) (vy n) = false ↔ onBoard (grid s) n.
Proof.
  unfold isWallCollision, onBoard.
  rewrite !orb_false_iff, !Z.ltb_ge, !Z.leb_gt. lia.
Qed.

(** ** The invariant [Body] *)

Section Tick.
Context (s : State) (n f : Vec).
Hypothesis HI : Inv s.
Hypothesis HB : Body s.
Hypothesis Hplay : started s = true ∧ gameOver s = false.
Hypothesis Hn : candidate s = Some n.

Lemma Body_collided t : Body (collided t (stepPre s)).
Proof.
  destruct HB as [H1 H2 H3 H4 H5 H6 H7 H8 H9].
  destruct (stepPre_fields s) as (Hg & Hsn & Hocc & _ & Hsc & Hst & _).
  destruct (stepPre_more s) as (Hms & _).
  destruct Hplay as [Hs Ho].
  split; unfold collided;
    cbn [snake score grid occupied stepMs gameOver started endedAt
         shakeUntil dir set_shakeUntil set_endedAt set_gameOver];
    rewrite ?Hg, ?Hsn, ?Hocc, ?Hsc, ?Hst, ?Hms; try done.
  - split; [done|]. eauto.
  - congruence.
Qed.

Lemma tick_advance :
  isWallCollision s (vx n) (vy n) = false →
  ∃ hd nk tl,
    snake s = hd :: nk :: tl ∧ tl ≠ []
    ∧ Forall (onBoard (grid s)) (n :: snake s)
    ∧ linked (n :: snake s)
    ∧ heading (n :: snake s) = Some (dir (stepPre s)).
Proof.
  intros Hwall%isWallCollision_onBoard.
  destruct HB as [H1 H2 H3 H4 H5 H6 H7 H8 H9].
  destruct (candidate_head s n Hn) as (hd & tl & Hsn & Heq).
  rewrite Hsn in H1. destruct tl as [|nk [|x tl]]; simpl in H1; try lia.
  exists hd, nk, (x :: tl). split; [done|]. split; [done|].
  pose proof (inv_units _ (Inv_stepPre s HI)) as Hunit.
  apply Forall_cons in Hunit as [Hunit _].
  repeat split.
  - by constructor.
  - rewrite Hsn. apply linked_cons. split; [|by rewrite <-Hsn].
    intros b [= <-]. subst n. by apply unitDir_adjacent.
  - rewrite Hsn. subst n. simpl. f_equal.
    destruct (dir (stepPre s)) as [dx dy]. simpl. f_equal; lia.
Qed.

Lemma Body_moved :
  isWallCollision s (vx n) (vy n) = false →
  Body (dropTail (advance n (stepPre s))).
Proof.
  intros Hwall.
  destruct (tick_advance Hwall) as (hd & nk & tl & Hsn & Htl & Hbd & Hlk & Hhd).
  destruct HB as [H1 H2 H3 H4 H5 H6 H7 H8 H9].
  destruct (stepPre_fields s) as (Hg & Hsn0 & Hocc & _ & Hsc & Hst & Hov & _).
  destruct (stepPre_more s) as (Hms & Hen & Hsh & _).
  destruct Hplay as [Hs Ho].
  set (s1 := advance n (stepPre s)).
  assert (snake s1 = n :: snake s) as Hs1 by (unfold s1; simpl; by rewrite Hsn0).
  destruct (dropTail_frame s1) as (Hg2 & Hd2 & _ & Hsc2 & _ & Hst2 & Hov2 & Hsn2).
  assert (stepMs (dropTail s1) = stepMs s ∧ endedAt (dropTail s1) = endedAt s
          ∧ shakeUntil (dropTail s1) = shakeUntil s) as (Hms2 & Hen2 & Hsh2).
  { unfold dropTail. destruct (last (snake s1)); simpl; by rewrite Hms, Hen, Hsh. }
  assert (grid s1 = grid s ∧ score s1 = score s ∧ started s1 = started s
          ∧ gameOver s1 = gameOver s ∧ dir s1 = dir (stepPre s)
          ∧ occupied s1 = occupied s ∪ {[ keyOf n ]})
    as (Hg1 & Hsc1 & Hst1 & Hov1 & Hd1 & Hocc1).
  { unfold s1. simpl. by rewrite Hg, Hsc, Hst, Hov, Hocc. }
  split; rewrite ?Hg2, ?Hsc2, ?Hst2, ?Hov2, ?Hsn2, ?Hms2, ?Hen2, ?Hsh2, ?Hd2,
    ?Hg1, ?Hsc1, ?Hst1, ?Hov1, ?Hd1, ?Hs1.
  - rewrite pop_cons_length. done.
  - rewrite pop_cons_length. done.
  - by apply Forall_pop.
  - by apply linked_pop.
  - intros _. rewrite Hsn. destruct tl as [|x tl]; [done|].
    rewrite heading_pop. by rewrite Hsn in Hhd.
  - assert (∃ t, last (snake s1) = Some t) as [t Ht].
    { rewrite Hs1, Hsn. destruct (last_is_Some (n :: hd :: nk :: tl)) as [_ H].
      by apply H. }
    unfold dropTail. rewrite Ht. cbn [occupied set_occupied set_snake].
    rewrite <-Hs1. apply cellKeys_pop_subset; [done|].
    rewrite Hocc1, Hs1, cellKeys_cons. set_solver.
  - done.
  - by rewrite Ho in *.
  - congruence.
Qed.

Lemma Body_fed pos t t' :
  isWallCollision s (vx n) (vy n) = false →
  Body (refed pos t' (fed f t (advance n (stepPre s)))).
Proof.
  intros Hwall.
  destruct (tick_advance Hwall) as (hd & nk & tl & Hsn & Htl & Hbd & Hlk & Hhd).
  destruct HB as [H1 H2 H3 H4 H5 H6 H7 H8 H9].
  destruct (stepPre_fields s) as (Hg & Hsn0 & Hocc & _ & Hsc & Hst & Hov & _).
  destruct (stepPre_more s) as (Hms & Hen & Hsh & _).
  destruct Hplay as [Hs Ho].
  set (s1 := advance n (stepPre s)).
  assert (snake s1 = n :: snake s) as Hs1 by (unfold s1; simpl; by rewrite Hsn0).
  assert (grid s1 = grid s ∧ score s1 = score s ∧ started s1 = started s
          ∧ gameOver s1 = gameOver s ∧ dir s1 = dir (stepPre s)
          ∧ occupied s1 = occupied s ∪ {[ keyOf n ]}
          ∧ stepMs s1 = stepMs s ∧ endedAt s1 = endedAt s
          ∧ shakeUntil s1 = shakeUntil s)
    as (Hg1 & Hsc1 & Hst1 & Hov1 & Hd1 & Hocc1 & Hms1 & Hen1 & Hsh1).
  { unfold s1. simpl. by rewrite Hg, Hsc, Hst, Hov, Hocc, Hms, Hen, Hsh. }
  set (s2 := fed f t s1).
  destruct (fed_fields f t s1) as (Hl2 & Hsc2 & Hg2).
  pose proof (fed_snake f t s1) as Hsn2.
  pose proof (fed_occupied f t s1) as Hocc2.
  destruct (fed_dirs f t s1) as (Hd2 & _).
  assert (gameOver s2 = gameOver s1 ∧ started s2 = started s1
          ∧ endedAt s2 = endedAt s1 ∧ shakeUntil s2 = shakeUntil s1)
    as (Hov2 & Hst2 & Hen2 & Hsh2).
  { unfold s2, fed. cbn [gameOver started endedAt shakeUntil set_eatWave].
    apply (growGridIfNeeded_more (set_score (score s1 + 1) s1)). }
  assert (stepMs s2 = (150 * (15 / inject_Z (grid s2)))%Q) as Hms2.
  { unfold s2, fed. cbn [stepMs grid set_eatWave].
    apply growGridIfNeeded_period. cbn [stepMs grid set_score].
    by rewrite Hms1, Hg1. }
  fold s2 in Hl2, Hsc2, Hg2, Hsn2, Hocc2, Hd2.
  clearbody s2 s1.
  split; cbn [refed snake score grid occupied stepMs gameOver started endedAt
              shakeUntil dir set_ateOnLastStep set_food set_foodFxAt];
    rewrite ?Hov2, ?Hst2, ?Hen2, ?Hsh2, ?Hov1, ?Hst1, ?Hen1, ?Hsh1.
  - rewrite Hl2, Hs1. simpl. lia.
  - rewrite Hl2, Hsc2, Hsc1, Hs1. simpl length. lia.
  - rewrite Hsn2, Hg2, Hs1, Hg1. destruct (growthDue s1); [|done].
    by apply onBoard_shift.
  - rewrite Hsn2, Hs1. destruct (growthDue s1); [|done]. by apply linked_shift.
  - intros _. rewrite Hsn2, Hd2, Hd1, Hs1.
    destruct (growthDue s1); [|done]. by rewrite heading_shift.
  - rewrite Hocc2. destruct (growthDue s1); [done|].
    rewrite Hsn2, Hocc1, Hs1, cellKeys_cons. set_solver.
  - done.
  - by rewrite Ho in *.
  - congruence.
Qed.

End Tick.

Lemma Body_step s h s' h' :
  Inv s → Body s → started s = true → gameOver s = false →
  step s h = Done tt s' h' → Body s'.
Proof.
  intros HI HB Hs Ho (n & f & Hn & Hf & Hcase)%step_inv.
  cbv zeta in Hcase. rewrite orb_true_iff, orb_false_iff in Hcase.
  destruct Hcase as [[_ ->]|[([Hw _] & _ & pos & ->)|([Hw _] & _ & ->)]].
  - by apply Body_collided.
  - by apply (Body_fed s n).
  - by apply (Body_moved s n).
Qed.

Lemma Body_resetState g st pos t fx :
  (st = false → g = 10) → 8 ≤ g →
  Body (resetState g st pos t fx).
Proof.
  intros Hst Hg. split; cbn [resetState snake score grid occupied stepMs
    gameOver started endedAt shakeUntil dir]; try done.
  - repeat constructor; simpl; lia.
  - intros Hf. split; [by apply Hst|done].
Qed.

Lemma Body_resetGame s h s' h' : resetGame s h = Done tt s' h' → Body s'.
Proof.
  rewrite resetGame_eq.
  destruct (spawnFoodLoop _ _ _) as [[pos rest]|]; [|done].
  intros [= <- _]. by apply Body_resetState.
Qed.

Lemma Body_loop ts s h s' h' :
  Inv s → Body s → loop ts s h = Done tt s' h' → Body s'.
Proof.
  intros HI HB. rewrite loop_eq.
  pose proof (stamped_sameBody ts s) as Hsame.
  assert (Body (stamped ts s)) as HB0 by by eapply Body_sameBody.
  destruct (stamped_core ts s) as (Hg & _ & Hd & Hq & _).
  assert (Inv (stamped ts s)) as HI0 by (apply (Inv_transfer s); auto).
  destruct (tickDue ts s) eqn:Hdue.
  - unfold tickDue in Hdue. cbv zeta in Hdue.
    apply andb_true_iff in Hdue as [Hdue _].
    apply andb_true_iff in Hdue as [Hst Hov]. apply negb_true_iff in Hov.
    unfold bind.
    destruct (step _ h) as [[] s1 h1| |] eqn:Hstep; [|done..].
    apply Body_step in Hstep; try done.
    + destruct (renderFrame_core s1 h1) as (s2 & h2 & -> & Hcore).
      intros [= <- _]. eapply Body_sameBody; [|done].
      by apply sameCore_sameBody.
    + apply (Inv_transfer (stamped ts s)); auto.
    + eapply Body_sameBody; [|exact HB0]. by repeat split.
  - destruct (renderFrame_core (stamped ts s) h) as (s2 & h2 & -> & Hcore).
    intros [= <- _]. eapply Body_sameBody; [|done].
    by apply sameCore_sameBody.
Qed.

Lemma Body_handle e s h s' h' :
  Inv s → Body s → handle e s h = Done tt s' h' → Body s'.
Proof.
  intros HI HB. destruct e as [k|b|dx dy|ts]; [| | |by apply Body_loop].
  all: match goal with
       | |- handle ?e _ _ = _ → _ =>
           pose proof (input_cases e s h) as Hin;
           destruct (startsRun e s);
           [rewrite Hin by done; apply Body_resetGame
           |destruct Hin as (nd & _ & ->); [done|];
            intros [= <- _]; eapply Body_sameBody; [|done];
            apply queueDir_sameBody]
       end.
Qed.

Lemma reachable_Body s : reachable s → Body s.
Proof.
  induction 1 as [h s h' Hboot|e s h s' h' Hs IH Hev].
  - revert Hboot. unfold bootstrap. rewrite resetToWelcome_eq.
    destruct (spawnFoodLoop _ _ _) as [[pos rest]|]; [|done].
    intros [= <- _]. by apply Body_resetState.
  - eapply Body_handle; [|done..]. by apply reachable_Inv.
Qed.

(** A state of a running game: the page was loaded and the space key
    pressed. *)
Lemma playing_reachable :
  reachable (resetState 8 true (mkVec 0 0) 1 (Some 2%Q)).
Proof.
  apply (reach_event (KeyDown " ") _ (host0 [0; 0]%Q) _
           (set_reads 3 (set_reads 2 (set_reads 1
              (set_randoms [] (host0 [0; 0]%Q)))))
           welcome_reachable).
  reflexivity.
Defined.

(** ** Score and length *)

(** X1: in every reachable state the snake has at least three segments
    and the score is the number of segments beyond the first three:
    every bite adds one to both and nothing else changes either. *)
Theorem score_counts_growth (s : State) :
  reachable s →
  (3 ≤ length (snake s))%nat
  ∧ score s = Z.of_nat (length (snake s)) - 3.
Proof. intros HB%reachable_Body. split; apply HB. Qed.

Lemma score_counts_growth_witness :
  let s := resetState 8 true (mkVec 0 0) 1 (Some 2%Q) in
  (3 ≤ length (snake s))%nat ∧ score s = Z.of_nat (length (snake s)) - 3.
Proof. exact (score_counts_growth _ playing_reachable). Defined.

(** ** The snake on the board *)

(** X2: in every reachable state each segment of the snake is a cell of
    the board and shares a side with the next segment. *)
Theorem snake_is_a_path_on_the_board (s : State) :
  reachable s →
  Forall (onBoard (grid s)) (snake s) ∧ linked (snake s).
Proof. intros HB%reachable_Body. split; apply HB. Qed.

Lemma snake_is_a_path_on_the_board_witness :
  let s := resetState 8 true (mkVec 0 0) 1 (Some 2%Q) in
  Forall (onBoard (grid s)) (snake s) ∧ linked (snake s).
Proof. exact (snake_is_a_path_on_the_board _ playing_reachable). Defined.

(** X3: the index never holds a key that is not the key of a segment,
    so in a reachable state [isSelfCollision] reports a collision only
    for a cell the snake covers. *)
Theorem self_collision_only_on_snake (s : State) (nx ny : Z) (willEat : bool) :
  reachable s →
  isSelfCollision s nx ny willEat = true →
  mkVec nx ny ∈ snake s.
Proof.
  intros HB%reachable_Body [Hin _]%isSelfCollision_true.
  apply (body_index _ HB), elem_of_cellKeys in Hin as (p & Hp & Hk).
  change (posKey nx ny) with (keyOf (mkVec nx ny)) in Hk.
  by apply (inj keyOf) in Hk as ->.
Qed.

Lemma self_collision_only_on_snake_witness :
  mkVec 2 3 ∈ snake (resetState 8 true (mkVec 0 0) 1 (Some 2%Q)).
Proof.
  apply (self_collision_only_on_snake _ 2 3 false playing_reachable).
  vm_compute. reflexivity.
Defined.

(** X4: while the game is not over the active direction is the step from
    the second segment to the head, and the head of the next tick is a
    neighbour of the head that is not the second segment: the snake
    cannot turn back into its own neck. *)
Theorem head_never_turns_into_neck (s : State) (hd nk : Vec) (tl : list Vec)
    (n : Vec) :
  reachable s → gameOver s = false →
  snake s = hd :: nk :: tl → candidate s = Some n →
  mkVec (vx hd - vx nk) (vy hd - vy nk) = dir s
  ∧ adjacent n hd ∧ n ≠ nk.
Proof.
  intros Hr Hov Hsn Hn.
  pose proof (reachable_Body _ Hr) as HB.
  pose proof (reachable_Inv _ Hr) as HI.
  pose proof (body_heading _ HB Hov) as Hhd. rewrite Hsn in Hhd.
  injection Hhd as Hhd. split; [done|].
  destruct (candidate_head s n Hn) as (hd' & tl' & Hsn' & ->).
  rewrite Hsn in Hsn'. injection Hsn' as <- <-.
  pose proof (inv_units _ (Inv_stepPre s HI)) as Hunit.
  apply Forall_cons in Hunit as [Hunit _].
  split; [by apply unitDir_adjacent|].
  destruct (stepPre_fields s) as (_ & _ & _ & _ & _ & _ & _ & Hd & _).
  pose proof (inv_units _ HI) as Hu. apply Forall_cons in Hu as [Hu _].
  pose proof (consume_no_reversal s (inv_no_reverse _ HI)
                (unitDir_not_self_reverse _ Hu)) as Hrev.
  rewrite <-Hd, <-Hhd in Hrev. unfold reverses in Hrev. simpl in Hrev.
  intros Heq. destruct nk as [kx ky]. injection Heq as Hx Hy. simpl in Hrev.
  apply andb_false_iff in Hrev as [Hrev|Hrev]; apply Z.eqb_neq in Hrev; lia.
Qed.

Lemma head_never_turns_into_neck_witness :
  mkVec (3 - 2) (3 - 3) = mkVec 1 0
  ∧ adjacent (mkVec 4 3) (mkVec 3 3) ∧ mkVec 4 3 ≠ mkVec 2 3.
Proof.
  exact (head_never_turns_into_neck
           (resetState 8 true (mkVec 0 0) 1 (Some 2%Q))
           (mkVec 3 3) (mkVec 2 3) [mkVec 1 3] (mkVec 4 3)
           playing_reachable eq_refl eq_refl eq_refl).
Defined.

(** ** The tick period *)

(** X5: in every reachable state the tick period is the one computed
    from the side of the grid the state has, 150 * (15 / grid) ms: it
    follows the grid as it grows, from 281.25 ms on the smallest grid
    down to 62.5 ms on the largest. *)
Theorem tick_period_follows_grid (s : State) :
  reachable s →
  stepMs s = (150 * (15 / inject_Z (grid s)))%Q
  ∧ (125 # 2 <= stepMs s)%Q ∧ (stepMs s <= 1125 # 4)%Q.
Proof.
  intros Hr.
  pose proof (body_period _ (reachable_Body _ Hr)) as Hms.
  split; [done|]. rewrite Hms.
  pose proof (inv_grid_bounds _ (reachable_Inv _ Hr)) as Hg.
  destruct (grid s) as [|g|g]; try lia.
  unfold Qeq, Qle, Qdiv, Qinv, Qmult, inject_Z. simpl. lia.
Qed.

Lemma tick_period_follows_grid_witness :
  let s := resetState 8 true (mkVec 0 0) 1 (Some 2%Q) in
  stepMs s = (150 * (15 / inject_Z (grid s)))%Q
  ∧ (125 # 2 <= stepMs s)%Q ∧ (stepMs s <= 1125 # 4)%Q.
Proof. exact (tick_period_follows_grid _ playing_reachable). Defined.

(** ** The end of a run *)

(** X6: a reachable state is over exactly when it carries the time of
    its collision; the shake then ends [SHAKE_MS] after that time, and
    a game that was never started is never over. *)
Theorem game_over_is_stamped (s : State) :
  reachable s →
  (gameOver s = true ↔ is_Some (endedAt s))
  ∧ (gameOver s = true → started s = true)
  ∧ shakeUntil s = (λ t, (t + SHAKE_MS)%Q) <$> endedAt s.
Proof.
  intros HB%reachable_Body. pose proof (body_over _ HB) as Hov.
  destruct (gameOver s).
  - destruct Hov as (Hst & t & -> & ->). split; [|done]. split; eauto.
  - destruct Hov as [-> ->]. split; [|done]. split; [done|].
    by intros [? ?].
Qed.

Lemma game_over_is_stamped_witness :
  let s := resetState 8 true (mkVec 0 0) 1 (Some 2%Q) in
  (gameOver s = true ↔ is_Some (endedAt s))
  ∧ (gameOver s = true → started s = true)
  ∧ shakeUntil s = (λ t, (t + SHAKE_MS)%Q) <$> endedAt s.
Proof. exact (game_over_is_stamped _ playing_reachable). Defined.

(** X7: before the first start nothing moves: every reachable state of
    the Welcome phase has the initial snake on the grid of side 10,
    heading right, with score 0. *)
Theorem welcome_is_static (s : State) :
  reachable s → phase s = Welcome →
  grid s = 10 ∧ snake s = snake0 ∧ score s = 0 ∧ dir s = mkVec 1 0.
Proof.
  intros HB%reachable_Body Hph. apply (body_welcome _ HB).
  unfold phase in Hph. destruct (started s); [|done].
  simpl in Hph. by destruct (gameOver s).
Qed.

Lemma welcome_is_static_witness :
  let s := resetState 10 false (mkVec 0 0) 1 None in
  grid s = 10 ∧ snake s = snake0 ∧ score s = 0 ∧ dir s = mkVec 1 0.
Proof. exact (welcome_is_static _ welcome_reachable eq_refl). Defined.

(** ** Frames outside a run *)

(** X8: a frame in the Welcome or the GameOver phase runs no tick:
    whenever [loop] returns, grid, tick period, snake, direction,
    queue, score, food, index, end of the run and phase are what they
    were. Whether it returns is up to the page and the storage, which
    the frame scheduler of the embedding does not model. *)
Theorem idle_frame_keeps_the_game (s s' : State) (h h' : Host) (ts : Q) :
  phase s ≠ Playing →
  loop ts s h = Done tt s' h' →
  sameBody s s' ∧ queuedDirs s' = queuedDirs s ∧ phase s' = phase s.
Proof.
  intros Hph. rewrite loop_eq.
  assert (tickDue ts s = false) as ->.
  { unfold tickDue. cbv zeta.
    destruct (stamped_core ts s) as (_ & _ & _ & _ & _ & _ & _ & -> & ->).
    rewrite phase_Playing in Hph.
    destruct (started s), (gameOver s); naive_solver. }
  destruct (renderFrame_core (stamped ts s) h) as (s2 & h2 & -> & Hcore).
  intros [= <- _].
  pose proof (stamped_sameBody ts s) as H1.
  pose proof (sameCore_sameBody _ _ Hcore) as H2.
  pose proof (sameBody_trans _ _ _ H1 H2) as H3.
  split; [done|]. split.
  - destruct Hcore as (_ & _ & _ & _ & -> & _).
    by destruct (stamped_core ts s) as (_ & _ & _ & -> & _).
  - destruct H3 as (_ & _ & _ & _ & _ & Ho & _ & Hst & _).
    unfold phase. by rewrite Ho, Hst.
Qed.

(** The first frame on the welcome screen of a page with a menu: it
    stamps the clock and fills in the menu. *)
Lemma idle_frame_keeps_the_game_witness :
  let s := resetState 10 false (mkVec 0 0) 1 None in
  let s' := set_welcomePopulated true (set_lastStepAt 1000 s) in
  loop 1000 s (host0 []) = Done tt s' (host0 [])
  ∧ sameBody s s' ∧ queuedDirs s' = queuedDirs s ∧ phase s' = phase s.
Proof.
  intros s s'.
  assert (loop 1000 s (host0 []) = Done tt s' (host0 [])) as Hrun
    by (vm_compute; reflexivity).
  split; [exact Hrun|].
  apply (idle_frame_keeps_the_game s s' (host0 []) (host0 []) 1000);
    [vm_compute; discriminate|exact Hrun].
Defined.

(** ** The food on the board *)

Lemma renderFrame_randoms s h s' h' :
  renderFrame s h = Done tt s' h' → randoms h' = randoms h.
Proof.
  unfold renderFrame, renderEatWave, setGameTransform,
    populateWelcomeIfNeeded, populateMenuIfNeeded, bind, gets, now, modify,
    ret.
  repeat case_match; simplify_eq; intros [= _ <-]; done.
Qed.

Lemma step_fair s h s' h' :
  Inv s → fairHost h → foodOnBoard s →
  step s h = Done tt s' h' → fairHost h' ∧ foodOnBoard s'.
Proof.
  intros HI Hfair (f & Hf & Hon). rewrite step_eq, Hf.
  destruct (candidate s) as [n|]; [|done].
  destruct (stepPre_fields s) as (Hg & _ & _ & Hfd & _).
  destruct (advance_fields n (stepPre s)) as (_ & _ & Hga & _).
  assert (food (advance n (stepPre s)) = food (stepPre s)) as Hfa by done.
  destruct (_ || _).
  { intros [= <- <-]. split; [done|]. exists f.
    destruct (collided_frame (clock h (reads h)) s)
      as (_ & _ & _ & _ & _ & _ & -> & ->). done. }
  destruct (sameVec n f).
  - cbv zeta.
    destruct (fed_fields f (clock h (reads h)) (advance n (stepPre s)))
      as (_ & _ & Hg3).
    rewrite Hga, Hg in Hg3.
    generalize dependent (fed f (clock h (reads h)) (advance n (stepPre s))).
    intros s3 Hg3.
    assert (0 < grid s3 < 2 ^ 31) as Hb.
    { pose proof (inv_grid_bounds _ HI) as Hb. rewrite Hg3.
      destruct (growthDue _); lia. }
    destruct (spawnFoodLoop _ _ _) as [[pos rest]|] eqn:Hloop; [|done].
    intros [= <- <-].
    destruct (spawnFoodLoop_range _ _ _ _ _ Hfair Hb Hloop) as [Hpos Hrest].
    split; [done|]. by exists pos.
  - intros [= <- <-]. split; [done|]. exists f.
    destruct (dropTail_frame (advance n (stepPre s)))
      as (-> & _ & _ & _ & -> & _).
    by rewrite Hga, Hg, Hfa, Hfd.
Qed.

Lemma resetGame_fair s h s' h' :
  fairHost h → resetGame s h = Done tt s' h' →
  fairHost h' ∧ foodOnBoard s'.
Proof.
  intros Hfair. rewrite resetGame_eq.
  destruct (spawnFoodLoop _ _ _) as [[pos rest]|] eqn:Hloop; [|done].
  intros [= <- <-].
  assert (0 < 8 < 2 ^ 31) as Hb by lia.
  destruct (spawnFoodLoop_range _ _ _ _ _ Hfair Hb Hloop) as [Hpos Hrest].
  split; [done|]. by exists pos.
Qed.

Lemma handle_fair e s h s' h' :
  Inv s → fairHost h → foodOnBoard s →
  handle e s h = Done tt s' h' → fairHost h' ∧ foodOnBoard s'.
Proof.
  intros HI Hfair Hfood. destruct e as [k|b|dx dy|ts].
  1-3: match goal with
       | |- handle ?e _ _ = _ → _ =>
           pose proof (input_cases e s h) as Hin;
           destruct (startsRun e s);
           [rewrite Hin by done; by apply resetGame_fair
           |destruct Hin as (nd & _ & ->); [done|];
            intros [= <- <-]; split; [done|];
            destruct Hfood as (f & Hf & Hon);
            destruct (queueDir_sameBody nd s)
              as (Hg & _ & _ & _ & _ & _ & _ & _ & _ & _ & Hfd);
            exists f; by rewrite Hg, Hfd]
       end.
  simpl. rewrite loop_eq.
  destruct (stamped_sameBody ts s)
    as (Hg & _ & _ & _ & _ & _ & _ & _ & _ & _ & Hfd).
  destruct (stamped_core ts s) as (_ & _ & Hd & Hq & _).
  assert (foodOnBoard (stamped ts s)) as Hfood0.
  { destruct Hfood as (f & Hf & Hon). exists f. by rewrite Hg, Hfd. }
  assert (Inv (stamped ts s)) as HI0 by (apply (Inv_transfer s); auto).
  assert (∀ s1 h1 s2 h2, fairHost h1 → foodOnBoard s1 →
            renderFrame s1 h1 = Done tt s2 h2 →
            fairHost h2 ∧ foodOnBoard s2) as Hrender.
  { intros s1 h1 s2 h2 Hf1 (f & Hf & Hon) Hr.
    pose proof (renderFrame_randoms _ _ _ _ Hr) as Hrand.
    destruct (renderFrame_core s1 h1) as (s2' & h2' & Hr' & Hcore).
    rewrite Hr in Hr'. injection Hr' as <- <-.
    destruct Hcore as (Hg2 & _ & _ & _ & _ & Hfd2 & _).
    split; [unfold fairHost; by rewrite Hrand|].
    exists f. by rewrite Hg2, Hfd2. }
  destruct (tickDue ts s).
  - unfold bind.
    destruct (step _ h) as [[] s1 h1| |] eqn:Hstep; [|done..].
    assert (Inv (set_lastStepAt ts (stamped ts s))) as HI1
      by (apply (Inv_transfer (stamped ts s)); auto).
    assert (foodOnBoard (set_lastStepAt ts (stamped ts s))) as Hfood1
      by (destruct Hfood0 as (f & Hf & Hon); by exists f).
    destruct (step_fair _ _ _ _ HI1 Hfair Hfood1 Hstep) as [Hf2 Hfood2].
    by apply Hrender.
  - by apply Hrender.
Qed.

Lemma run_fair es s h s' h' :
  Inv s → fairHost h → foodOnBoard s →
  run es s h = Done tt s' h' → foodOnBoard s'.
Proof.
  revert s h. induction es as [|e es IH]; intros s h HI Hfair Hfood; simpl.
  - unfold ret. by intros [= <- _].
  - unfold bind. destruct (handle e s h) as [[] s1 h1| |] eqn:He; [|done..].
    destruct (handle_fair _ _ _ _ _ HI Hfair Hfood He) as [Hf1 Hfood1].
    apply IH; [by eapply Inv_handle|done..].
Qed.

(** X9: when every draw of [Math.random()] is in [[0, 1)], the food of
    every state of a session is a cell of the board, whatever the
    events and however the grid grew. *)
Theorem food_stays_on_the_board (es : list Event) (draws : list Q)
    (s : State) (h : Host) :
  Forall unitDraw draws →
  session es draws = Done tt s h →
  ∃ f, food s = Some f ∧ onBoard (grid s) f.
Proof.
  intros Hdraws. unfold session, bind.
  destruct (bootstrap state0 (host0 draws)) as [[] s0 h0| |] eqn:Hboot;
    [|done..].
  pose proof (Inv_bootstrap _ _ _ _ Hboot) as HI.
  revert Hboot. unfold bootstrap. rewrite resetToWelcome_eq.
  destruct (spawnFoodLoop _ _ _) as [[pos rest]|] eqn:Hloop; [|done].
  intros [= <- <-].
  assert (0 < 10 < 2 ^ 31) as Hb by lia.
  destruct (spawnFoodLoop_range _ _ _ _ _ Hdraws Hb Hloop) as [Hpos Hrest].
  apply run_fair; [done|done|by exists pos].
Qed.

Lemma food_stays_on_the_board_witness :
  ∃ f, food (resetState 10 false (mkVec 0 0) 1 None) = Some f
       ∧ onBoard (grid (resetState 10 false (mkVec 0 0) 1 None)) f.
Proof.
  apply (food_stays_on_the_board [] [0; 0]%Q _
           (set_reads 2 (set_reads 1 (set_randoms [] (host0 [0; 0]%Q))))).
  - repeat constructor; done.
  - reflexivity.
Defined.

Lemma spawnFoodLoop_full g (occ : gset string) draws :
  0 < g < 2 ^ 31 →
  (∀ x y, 0 ≤ x < g → 0 ≤ y < g → posKey x y ∈ occ) →
  Forall unitDraw draws →
  spawnFoodLoop g occ draws = None.
Proof.
  intros Hg Hfull.
  induction draws as [draws IH] using (induction_ltof1 _ (@length Q)).
  unfold ltof in IH. intros Hdraws.
  destruct draws as [|rx [|ry tl]]; simpl; try done.
  apply Forall_cons in Hdraws as [Hrx Hdraws].
  apply Forall_cons in Hdraws as [Hry Hdraws].
  rewrite bool_decide_eq_true_2
    by (apply Hfull; by apply bitor0_range).
  apply IH; [simpl; lia|done].
Qed.

(** X10: on a full board [spawnFood] never returns. When the index holds
    the key of every cell of the grid, no sequence of draws from
    [[0, 1)], however long, ends the loop: the call is still in its
    [while (true)] when the draws are used up. *)
Theorem spawnFood_spins_on_a_full_board (s : State) (h : Host) :
  0 < grid s < 2 ^ 31 →
  (∀ x y, 0 ≤ x < grid s → 0 ≤ y < grid s → posKey x y ∈ occupied s) →
  Forall unitDraw (randoms h) →
  spawnFood s h = Spinning.
Proof.
  intros Hg Hfull Hdraws. unfold spawnFood.
  by rewrite spawnFoodLoop_full.
Qed.

Lemma spawnFood_spins_on_a_full_board_witness :
  spawnFood (set_occupied (cellKeys [mkVec 0 0]) (set_grid 1 state0))
    (host0 [0; 1 # 2; 1 # 3; 0]%Q)
  = Spinning.
Proof.
  apply spawnFood_spins_on_a_full_board.
  - simpl. lia.
  - intros x y Hx Hy. simpl in Hx, Hy.
    assert (x = 0) as -> by lia. assert (y = 0) as -> by lia.
    apply (bool_decide_unpack _). vm_compute. exact I.
  - repeat constructor; done.
Defined.

(** ** Easing *)

Lemma cube_eq (q : Q) : (q ^ 3 == q * q * q)%Q.
Proof. simpl. ring. Qed.

Lemma clamp01_cases (v : Q) :
  ((v <= 0 ∧ clamp01 v == 0) ∨ (0 <= v ∧ v <= 1 ∧ clamp01 v == v)
  ∨ (1 <= v ∧ clamp01 v == 1))%Q.
Proof.
  unfold clamp01.
  destruct (Q.min_spec 1 v) as [[H1 E1]|[H1 E1]];
  destruct (Q.max_spec 0 (Qmin 1 v)) as [[H2 E2]|[H2 E2]];
  rewrite E1 in *; rewrite E2; lra.
Qed.

Lemma cube_mono (x y : Q) : (0 <= x → x <= y → x * x * x <= y * y * y)%Q.
Proof.
  intros Hx Hxy.
  assert (0 <= y * y + x * y + x * x)%Q as H1 by nra.
  assert (0 <= (y - x) * (y * y + x * y + x * x))%Q as H2
    by (apply Qmult_le_0_compat; lra).
  lra.
Qed.

Lemma easeOutCubic_mono (a b : Q) :
  (a <= b → b <= 1 → easeOutCubic a <= easeOutCubic b)%Q.
Proof.
  intros Hab Hb. unfold easeOutCubic. rewrite !cube_eq.
  pose proof (cube_mono (1 - b) (1 - a)) as H. lra.
Qed.

Lemma easeOutCubic_ends : (easeOutCubic 0 == 0 ∧ easeOutCubic 1 == 1)%Q.
Proof. by vm_compute. Qed.

(** X11: progress of an effect, eased: whatever the elapsed fraction [v],
    [easeOutCubic (clamp01 v)] lies in [[0, 1]], is 0 up to [v = 0] and 1
    from [v = 1] on, and never decreases as [v] grows. *)
Theorem eased_progress (v w : Q) :
  (0 <= easeOutCubic (clamp01 v))%Q ∧ (easeOutCubic (clamp01 v) <= 1)%Q
  ∧ ((v <= 0)%Q → (easeOutCubic (clamp01 v) == 0)%Q)
  ∧ ((1 <= v)%Q → (easeOutCubic (clamp01 v) == 1)%Q)
  ∧ ((v <= w)%Q → (easeOutCubic (clamp01 v) <= easeOutCubic (clamp01 w))%Q).
Proof.
  destruct easeOutCubic_ends as [E0 E1].
  assert (0 <= clamp01 v ∧ clamp01 v <= 1)%Q as [Hv0 Hv1]
    by (destruct (clamp01_cases v) as [[? ?]|[(? & ? & ?)|[? ?]]]; lra).
  assert (clamp01 w <= 1)%Q as Hw1
    by (destruct (clamp01_cases w) as [[? ?]|[(? & ? & ?)|[? ?]]]; lra).
  split; [rewrite <-E0; apply easeOutCubic_mono; lra|].
  split; [rewrite <-E1; apply easeOutCubic_mono; lra|].
  split; [|split].
  - intros Hv.
    assert (clamp01 v == 0)%Q as Ev
      by (destruct (clamp01_cases v) as [[? ?]|[(? & ? & ?)|[? ?]]]; lra).
    unfold easeOutCubic. rewrite Ev. by vm_compute.
  - intros Hv.
    assert (clamp01 v == 1)%Q as Ev
      by (destruct (clamp01_cases v) as [[? ?]|[(? & ? & ?)|[? ?]]]; lra).
    unfold easeOutCubic. rewrite Ev. by vm_compute.
  - intros Hvw. apply easeOutCubic_mono; [|done].
    destruct (clamp01_cases v) as [[? ?]|[(? & ? & ?)|[? ?]]];
    destruct (clamp01_cases w) as [[? ?]|[(? & ? & ?)|[? ?]]]; lra.
Qed.

(** ** Formatting a duration *)

Lemma pretty_N_go_lacks c x s :
  (∀ d, pretty_N_char d ≠ c) → lacks c s → lacks c (pretty_N_go x s).
Proof.
  intros Hc. revert s. induction (N.lt_wf_0 x) as [x _ IH]. intros s Hs.
  destruct (decide (x = 0)%N) as [->|Hx].
  - by rewrite pretty_N_go_0.
  - rewrite pretty_N_go_step by lia.
    apply IH; [apply N.div_lt; lia|]. by split.
Qed.

Lemma pretty_Z_lacks c (x : Z) :
  (∀ d, pretty_N_char d ≠ c) → 0 ≤ x → lacks c (pretty x).
Proof.
  intros Hc Hx. destruct x as [|p|p]; [| |lia].
  - split; [|done]. apply (Hc 0%N).
  - unfold pretty, pretty_Z, pretty, pretty_positive, pretty, pretty_N.
    case_decide; [done|]. by apply pretty_N_go_lacks.
Qed.

Lemma fill_lacks c n c' s : c' ≠ c → lacks c s → lacks c (fill n c' s).
Proof. intros Hc Hs. induction n as [|n IH]; simpl; auto. Qed.

Lemma split_at c a a' b b' :
  lacks c a → lacks c a' →
  a +:+ String c b = a' +:+ String c b' → a = a' ∧ b = b'.
Proof.
  revert a'. induction a as [|x a IH]; intros [|x' a'] Ha Ha' Heq;
    simpl in *.
  - by injection Heq.
  - injection Heq as Hc _. destruct Ha' as [Hc' _]. by rewrite Hc in Hc'.
  - injection Heq as Hc _. destruct Ha as [Hc' _]. by rewrite Hc in Hc'.
  - injection Heq as -> Heq. destruct Ha as [_ Ha], Ha' as [_ Ha'].
    destruct (IH a' Ha Ha' Heq) as [-> ->]. done.
Qed.

(** The numeral of a positive number starts with a digit other than 0,
    and has a second digit from 10 on. *)
Lemma pretty_N_go_first x s :
  (0 < x)%N →
  ∃ c r, pretty_N_go x s = String c r ∧ c ≠ "0"%char
         ∧ ((10 ≤ x)%N → r ≠ EmptyString).
Proof.
  revert s. induction (N.lt_wf_0 x) as [x _ IH]. intros s Hx.
  rewrite pretty_N_go_step by done.
  destruct (decide (x < 10)%N) as [Hlt|Hge].
  - rewrite N.div_small, pretty_N_go_0 by done.
    rewrite N.mod_small by done.
    eexists _, _. split; [done|]. split; [|lia].
    intros Hzero. change "0"%char with (pretty_N_char 0) in Hzero.
    apply pretty_N_char_inj in Hzero; lia.
  - destruct (IH (x `div` 10)%N) with (s := String (pretty_N_char (x `mod` 10)) s)
      as (c & r & Heq & Hc & Hr).
    + apply N.div_lt; lia.
    + apply N.div_str_pos. lia.
    + exists c, r. split; [done|]. split; [done|]. intros _.
      destruct (decide (10 ≤ x `div` 10)%N) as [H10|H10]; [auto|].
      assert (x `div` 10 < 10)%N as Hsmall by lia.
      rewrite pretty_N_go_step in Heq by (apply N.div_str_pos; lia).
      rewrite (N.div_small (x `div` 10)), pretty_N_go_0 in Heq by done.
      injection Heq as _ <-. done.
Qed.

Lemma pretty_Z_first (x : Z) :
  0 < x →
  ∃ c r, pretty x = String c r ∧ c ≠ "0"%char ∧ (10 ≤ x → r ≠ EmptyString).
Proof.
  intros Hx. destruct x as [|p|p]; try lia.
  unfold pretty, pretty_Z, pretty, pretty_positive, pretty, pretty_N.
  case_decide; [done|].
  destruct (pretty_N_go_first (N.pos p) "") as (c & r & -> & Hc & Hr); [lia|].
  exists c, r. split; [done|]. split; [done|]. intros H10. apply Hr. lia.
Qed.

Lemma pretty_Z_digit (x : Z) :
  0 ≤ x < 10 → ∃ c, pretty x = String c EmptyString.
Proof.
  intros Hx. destruct x as [|p|p]; [by eexists| |lia].
  unfold pretty, pretty_Z, pretty, pretty_positive, pretty, pretty_N.
  case_decide; [done|].
  rewrite pretty_N_go_step, N.div_small, pretty_N_go_0 by lia. eauto.
Qed.

(** Padding a numeral to two digits. *)
Lemma pad2_cases (x : Z) :
  0 ≤ x →
  (x < 10 ∧ padStart 2 "0" (pretty x) = String "0" (pretty x))
  ∨ (10 ≤ x ∧ padStart 2 "0" (pretty x) = pretty x
     ∧ ∃ c r, pretty x = String c r ∧ c ≠ "0"%char).
Proof.
  intros Hx. destruct (decide (x < 10)) as [Hlt|Hge].
  - left. split; [done|].
    destruct (pretty_Z_digit x) as [c ->]; [lia|]. done.
  - right. split; [lia|].
    destruct (pretty_Z_first x) as (c & r & Heq & Hc & Hr); [lia|].
    specialize (Hr ltac:(lia)). split; [|eauto].
    rewrite Heq. destruct r; done.
Qed.

Lemma pad2_inj (x y : Z) :
  0 ≤ x → 0 ≤ y →
  padStart 2 "0" (pretty x) = padStart 2 "0" (pretty y) → x = y.
Proof.
  intros Hx Hy.
  destruct (pad2_cases x Hx) as [[_ ->]|(_ & -> & cx & rx & Ex & Hcx)],
           (pad2_cases y Hy) as [[_ ->]|(_ & -> & cy & ry & Ey & Hcy)].
  - intros [= Heq]. by apply (inj pretty).
  - rewrite Ey. by intros [= <- _].
  - rewrite Ex. by intros [= -> _].
  - apply (inj pretty).
Qed.

Lemma pad2_lacks c (x : Z) :
  (∀ d, pretty_N_char d ≠ c) → 0 ≤ x → lacks c (padStart 2 "0" (pretty x)).
Proof.
  intros Hc Hx. apply fill_lacks; [apply (Hc 0%N)|by apply pretty_Z_lacks].
Qed.

Lemma pretty_N_char_colon x : pretty_N_char x ≠ ":"%char.
Proof. unfold pretty_N_char. repeat case_match; discriminate. Qed.

Lemma pretty_N_char_dot x : pretty_N_char x ≠ "."%char.
Proof. unfold pretty_N_char. repeat case_match; discriminate. Qed.

(** The three fields of [formatTime] are the digits of the time in
    hundredths of a second. *)
Lemma time_fields (t : Z) :
  0 ≤ t →
  t / 60000 = (t / 10) / 6000
  ∧ (t mod 60000) / 1000 = ((t / 10) mod 6000) / 100
  ∧ (t mod 1000) / 10 = (t / 10) mod 100
  ∧ t / 10 = 6000 * (t / 60000) + 100 * ((t mod 60000) / 1000)
             + (t mod 1000) / 10.
Proof. intros Ht. repeat split; Z.div_mod_to_equations; lia. Qed.

(** The text of a time determines its three fields. *)
Lemma time_text_inj (m s c m' s' c' : Z) :
  0 ≤ m → 0 ≤ s → 0 ≤ c → 0 ≤ m' → 0 ≤ s' → 0 ≤ c' →
  padStart 2 "0" (pretty m) +:+ ":" +:+ padStart 2 "0" (pretty s)
    +:+ "." +:+ padStart 2 "0" (pretty c)
  = padStart 2 "0" (pretty m') +:+ ":" +:+ padStart 2 "0" (pretty s')
    +:+ "." +:+ padStart 2 "0" (pretty c') →
  m = m' ∧ s = s' ∧ c = c'.
Proof.
  intros Hm Hs Hc Hm' Hs' Hc' Heq.
  apply split_at in Heq as [Em Heq];
    [|apply pad2_lacks; [apply pretty_N_char_colon|done]..].
  apply split_at in Heq as [Es Ec];
    [|apply pad2_lacks; [apply pretty_N_char_dot|done]..].
  auto using pad2_inj.
Qed.

Lemma Qfloor_lt_iff (v : Q) (n : Z) : Qfloor v < n ↔ (v < inject_Z n)%Q.
Proof.
  split.
  - intros Hlt. eapply Qlt_le_trans; [apply Qlt_floor|].
    rewrite <-Zle_Qle. lia.
  - intros Hlt. rewrite Zlt_Qlt. eapply Qle_lt_trans; [apply Qfloor_le|done].
Qed.

(** X12: two durations are printed alike exactly when, rounded to the
    millisecond and not below zero, they agree to the hundredth of a
    second: the text keeps the minutes, seconds and hundredths and
    nothing else. *)
Theorem formatTime_identifies_centiseconds (a b : Q) :
  formatTime a = formatTime b ↔ centiseconds a = centiseconds b.
Proof.
  unfold formatTime, centiseconds. cbv zeta.
  set (ta := Z.max 0 (mathRound a)). set (tb := Z.max 0 (mathRound b)).
  assert (0 ≤ ta) as Ha by lia. assert (0 ≤ tb) as Hb by lia.
  clearbody ta tb.
  destruct (time_fields ta Ha) as (Ea1 & Ea2 & Ea3 & Ea4).
  destruct (time_fields tb Hb) as (Eb1 & Eb2 & Eb3 & Eb4).
  split.
  - intros (Hm & Hs & Hc)%time_text_inj;
      [|Z.div_mod_to_equations; lia..].
    rewrite Ea4, Eb4. congruence.
  - intros Heq. rewrite Ea1, Ea2, Ea3, Eb1, Eb2, Eb3. by rewrite Heq.
Qed.

(** X13: a duration prints as 00:00.00 exactly when it is below 9.5 ms;
    negative durations are among them. *)
Theorem formatTime_zero (ms : Q) :
  formatTime ms = "00:00.00" ↔ (ms < 19 # 2)%Q.
Proof.
  assert (mathRound ms < 10 ↔ (ms < 19 # 2)%Q) as <-.
  { unfold mathRound. rewrite Qfloor_lt_iff.
    change (inject_Z 10) with 10%Q. split; intros H; lra. }
  unfold formatTime. cbv zeta.
  set (t := Z.max 0 (mathRound ms)).
  assert (0 ≤ t ∧ (t < 10 ↔ mathRound ms < 10)) as [Ht <-] by lia.
  clearbody t. split.
  - change "00:00.00"
      with (padStart 2 "0" (pretty 0) +:+ ":" +:+ padStart 2 "0" (pretty 0)
            +:+ "." +:+ padStart 2 "0" (pretty 0)).
    intros (Hm & Hs & Hc)%time_text_inj;
      [|Z.div_mod_to_equations; lia..].
    Z.div_mod_to_equations. lia.
  - intros Hlt.
    assert (t / 60000 = 0 ∧ t `mod` 60000 / 1000 = 0 ∧ t `mod` 1000 / 10 = 0)
      as (-> & -> & ->) by (Z.div_mod_to_equations; lia).
    reflexivity.
Qed.

(** ** The highscore table *)

Lemma Qltb_lt (a b : Q) : Qltb a b = true ↔ (a < b)%Q.
Proof.
  unfold Qltb. rewrite negb_true_iff, <-not_true_iff_false, Qle_bool_iff.
  split; [apply Qnot_le_lt|apply Qlt_not_le].
Qed.

Lemma compareEntries_ranks a b :
  (compareEntries a b <= 0)%Q ↔ ranksNoLower a b.
Proof.
  unfold compareEntries, ranksNoLower.
  destruct (entry_score b =? entry_score a) eqn:Heq; simpl.
  - apply Z.eqb_eq in Heq. split; [intros H; right; split; [done|lra]|].
    intros [?|[_ ?]]; [lia|lra].
  - apply Z.eqb_neq in Heq. rewrite <-(Zle_Qle _ 0).
    split; [intros H; left; lia|]. intros [?|[? _]]; lia.
Qed.

Lemma compareEntries_not_before a b :
  Qltb (compareEntries a b) 0 = false ↔ ranksNoLower b a.
Proof.
  rewrite <-not_true_iff_false, Qltb_lt, <-compareEntries_ranks.
  unfold compareEntries.
  rewrite (Z.eqb_sym (entry_score a) (entry_score b)).
  destruct (entry_score b =? entry_score a); simpl.
  - split; [intros H%Qnot_lt_le; lra|intros H1 H2; lra].
  - rewrite <-(Zle_Qle _ 0), <-(Zlt_Qlt _ 0). lia.
Qed.

Global Instance ranksNoLower_trans : Transitive ranksNoLower.
Proof.
  intros a b c. unfold ranksNoLower.
  intros [?|[? ?]] [?|[? ?]]; [left; lia..|].
  right. split; [lia|lra].
Qed.

Lemma ranksNoLower_total a b : ranksNoLower a b ∨ ranksNoLower b a.
Proof.
  unfold ranksNoLower.
  destruct (Z.lt_trichotomy (entry_score a) (entry_score b)) as [?|[?|?]];
    [auto..| |auto].
  destruct (Qlt_le_dec (entry_timeMs b) (entry_timeMs a)) as [?%Qlt_le_weak|?];
    auto.
Qed.

Lemma insertSorted_perm cmp x l : insertSorted cmp x l ≡ₚ x :: l.
Proof.
  induction l as [|y l IH]; simpl; [done|].
  destruct (Qltb _ _); [done|]. rewrite IH. apply Permutation_swap.
Qed.

Lemma sortEntries_snoc cmp l x :
  sortEntries cmp (l ++ [x]) = insertSorted cmp x (sortEntries cmp l).
Proof. unfold sortEntries. by rewrite foldl_app. Qed.

Lemma sortEntries_perm cmp l : sortEntries cmp l ≡ₚ l.
Proof.
  induction l as [|x l IH] using rev_ind; [done|].
  rewrite sortEntries_snoc, insertSorted_perm, IH.
  by rewrite Permutation_cons_append.
Qed.

Lemma insertSorted_sorted x l :
  StronglySorted ranksNoLower l →
  StronglySorted ranksNoLower (insertSorted compareEntries x l).
Proof.
  induction l as [|y l IH]; simpl; intros Hl.
  - repeat constructor.
  - apply StronglySorted_inv in Hl as [Hl Hy].
    destruct (Qltb (compareEntries x y) 0) eqn:Hxy.
    + apply Qltb_lt, Qlt_le_weak, compareEntries_ranks in Hxy.
      constructor; [by constructor|].
      constructor; [done|].
      eapply Forall_impl; [done|]. intros z Hz. by etrans.
    + apply compareEntries_not_before in Hxy.
      constructor; [by apply IH|].
      rewrite insertSorted_perm. by constructor.
Qed.

Lemma sortEntries_sorted l :
  StronglySorted ranksNoLower (sortEntries compareEntries l).
Proof.
  induction l as [|x l IH] using rev_ind; [constructor|].
  rewrite sortEntries_snoc. by apply insertSorted_sorted.
Qed.

(** An element that no element of the list goes behind is inserted at
    the end. *)
Lemma insertSorted_last x l :
  Forall (λ y, ranksNoLower y x) l →
  insertSorted compareEntries x l = l ++ [x].
Proof.
  induction 1 as [|y l Hy _ IH]; simpl; [done|].
  apply compareEntries_not_before in Hy. by rewrite Hy, IH.
Qed.

(** Sorting a sorted list changes nothing. *)
Lemma sortEntries_id l :
  StronglySorted ranksNoLower l → sortEntries compareEntries l = l.
Proof.
  induction l as [|x l IH] using rev_ind; [done|].
  intros (Hx & Hl & _)%StronglySorted_app.
  rewrite sortEntries_snoc, IH by done.
  apply insertSorted_last. apply Forall_forall. intros y Hy.
  apply Hx; [done|]. by apply list_elem_of_singleton.
Qed.

Lemma addHighscore_eq id sc t st :
  refusals st = [] →
  addHighscore id sc t st =
  let tbl := take 5 (sortEntries compareEntries
                       (loadHighscores st ++ [mkEntry id sc t id])) in
  Returned tbl (set_lastIdItem (Some id) (set_scoresItem (Some tbl) st)).
Proof.
  intros Hr. unfold addHighscore, saveHighscores, setItem. rewrite Hr.
  cbn [refusals set_scoresItem]. by rewrite Hr.
Qed.

(** X14: when the storage takes the writes, [addHighscore] returns a
    table of at most five entries, one more than were stored if those
    were fewer than five, in the order of the table (higher score
    first, shorter time first among equal scores); the table it returns
    is the one [loadHighscores] reads afterwards, and [loadLastId] then
    reads the id of the new entry. *)
Theorem addHighscore_stores_sorted_top_five
    (id sc : Z) (t : Q) (st : Storage) :
  refusals st = [] →
  ∃ tbl st',
    addHighscore id sc t st = Returned tbl st'
    ∧ length tbl = min 5 (S (length (loadHighscores st)))
    ∧ StronglySorted ranksNoLower tbl
    ∧ loadHighscores st' = tbl
    ∧ loadLastId st' = id.
Proof.
  intros Hr. rewrite addHighscore_eq by done. cbv zeta.
  eexists _, _. split; [done|]. split; [|split; [|done]].
  - rewrite length_take, sortEntries_perm, length_app. cbn [length]. lia.
  - pose proof (sortEntries_sorted
                  (loadHighscores st ++ [mkEntry id sc t id])) as Hs.
    rewrite <-(take_drop 5 (sortEntries _ _)) in Hs.
    by apply StronglySorted_app_1_l in Hs.
Qed.

(** X15: the table [addHighscore] returns holds the best of the stored
    entries and the new one: together with the entries it drops it is a
    rearrangement of them, and no dropped entry goes before a kept one. *)
Theorem addHighscore_keeps_the_best (id sc : Z) (t : Q) (st : Storage) :
  refusals st = [] →
  ∃ tbl st' dropped,
    addHighscore id sc t st = Returned tbl st'
    ∧ tbl ++ dropped ≡ₚ loadHighscores st ++ [mkEntry id sc t id]
    ∧ ∀ x y, x ∈ tbl → y ∈ dropped → ranksNoLower x y.
Proof.
  intros Hr. rewrite addHighscore_eq by done. cbv zeta.
  set (l := sortEntries compareEntries _).
  eexists (take 5 l), _, (drop 5 l). split; [done|].
  rewrite take_drop. split; [apply sortEntries_perm|].
  intros x y Hx Hy.
  pose proof (sortEntries_sorted
                (loadHighscores st ++ [mkEntry id sc t id])) as Hs.
  fold l in Hs. rewrite <-(take_drop 5 l) in Hs.
  by eapply StronglySorted_app_1_elem_of.
Qed.

(** X16: a run that does not go before any of five stored entries leaves
    the table as it was, a tie with the fifth place included, while
    [loadLastId] reads the id of the run all the same. *)
Theorem addHighscore_tie_stays_out (id sc : Z) (t : Q) (st : Storage) :
  refusals st = [] →
  StronglySorted ranksNoLower (loadHighscores st) →
  (5 ≤ length (loadHighscores st))%nat →
  Forall (λ y, ranksNoLower y (mkEntry id sc t id)) (loadHighscores st) →
  ∃ st',
    addHighscore id sc t st = Returned (take 5 (loadHighscores st)) st'
    ∧ loadHighscores st' = take 5 (loadHighscores st)
    ∧ loadLastId st' = id.
Proof.
  intros Hr Hs Hlen Hall. rewrite addHighscore_eq by done. cbv zeta.
  rewrite sortEntries_snoc, sortEntries_id, insertSorted_last by done.
  rewrite take_app_le by done. eauto.
Qed.

Lemma addHighscore_stores_sorted_top_five_witness :
  ∃ tbl st',
    addHighscore 1 3 5000 (mkStorage None None []) = Returned tbl st'
    ∧ length tbl = min 5 (S (length (loadHighscores (mkStorage None None []))))
    ∧ StronglySorted ranksNoLower tbl
    ∧ loadHighscores st' = tbl
    ∧ loadLastId st' = 1.
Proof.
  exact (addHighscore_stores_sorted_top_five 1 3 5000
           (mkStorage None None []) eq_refl).
Defined.

Lemma addHighscore_keeps_the_best_witness :
  ∃ tbl st' dropped,
    addHighscore 1 3 5000 (mkStorage None None []) = Returned tbl st'
    ∧ tbl ++ dropped
      ≡ₚ loadHighscores (mkStorage None None []) ++ [mkEntry 1 3 5000 1]
    ∧ ∀ x y, x ∈ tbl → y ∈ dropped → ranksNoLower x y.
Proof.
  exact (addHighscore_keeps_the_best 1 3 5000
           (mkStorage None None []) eq_refl).
Defined.

Lemma addHighscore_tie_stays_out_witness :
  ∃ st',
    addHighscore 6 1 1000 (mkStorage (Some fullTable) (Some 5) [])
    = Returned (take 5 fullTable) st'
    ∧ loadHighscores st' = take 5 fullTable
    ∧ loadLastId st' = 6.
Proof.
  apply (addHighscore_tie_stays_out 6 1 1000
           (mkStorage (Some fullTable) (Some 5) []) eq_refl).
  - repeat (constructor; [|repeat constructor; left; simpl; lia]).
    constructor.
  - simpl. lia.
  - repeat (constructor; [left; simpl; lia|]).
    constructor; [|constructor].
    right. split; [done|]. unfold Qle. simpl. lia.
Defined.

(** X17: a refused write of the table is not caught: [addHighscore]
    throws and both items stay as they were. A refused write of the
    last id is swallowed: the table is stored and the last id stays. *)
Theorem addHighscore_refused_writes
    (id sc : Z) (t : Q) (st : Storage) (rest : list bool) :
  (refusals st = true :: rest →
   addHighscore id sc t st = Threw (set_refusals rest st))
  ∧ (refusals st = false :: true :: rest →
     ∃ tbl st',
       addHighscore id sc t st = Returned tbl st'
       ∧ loadHighscores st' = tbl ∧ lastIdItem st' = lastIdItem st).
Proof.
  split; intros Hr; unfold addHighscore, saveHighscores, setItem;
    rewrite Hr; [done|].
  cbn [refusals set_scoresItem set_refusals]. eauto.
Qed.

(** X18: a finished run enters the table once. When [populateMenu]
    returns, its effect on the state is that of [populateMenuIfNeeded],
    and calling it again, in a later frame, changes neither the state
    nor the storage. *)
Theorem populateMenu_records_once
    (id id' : Z) (s s' : State) (h h' : Host) (st st' : Storage) :
  populateMenu id s h st = Returned (s', h') st' →
  populateMenuIfNeeded s h = Done tt s' h
  ∧ populateMenu id' s' h' st' = Returned (s', h') st'.
Proof.
  unfold populateMenu, populateMenuIfNeeded.
  destruct (negb (gameOver s) || menuPopulated s) eqn:Hearly.
  { intros [= <- <- <-]. by rewrite Hearly. }
  destruct (negb (menuPresent h)) eqn:Hmenu.
  { intros [= <- <- <-]. by rewrite Hearly, Hmenu. }
  destruct (addHighscore _ _ _ _) as [tbl st1|st1]; [|done].
  intros [= <- <- <-]. split; [done|].
  cbn [gameOver menuPopulated set_menuPopulated]. by rewrite orb_true_r.
Qed.

Lemma populateMenu_records_once_witness :
  let s := collided 9000 (resetState 8 true (mkVec 0 0) 1 (Some 2%Q)) in
  let st' :=
    mkStorage (Some [mkEntry 7 0 (9000 - 1) 7]) (Some 7) [] in
  populateMenuIfNeeded s (host0 []) = Done tt (set_menuPopulated true s) (host0 [])
  ∧ populateMenu 8 (set_menuPopulated true s) (host0 []) st'
    = Returned (set_menuPopulated true s, host0 []) st'.
Proof.
  intros s st'.
  apply (populateMenu_records_once 7 8 s _ (host0 []) _
           (mkStorage None None []) st').
  reflexivity.
Defined.

(** ** Touch and keys *)

Lemma Qabs_cases (x : Q) :
  ((0 <= x ∧ Qabs x == x) ∨ (x < 0 ∧ Qabs x == - x))%Q.
Proof.
  destruct (Qlt_le_dec x 0) as [Hlt|Hge].
  - right. split; [done|]. apply Qabs_neg. lra.
  - left. split; [done|]. by apply Qabs_pos.
Qed.

(** X19: a swipe, a touch that moved 24 pixels or more along an axis,
    never starts a run: it queues the unit direction of the axis along
    which the finger moved farther, pointing the way it moved, and goes
    vertical when both distances are equal. *)
Theorem swipe_queues_its_direction (dx dy : Q) (s : State) (h : Host) :
  ¬ ((Qabs dx < 24)%Q ∧ (Qabs dy < 24)%Q) →
  ∃ nd,
    onTouchEnd dx dy s h = Done tt (queueDir (Some nd) s) h
    ∧ unitDir nd
    ∧ (inject_Z (vx nd) * dx + inject_Z (vy nd) * dy
       == Qmax (Qabs dx) (Qabs dy))%Q
    ∧ (vx nd ≠ 0 ↔ (Qabs dy < Qabs dx)%Q).
Proof.
  intros Hswipe. unfold onTouchEnd.
  assert (Qltb (Qabs dx) 24 && Qltb (Qabs dy) 24 = false) as ->.
  { apply not_true_iff_false. rewrite andb_true_iff, !Qltb_lt. done. }
  eexists. split; [done|].
  destruct (Qltb (Qabs dy) (Qabs dx)) eqn:Hdom.
  - apply Qltb_lt in Hdom.
    assert (Qmax (Qabs dx) (Qabs dy) == Qabs dx)%Q as ->
      by (apply Q.max_l; lra).
    destruct (Qltb 0 dx) eqn:Hpos.
    + apply Qltb_lt in Hpos. split; [apply unitDir_cases; auto|].
      split; [|done]. cbn [vx vy]. rewrite Qabs_pos by lra.
      change (inject_Z 1) with 1%Q. change (inject_Z 0) with 0%Q. lra.
    + apply not_true_iff_false in Hpos. rewrite Qltb_lt in Hpos.
      apply Qnot_lt_le in Hpos. split; [apply unitDir_cases; auto|].
      split; [|done]. cbn [vx vy]. rewrite Qabs_neg by lra.
      change (inject_Z (-1)) with (-1)%Q. change (inject_Z 0) with 0%Q. lra.
  - apply not_true_iff_false in Hdom. rewrite Qltb_lt in Hdom.
    assert (Qmax (Qabs dx) (Qabs dy) == Qabs dy)%Q as ->
      by (apply Q.max_r; lra).
    destruct (Qltb 0 dy) eqn:Hpos.
    + apply Qltb_lt in Hpos. split; [apply unitDir_cases; auto|].
      split; [|done]. cbn [vx vy]. rewrite Qabs_pos by lra.
      change (inject_Z 1) with 1%Q. change (inject_Z 0) with 0%Q. lra.
    + apply not_true_iff_false in Hpos. rewrite Qltb_lt in Hpos.
      apply Qnot_lt_le in Hpos. split; [apply unitDir_cases; auto|].
      split; [|done]. cbn [vx vy]. rewrite Qabs_neg by lra.
      change (inject_Z (-1)) with (-1)%Q. change (inject_Z 0) with 0%Q. lra.
Qed.

Lemma swipe_queues_its_direction_witness :
  let s := resetState 8 true (mkVec 0 0) 1 (Some 2%Q) in
  ∃ nd,
    onTouchEnd 30 4 s (host0 []) = Done tt (queueDir (Some nd) s) (host0 [])
    ∧ unitDir nd
    ∧ (inject_Z (vx nd) * 30 + inject_Z (vy nd) * 4
       == Qmax (Qabs 30) (Qabs 4))%Q
    ∧ (vx nd ≠ 0 ↔ (Qabs 4 < Qabs 30)%Q).
Proof.
  intros s. apply (swipe_queues_its_direction 30 4 s (host0 [])).
  intros [H _]. unfold Qlt in H. simpl in H. lia.
Defined.

(** X20: a touchend acts once per touchstart. After a touchend that came
    with a touch point has returned, a further touchend changes nothing
    until a touchstart records a new starting point; a touchend with no
    starting point recorded changes nothing either. *)
Theorem touch_end_acts_once
    (ch ch2 : list (Q * Q)) (tc tc' : Touch) (s s' : State) (h h' : Host) :
  ch ≠ [] →
  onTouchEndEvent ch tc s h = Done tc' s' h' →
  onTouchEndEvent ch2 tc' s' h' = Done tc' s' h'
  ∧ (touchStartX tc = None ∨ touchStartY tc = None → s' = s ∧ tc' = tc).
Proof.
  intros Hch. unfold onTouchEndEvent.
  destruct ch as [|[x y] ch]; [done|].
  destruct (touchStartX tc) as [x0|] eqn:Hx, (touchStartY tc) as [y0|] eqn:Hy.
  - unfold bind, ret.
    destruct (onTouchEnd _ _ s h) as [[] s1 h1| |]; [|done..].
    intros [= <- <- <-]. split; [|by intros [?|?]].
    by destruct ch2 as [|[??]?].
  - unfold ret. intros [= <- <- <-]. split; [|done].
    destruct ch2 as [|[??]?]; [done|]. by rewrite Hx, Hy.
  - unfold ret. intros [= <- <- <-]. split; [|done].
    destruct ch2 as [|[??]?]; [done|]. by rewrite Hx.
  - unfold ret. intros [= <- <- <-]. split; [|done].
    destruct ch2 as [|[??]?]; [done|]. by rewrite Hx.
Qed.

Lemma touch_end_acts_once_witness :
  let s := resetState 8 true (mkVec 0 0) 1 (Some 2%Q) in
  let s' := queueDir (Some (mkVec 0 1)) s in
  onTouchEndEvent [(0, 0)%Q] (mkTouch None None) s' (host0 [])
  = Done (mkTouch None None) s' (host0 [])
  ∧ (touchStartX (onTouchStart [(10, 10)%Q] (mkTouch None None)) = None
     ∨ touchStartY (onTouchStart [(10, 10)%Q] (mkTouch None None)) = None →
     s' = s ∧ mkTouch None None
              = onTouchStart [(10, 10)%Q] (mkTouch None None)).
Proof.
  intros s s'.
  apply (touch_end_acts_once [(10, 50)%Q] [(0, 0)%Q]
           (onTouchStart [(10, 10)%Q] (mkTouch None None)) _ s s'
           (host0 []) (host0 [])).
  - done.
  - reflexivity.
Defined.

(** X21: of all keys only the space key, under its three names, starts a
    run, and only outside a run: in the Welcome and the GameOver phase a
    key leads to the Playing phase exactly when it is one of the three.
    The arrow keys queue a direction in every phase. *)
Theorem only_space_starts_a_run
    (k : string) (s s' : State) (h h' : Host) :
  phase s ≠ Playing →
  onKeyDown k s h = Done tt s' h' →
  (phase s' = Playing ↔ k ∈ [" "; "spacebar"; "space"]).
Proof.
  intros Hph. unfold onKeyDown.
  assert (gameOver s || negb (started s) = true) as Hidle.
  { rewrite phase_Playing in Hph. destruct (started s), (gameOver s);
      naive_solver. }
  destruct (k =? "f")%string eqn:Hf.
  { apply String.eqb_eq in Hf as ->. unfold ret. intros [= <- _].
    split; [done|]. rewrite !elem_of_cons, elem_of_nil. naive_solver. }
  destruct (keyDir k) as [d|] eqn:Hk.
  { unfold modify. intros Heq.
    assert (s' = queueDir (Some d) s) as -> by congruence.
    destruct (queueDir_sameBody (Some d) s)
      as (_ & _ & _ & _ & _ & Ho & _ & Hst & _).
    assert (phase (queueDir (Some d) s) = phase s) as ->
      by (unfold phase; by rewrite Ho, Hst).
    split; [done|]. intros Hin. exfalso. revert Hk.
    rewrite !elem_of_cons, elem_of_nil in Hin.
    destruct Hin as [-> | [-> | [-> | []]]]; done. }
  unfold bind, gets. rewrite Hidle, andb_true_r.
  case_bool_decide as Hin.
  - rewrite resetGame_eq.
    destruct (spawnFoodLoop _ _ _) as [[pos rest]|]; [|done].
    intros [= <- _]. split; [intros _|done].
    revert Hk. unfold startKeys in Hin.
    rewrite !elem_of_cons, elem_of_nil in Hin.
    rewrite !elem_of_cons, elem_of_nil.
    destruct Hin as [-> | [-> | [-> | [-> | [-> | [-> | [-> | []]]]]]]];
      intros Hk; try done; auto.
  - unfold ret. intros [= <- _]. split; [done|]. intros Hin'.
    destruct Hin. unfold startKeys. set_solver.
Qed.

Lemma only_space_starts_a_run_witness :
  phase (resetState 8 true (mkVec 0 0) 1 (Some 2%Q)) = Playing
  ↔ " " ∈ [" "; "spacebar"; "space"].
Proof.
  apply (only_space_starts_a_run " "
           (resetState 10 false (mkVec 0 0) 1 None) _
           (host0 [0; 0]%Q)
           (set_reads 3 (set_reads 2 (set_reads 1
              (set_randoms [] (host0 [0; 0]%Q)))))).
  - done.
  - reflexivity.
Defined.

(** ** The canvas and its scale *)

Lemma mathRound_near (v : Q) :
  (v - (1 # 2) < inject_Z (mathRound v))%Q
  ∧ (inject_Z (mathRound v) <= v + (1 # 2))%Q.
Proof.
  unfold mathRound. split; [|apply Qfloor_le].
  pose proof (Qlt_floor (v + (1 # 2))) as H.
  rewrite inject_Z_plus in H. change (inject_Z 1) with 1%Q in H. lra.
Qed.

Lemma mathRound_Z (n : Z) : mathRound (inject_Z n) = n.
Proof.
  unfold mathRound.
  assert (Qfloor (inject_Z n + (1 # 2)) < n + 1) as H1.
  { apply Qfloor_lt_iff. rewrite inject_Z_plus.
    change (inject_Z 1) with 1%Q. lra. }
  assert (n ≤ Qfloor (inject_Z n + (1 # 2))) as H2.
  { rewrite <-(Qfloor_Z n) at 1. apply Qfloor_resp_le. lra. }
  lia.
Qed.

(** X22: the canvas follows the grid. [setupHiDPI] makes it a square of
    30 CSS pixels per cell, the side of the grid being 15 when the
    argument is 0; the backing store is square too, its side within
    half a pixel of the CSS side times the scale of the context, which
    is at least 1.5; with no [devicePixelRatio] the backing store has 45
    pixels per cell. *)
Theorem canvas_follows_grid (dpr : option Q) (g : Z) :
  let c := setupHiDPI dpr g in
  let side := if g =? 0 then 15 else g in
  cssWidth c = side * 30 ∧ cssHeight c = cssWidth c ∧ height c = width c
  ∧ (3 # 2 <= ratio c)%Q
  ∧ (Qabs (inject_Z (width c) - inject_Z (cssWidth c) * ratio c) <= 1 # 2)%Q
  ∧ (dpr = None → width c = 45 * side).
Proof.
  intros c side. unfold c, setupHiDPI. cbn [cssWidth cssHeight width height ratio].
  fold side. change BASE_GRID with 15. change TILE with 30.
  assert ((if g =? 0 then 15 else g) = side) as -> by done.
  split; [done|]. split; [done|]. split; [done|]. split.
  { pose proof (Q.le_max_l 1 (match dpr with
                              | Some d => if Qeq_bool d 0 then 1%Q else d
                              | None => 1%Q
                              end)) as H.
    unfold SSAA. lra. }
  split.
  { apply Qabs_Qle_condition.
    destruct (mathRound_near
                (inject_Z (side * 30)
                 * (Qmax 1 (match dpr with
                            | Some d => if Qeq_bool d 0 then 1%Q else d
                            | None => 1%Q
                            end) * SSAA))) as [H1 H2].
    split; lra. }
  intros ->.
  assert (inject_Z (side * 30) * (Qmax 1 1 * SSAA) == inject_Z (45 * side))%Q
    as Heq.
  { change (Qmax 1 1) with 1%Q. unfold SSAA.
    rewrite !inject_Z_mult. change (inject_Z 30) with 30%Q.
    change (inject_Z 45) with 45%Q. field. }
  unfold mathRound. rewrite Heq. apply mathRound_Z.
Qed.

(** X23: the board keeps its size on the screen. In a reachable state
    the CSS side of the canvas times the scale [setGameTransform] sets
    is 450 pixels while playing, whatever the grid has grown to, 405
    when the game is over, and 0 on the welcome screen. *)
Theorem board_keeps_its_size (s : State) (dpr : option Q) :
  reachable s →
  let shown :=
    (gameScale s * inject_Z (cssWidth (setupHiDPI dpr (grid s))))%Q in
  match phase s with
  | Welcome => (shown == 0)%Q
  | Playing => (shown == 450)%Q
  | GameOver => (shown == 405)%Q
  end.
Proof.
  intros Hr. pose proof (inv_grid_bounds _ (reachable_Inv _ Hr)) as Hg.
  unfold phase, gameScale, setupHiDPI. cbn [cssWidth].
  destruct (grid s) as [|g|g] eqn:Egrid; try lia.
  change (Z.pos g =? 0) with false. cbv iota.
  destruct (started s); simpl negb; cbv iota; [|by vm_compute].
  assert (¬ (inject_Z (Z.pos g) == 0)%Q) as Hnz by done.
  change BASE_GRID with 15. change TILE with 30.
  destruct (gameOver s); rewrite inject_Z_mult;
    change (inject_Z 30) with 30%Q; change (inject_Z 15) with 15%Q;
    field; done.
Qed.

Lemma board_keeps_its_size_witness :
  (gameScale (resetState 8 true (mkVec 0 0) 1 (Some 2%Q))
   * inject_Z (cssWidth (setupHiDPI None 8)) == 450)%Q.
Proof. exact (board_keeps_its_size _ None playing_reachable). Defined.

(** ** The points of the snake *)

Lemma lerpCell_range (g a b : Z) (f : Q) :
  0 ≤ a < g → 0 ≤ b < g → (0 <= f)%Q → (f <= 1)%Q →
  (0 <= lerpCell a b f)%Q ∧ (lerpCell a b f <= inject_Z ((g - 1) * TILE))%Q.
Proof.
  intros Ha Hb Hf0 Hf1. unfold lerpCell. change TILE with 30.
  rewrite inject_Z_mult. change (inject_Z 30) with 30%Q.
  assert (0 <= inject_Z a ∧ inject_Z a <= inject_Z (g - 1))%Q as [Ha0 Ha1]
    by (rewrite <-(Zle_Qle 0), <-Zle_Qle; lia).
  assert (0 <= inject_Z b ∧ inject_Z b <= inject_Z (g - 1))%Q as [Hb0 Hb1]
    by (rewrite <-(Zle_Qle 0), <-Zle_Qle; lia).
  generalize dependent (inject_Z a). generalize dependent (inject_Z b).
  generalize (inject_Z (g - 1)). intros G B HB0 HB1 A HA0 HA1.
  assert (0 <= A * (1 - f))%Q by (apply Qmult_le_0_compat; lra).
  assert (0 <= B * f)%Q by (apply Qmult_le_0_compat; lra).
  assert (0 <= (G - A) * (1 - f))%Q by (apply Qmult_le_0_compat; lra).
  assert (0 <= (G - B) * f)%Q by (apply Qmult_le_0_compat; lra).
  split; lra.
Qed.

Lemma snakePoint_corner s moved i point p :
  Forall (onBoard (grid s)) (snake s) →
  (0 <= moved)%Q → (moved <= 1)%Q →
  snake s !! i = Some point →
  snakePoint s moved i point = Some p →
  cellCorner (grid s) p.
Proof.
  intros Hall Hm0 Hm1 Hi. rewrite Forall_lookup in Hall.
  pose proof (Hall _ _ Hi) as [Hpx Hpy].
  unfold snakePoint.
  destruct (i =? 0)%nat.
  { destruct (snake s !! 1%nat) as [neck|] eqn:Hneck; [|done].
    intros [= <-]. destruct (Hall _ _ Hneck) as [Hnx Hny].
    destruct (lerpCell_range (grid s) (vx neck) (vx point) moved) as [? ?];
      try done.
    destruct (lerpCell_range (grid s) (vy neck) (vy point) moved) as [? ?];
      try done. }
  destruct (i =? length (snake s) - 1)%nat.
  { destruct (snake s !! (length (snake s) - 2)%nat) as [prev|] eqn:Hprev;
      [|done].
    intros [= <-]. destruct (Hall _ _ Hprev) as [Hnx Hny].
    assert (0 <= (if ateOnLastStep s then 0 else 1 - moved)
            ∧ (if ateOnLastStep s then 0 else 1 - moved) <= 1)%Q as [? ?]
      by (destruct (ateOnLastStep s); lra).
    destruct (lerpCell_range (grid s) (vx prev) (vx point)
                (if ateOnLastStep s then 0 else 1 - moved)%Q) as [? ?];
      try done.
    destruct (lerpCell_range (grid s) (vy prev) (vy point)
                (if ateOnLastStep s then 0 else 1 - moved)%Q) as [? ?];
      try done. }
  intros [= <-]. unfold cellCorner. cbn [fst snd]. change TILE with 30.
  rewrite <-!(Zle_Qle 0), <-!Zle_Qle. lia.
Qed.

Lemma snakePoint_Some s moved i point :
  (2 ≤ length (snake s))%nat → snake s !! i = Some point →
  is_Some (snakePoint s moved i point).
Proof.
  intros Hlen Hi. unfold snakePoint.
  destruct (i =? 0)%nat.
  { destruct (lookup_lt_is_Some_2 (snake s) 1%nat) as [neck ->]; [lia|eauto]. }
  destruct (i =? length (snake s) - 1)%nat; [|eauto].
  destruct (lookup_lt_is_Some_2 (snake s) (length (snake s) - 2)%nat)
    as [prev ->]; [lia|eauto].
Qed.

Lemma movedFraction_range s t :
  (0 < stepMs s)%Q → (lastStepAt s <= t)%Q →
  (0 <= movedFraction s t)%Q ∧ (movedFraction s t <= 1)%Q.
Proof.
  intros Hms Ht. unfold movedFraction.
  destruct (gameOver s || negb (started s)); [split; lra|].
  split; [|apply Q.le_min_l].
  apply Q.min_glb; [lra|].
  apply Qle_shift_div_l; [done|]. lra.
Qed.

Lemma computeSnakePoints_Some moved s pts :
  computeSnakePoints moved s = Some pts ↔
  length pts = length (snake s)
  ∧ ∀ i point, snake s !! i = Some point →
      ∃ p, pts !! i = Some p ∧ snakePoint s moved i point = Some p.
Proof.
  unfold computeSnakePoints. rewrite mapM_Some, Forall2_lookup.
  split.
  - intros Hall. split.
    + pose proof (Hall 0%nat) as H0. 
      assert (Forall2 (λ x y, id x = Some y) (imap (snakePoint s moved) (snake s)) pts) as HF
        by (by apply Forall2_lookup).
      apply Forall2_length in HF. by rewrite length_imap in HF.
    + intros i point Hi. specialize (Hall i).
      rewrite list_lookup_imap, Hi in Hall. simpl in Hall.
      inversion Hall as [x y Hxy|]; subst. eauto.
  - intros [Hlen Hall] i. rewrite list_lookup_imap.
    destruct (snake s !! i) as [point|] eqn:Hi; simpl.
    + destruct (Hall _ _ Hi) as (p & -> & Hp). by constructor.
    + apply lookup_ge_None in Hi.
      rewrite (proj2 (lookup_ge_None pts i)) by lia. constructor.
Qed.

Lemma reachable_period_pos s : reachable s → (0 < stepMs s)%Q.
Proof.
  intros Hr.
  pose proof (body_period _ (reachable_Body _ Hr)) as ->.
  pose proof (inv_grid_bounds _ (reachable_Inv _ Hr)) as Hg.
  destruct (grid s) as [|g|g]; try lia. done.
Qed.

Lemma computeSnakePoints_None_single (moved : Q) (s : State) :
  computeSnakePoints moved s = None → length (snake s) = 1%nat.
Proof.
  rewrite eq_None_not_Some. unfold computeSnakePoints.
  rewrite mapM_is_Some, Forall_lookup.
  intros Hnot. destruct (decide (length (snake s) = 1%nat)) as [|Hne];
    [done|]. destruct Hnot. intros i o.
  rewrite list_lookup_imap. destruct (snake s !! i) as [point|] eqn:Hi;
    [|done].
  intros [= <-]. apply snakePoint_Some; [|done].
  apply lookup_lt_Some in Hi. lia.
Qed.

(** X24: [computeSnakePoints] throws exactly on a snake of one segment,
    whose head has no second segment to start from; on every other
    snake, the empty one included, it returns one point per segment. *)
Theorem computeSnakePoints_needs_two_segments (moved : Q) (s : State) :
  (computeSnakePoints moved s = None ↔ length (snake s) = 1%nat)
  ∧ ∀ pts, computeSnakePoints moved s = Some pts →
           length pts = length (snake s).
Proof.
  split; [|by intros pts [? _]%computeSnakePoints_Some].
  split; [apply computeSnakePoints_None_single|].
  rewrite eq_None_not_Some. unfold computeSnakePoints.
  rewrite mapM_is_Some, Forall_lookup. intros Hlen Hall.
  destruct (snake s) as [|point [|??]] eqn:Hsn; try done.
  specialize (Hall 0%nat (snakePoint s moved 0 point) eq_refl).
  unfold snakePoint in Hall. rewrite Hsn in Hall. simpl in Hall.
  by destruct Hall.
Qed.

(** X25: the snake is drawn on the board. In a reachable state, at a
    clock reading not before the last tick, [computeSnakePoints]
    returns, for the fraction of the tick [renderFrame] passes it, one
    point per segment, each between the corner of the first cell and
    the corner of the last cell of the board on both axes. *)
Theorem snake_is_drawn_on_the_board (s : State) (t : Q) :
  reachable s → (lastStepAt s <= t)%Q →
  ∃ pts,
    computeSnakePoints (movedFraction s t) s = Some pts
    ∧ length pts = length (snake s)
    ∧ Forall (cellCorner (grid s)) pts.
Proof.
  intros Hr Ht.
  pose proof (reachable_Body _ Hr) as HB.
  destruct (movedFraction_range s t (reachable_period_pos _ Hr) Ht)
    as [Hm0 Hm1].
  destruct (computeSnakePoints (movedFraction s t) s) as [pts|] eqn:Hpts.
  - exists pts. split; [done|].
    apply computeSnakePoints_Some in Hpts as [Hlen Hall].
    split; [done|]. apply Forall_lookup. intros i p Hp.
    destruct (lookup_lt_is_Some_2 (snake s) i) as [point Hi].
    { rewrite <-Hlen. by eapply lookup_lt_Some. }
    destruct (Hall _ _ Hi) as (p' & Hp' & Hsp).
    rewrite Hp in Hp'. injection Hp' as <-.
    eapply snakePoint_corner; eauto. apply HB.
  - apply (computeSnakePoints_None_single) in Hpts.
    pose proof (body_length _ HB). lia.
Qed.

Lemma snake_is_drawn_on_the_board_witness :
  let s := resetState 8 true (mkVec 0 0) 1 (Some 2%Q) in
  ∃ pts,
    computeSnakePoints (movedFraction s 100) s = Some pts
    ∧ length pts = length (snake s)
    ∧ Forall (cellCorner (grid s)) pts.
Proof.
  apply (snake_is_drawn_on_the_board _ 100 playing_reachable). done.
Defined.

(** ** The look of the food *)

Lemma eased_range (v : Q) :
  (0 <= easeOutCubic (clamp01 v))%Q ∧ (easeOutCubic (clamp01 v) <= 1)%Q.
Proof.
  destruct easeOutCubic_ends as [E0 E1].
  assert (0 <= clamp01 v ∧ clamp01 v <= 1)%Q as [Hv0 Hv1]
    by (destruct (clamp01_cases v) as [[? ?]|[(? & ? & ?)|[? ?]]]; lra).
  split; [rewrite <-E0|rewrite <-E1]; apply easeOutCubic_mono; lra.
Qed.

Lemma eased_high (v : Q) : (1 <= v)%Q → (easeOutCubic (clamp01 v) == 1)%Q.
Proof.
  intros Hv.
  assert (clamp01 v == 1)%Q as Ev
    by (destruct (clamp01_cases v) as [[? ?]|[(? & ? & ?)|[? ?]]]; lra).
  unfold easeOutCubic. rewrite Ev. by vm_compute.
Qed.

(** X26: the food is drawn inside its cell. Whenever there is a food
    cell [renderFood] returns, with the margin of [renderFrame], an
    opacity between 0.75 and 1 and a square of side between 16.9 and
    18 pixels, rounded to a disc, centred in the cell and at least 6
    pixels away from its border; when no spawn effect is running (as on
    the welcome screen) the opacity is 1 and the side 18. *)
Theorem food_is_drawn_inside_its_cell (s : State) (t : Q) (f : Vec) :
  food s = Some f →
  ∃ look,
    renderFood frameMargin t s = Some look
    ∧ (3 # 4 <= look_alpha look)%Q ∧ (look_alpha look <= 1)%Q
    ∧ (169 # 10 <= look_w look)%Q ∧ (look_w look <= 18)%Q
    ∧ look_h look = look_w look
    ∧ (look_radius look == look_w look / 2)%Q
    ∧ (inject_Z (vx f * TILE) + 6 <= look_x look)%Q
    ∧ (look_x look + look_w look <= inject_Z (vx f * TILE) + 24)%Q
    ∧ (inject_Z (vy f * TILE) + 6 <= look_y look)%Q
    ∧ (look_y look + look_h look <= inject_Z (vy f * TILE) + 24)%Q
    ∧ (foodFxAt s = None →
       (look_alpha look == 1)%Q ∧ (look_w look == 18)%Q).
Proof.
  intros Hf. unfold renderFood. rewrite Hf. cbv zeta.
  eexists. split; [done|].
  cbn [look_alpha look_w look_h look_x look_y look_radius].
  set (el := match foodFxAt s with
             | Some t0 => if Qeq_bool t0 0 then FOOD_FX_MS else (t - t0)%Q
             | None => FOOD_FX_MS
             end).
  destruct (eased_range (el / FOOD_FX_MS)) as [Hp0 Hp1].
  assert (foodFxAt s = None → easeOutCubic (clamp01 (el / FOOD_FX_MS)) == 1)%Q
    as Hnone.
  { intros Hfx. apply eased_high. unfold el. rewrite Hfx. by vm_compute. }
  generalize dependent (easeOutCubic (clamp01 (el / FOOD_FX_MS))).
  intros p Hp0 Hp1 Hnone.
  assert (frameMargin == 12)%Q as Hm by (by vm_compute).
  change (inject_Z TILE) with 30%Q.
  set (w := ((30 - frameMargin) * (0.94 + 0.06 * p))%Q).
  assert (w == 18 * (0.94 + 0.06 * p))%Q as Hw
    by (unfold w; rewrite Hm; ring).
  assert (169 # 10 <= w ∧ w <= 18)%Q as [Hw0 Hw1] by (rewrite Hw; lra).
  assert (30 - frameMargin == 18)%Q as Hm' by (rewrite Hm; ring).
  clearbody w. unfold Qdiv. change (/ 2)%Q with (1 # 2)%Q.
  repeat split; try lra.
  - apply Q.min_r. apply Q.min_glb; [|lra]. rewrite Hm'. lra.
  - rewrite (Hnone H). ring.
  - rewrite Hw, (Hnone H). ring.
Qed.

Lemma food_is_drawn_inside_its_cell_witness :
  let s := resetState 8 true (mkVec 0 0) 1 (Some 2%Q) in
  ∃ look,
    renderFood frameMargin 100 s = Some look
    ∧ (3 # 4 <= look_alpha look)%Q ∧ (look_alpha look <= 1)%Q
    ∧ (169 # 10 <= look_w look)%Q ∧ (look_w look <= 18)%Q
    ∧ look_h look = look_w look
    ∧ (look_radius look == look_w look / 2)%Q
    ∧ (inject_Z (0 * TILE) + 6 <= look_x look)%Q
    ∧ (look_x look + look_w look <= inject_Z (0 * TILE) + 24)%Q
    ∧ (inject_Z (0 * TILE) + 6 <= look_y look)%Q
    ∧ (look_y look + look_h look <= inject_Z (0 * TILE) + 24)%Q
    ∧ (foodFxAt s = None →
       (look_alpha look == 1)%Q ∧ (look_w look == 18)%Q).
Proof.
  intros s. exact (food_is_drawn_inside_its_cell s 100 (mkVec 0 0) eq_refl).
Defined.

(** ** The screen shake *)

Lemma shake_bound (r p : Q) :
  unitDraw r → (0 <= p)%Q → (p <= 1)%Q →
  (Qabs ((r * 2 - 1) * (4 * p)) <= 4)%Q.
Proof.
  intros [Hr0 Hr1] Hp0 Hp1. apply Qabs_Qle_condition.
  assert (0 <= (2 - r * 2) * (4 * p))%Q by (apply Qmult_le_0_compat; lra).
  assert (0 <= (r * 2) * (4 * p))%Q by (apply Qmult_le_0_compat; lra).
  split; lra.
Qed.

(** X27: the screen shakes only after a collision, briefly and slightly.
    In a reachable state [setGameTransform] computes a shake offset
    only when the game is over and the clock reads less than [SHAKE_MS]
    after the collision; with draws in [[0, 1)] each offset is at most
    4 pixels either way. *)
Theorem shake_is_short_and_small
    (s : State) (t1 t2 rx ry dx dy : Q) :
  reachable s → unitDraw rx → unitDraw ry →
  shakeOffset s t1 t2 rx ry = Some (dx, dy) →
  gameOver s = true
  ∧ (∃ t, endedAt s = Some t ∧ (t1 < t + SHAKE_MS)%Q)
  ∧ (Qabs dx <= 4)%Q ∧ (Qabs dy <= 4)%Q.
Proof.
  intros HB%reachable_Body Hrx Hry. unfold shakeOffset.
  pose proof (body_over _ HB) as Hov.
  destruct (gameOver s); [|by destruct Hov as [_ ->]].
  destruct Hov as (_ & t & Hen & ->).
  destruct (negb _ && Qltb t1 _) eqn:Hdue; [|done].
  apply andb_true_iff in Hdue as [_ Hdue%Qltb_lt].
  cbv zeta. intros [= <- <-]. split; [done|]. split; [eauto|].
  assert (0 <= Qmax 0 (Qmin 1 ((t + SHAKE_MS - t2) / SHAKE_MS))
          ∧ Qmax 0 (Qmin 1 ((t + SHAKE_MS - t2) / SHAKE_MS)) <= 1)%Q
    as [Hp0 Hp1].
  { split; [apply Q.le_max_l|]. apply Q.max_lub; [lra|apply Q.le_min_l]. }
  split; by apply shake_bound.
Qed.

(** ** The rhythm of the ticks *)

Lemma growGridIfNeeded_lastStepAt s :
  lastStepAt (growGridIfNeeded s) = lastStepAt s.
Proof. unfold growGridIfNeeded. by destruct (growthDue s). Qed.

Lemma step_lastStepAt s h s' h' :
  step s h = Done tt s' h' → lastStepAt s' = lastStepAt s.
Proof.
  intros (n & f & _ & _ & Hcase)%step_inv.
  destruct (stepPre_more s) as (_ & _ & _ & Hl & _).
  assert (∀ x, lastStepAt (advance n x) = lastStepAt x) as Ha by done.
  assert (∀ x, lastStepAt (dropTail x) = lastStepAt x) as Hd
    by (intros x; unfold dropTail; by destruct (last _)).
  assert (∀ t x, lastStepAt (fed f t x) = lastStepAt x) as Hfed
    by (intros t x; unfold fed; cbn [lastStepAt set_eatWave];
        by rewrite growGridIfNeeded_lastStepAt).
  assert (∀ pos t x, lastStepAt (refed pos t x) = lastStepAt x) as Hr by done.
  assert (∀ t x, lastStepAt (collided t x) = lastStepAt x) as Hc by done.
  destruct Hcase as [[_ ->]|[(_ & _ & pos & ->)|(_ & _ & ->)]].
  - by rewrite Hc.
  - by rewrite Hr, Hfed, Ha.
  - by rewrite Hd, Ha.
Qed.

(** X28: the snake moves only in a frame that comes a full tick period
    after the last stamp. If a frame of a reachable state changes the
    snake or ends the run, the state was in the Playing phase with a
    stamp other than 0 (the first frame after a start only sets the
    stamp), the timestamp of the frame is at least [stepMs] past the
    stamp, and the frame leaves its own timestamp as the new stamp. *)
Theorem a_tick_needs_a_full_period
    (s s' : State) (h h' : Host) (ts : Q) :
  reachable s →
  loop ts s h = Done tt s' h' →
  snake s' ≠ snake s ∨ gameOver s' ≠ gameOver s →
  phase s = Playing
  ∧ ¬ (lastStepAt s == 0)%Q
  ∧ (stepMs s <= ts - lastStepAt s)%Q
  ∧ lastStepAt s' = ts.
Proof.
  intros Hr. pose proof (reachable_period_pos _ Hr) as Hpos.
  rewrite loop_eq.
  destruct (tickDue ts s) eqn:Hdue.
  - intros Hloop _. revert Hdue. unfold tickDue, stamped. cbv zeta.
    destruct (Qeq_bool (lastStepAt s) 0) eqn:Hzero.
    { cbn [started gameOver stepMs lastStepAt set_lastStepAt].
      rewrite !andb_true_iff, Qle_bool_iff. intros [_ Hle]. lra. }
    rewrite !andb_true_iff, negb_true_iff, Qle_bool_iff.
    intros [[Hst Hov] Hle].
    split; [by apply phase_Playing|].
    split; [by intros Heq%Qeq_bool_iff; rewrite Heq in Hzero|].
    split; [done|].
    revert Hloop. unfold bind.
    destruct (step _ h) as [[] s1 h1| |] eqn:Hstep; [|done..].
    apply step_lastStepAt in Hstep.
    destruct (renderFrame_core s1 h1)
      as (s2 & h2 & -> & (_ & _ & _ & _ & _ & _ & _ & Hl & _)).
    intros [= <- _]. by rewrite Hl, Hstep.
  - destruct (renderFrame_core (stamped ts s) h) as (s2 & h2 & -> & Hcore).
    intros [= <- _] Hchange. exfalso.
    destruct (sameBody_trans _ _ _ (stamped_sameBody ts s)
                (sameCore_sameBody _ _ Hcore))
      as (_ & _ & Hsn & _ & _ & Hov & _).
    destruct Hchange; congruence.
Qed.

Lemma shake_is_short_and_small_witness :
  ∃ s dx dy,
    shakeOffset s 0 0 (1 # 2) (1 # 4) = Some (dx, dy)
    ∧ gameOver s = true
    ∧ (∃ t, endedAt s = Some t ∧ (0 < t + SHAKE_MS)%Q)
    ∧ (Qabs dx <= 4)%Q ∧ (Qabs dy <= 4)%Q.
Proof.
  assert (after (session (crashEvents ++ [Frame 6000]) (firstBite [0; 0]%Q))
            (λ s _, is_Some (shakeOffset s 0 0 (1 # 2) (1 # 4)))) as Hoff
    by (apply (bool_decide_unpack _); vm_compute; exact I).
  remember (session (crashEvents ++ [Frame 6000]) (firstBite [0; 0]%Q)) as o eqn:Ho.
  destruct o as [[] s h| |]; [|unfold after in Hoff; destruct Hoff..].
  unfold after in Hoff. destruct Hoff as [[dx dy] Hoff].
  exists s, dx, dy. split; [done|].
  apply (shake_is_short_and_small s 0 0 (1 # 2) (1 # 4) dx dy).
  - eapply session_reachable. symmetry. exact Ho.
  - by split.
  - by split.
  - exact Hoff.
Defined.

Lemma a_tick_needs_a_full_period_witness :
  ∃ s s' ts,
    snake s' ≠ snake s
    ∧ phase s = Playing
    ∧ ¬ (lastStepAt s == 0)%Q
    ∧ (stepMs s <= ts - lastStepAt s)%Q
    ∧ lastStepAt s' = ts.
Proof.
  assert (after (session [KeyDown " "; Frame 1000] [0; 0; 0; 0]%Q)
            (λ s h, after (loop 2000 s h) (λ s' _, snake s' ≠ snake s)))
    as Hrun by (apply (bool_decide_unpack _); vm_compute; exact I).
  remember (session [KeyDown " "; Frame 1000] [0; 0; 0; 0]%Q) as o eqn:Ho.
  destruct o as [[] s h| |]; [|unfold after in Hrun; destruct Hrun..].
  unfold after at 1 in Hrun.
  remember (loop 2000 s h) as o' eqn:Ho'.
  destruct o' as [[] s' h'| |]; [|unfold after in Hrun; destruct Hrun..].
  unfold after in Hrun.
  exists s, s', 2000%Q. split; [done|].
  apply (a_tick_needs_a_full_period s s' h h' 2000).
  - eapply session_reachable. symmetry. exact Ho.
  - symmetry. exact Ho'.
  - by left.
Defined.

(** ** Quarter turns *)

Lemma quarterTurns_snoc l a b :
  last l = Some a → perpendicular a b →
  quarterTurns l → quarterTurns (l ++ [b]).
Proof.
  induction l as [|x [|y l] IH]; simpl; intros Hlast Hab Hl.
  - done.
  - injection Hlast as ->. done.
  - destruct Hl as [Hxy Hl]. split; [done|]. by apply IH.
Qed.

Lemma unit_turn a b :
  unitDir a → unitDir b → reverses a b = false → sameVec a b = false →
  perpendicular a b.
Proof.
  rewrite !unitDir_cases.
  intros [-> | [-> | [-> | ->]]] [-> | [-> | [-> | ->]]]; done.
Qed.

Lemma queueDir_quarter nd s :
  (∀ d, nd = Some d → unitDir d) →
  Forall unitDir (dir s :: queuedDirs s) →
  quarterTurns (dir s :: queuedDirs s) →
  quarterTurns (dir (queueDir nd s) :: queuedDirs (queueDir nd s)).
Proof.
  intros Hnd Hunits Hq. unfold queueDir. destruct nd as [d|]; [|done].
  destruct (reverses (lastDir s) d) eqn:Hrev; [done|].
  destruct (sameVec (lastDir s) d) eqn:Hsame; [done|].
  destruct (2 <=? length (queuedDirs s))%nat; [done|].
  cbn [dir queuedDirs set_queuedDirs].
  change (quarterTurns ((dir s :: queuedDirs s) ++ [d])).
  eapply quarterTurns_snoc; [apply last_dir_queue| |done].
  apply unit_turn; auto.
  rewrite Forall_forall in Hunits. apply Hunits.
  apply list_elem_of_lookup_2 with (i := length (queuedDirs s)).
  rewrite <-last_dir_queue, last_lookup. done.
Qed.

Lemma consume_quarter s :
  quarterTurns (dir s :: queuedDirs s) →
  quarterTurns (dir (consumeDirectionQueue s)
                :: queuedDirs (consumeDirectionQueue s)).
Proof.
  unfold consumeDirectionQueue.
  destruct (queuedDirs s) as [|d q] eqn:Hq; [by rewrite Hq|].
  simpl. by intros [_ ?].
Qed.

Lemma quarter_handle e s h s' h' :
  Inv s → quarterTurns (dir s :: queuedDirs s) →
  handle e s h = Done tt s' h' →
  quarterTurns (dir s' :: queuedDirs s').
Proof.
  intros HI Hq. destruct e as [k|b|dx dy|ts].
  1-3: match goal with
       | |- handle ?e _ _ = _ → _ =>
           pose proof (input_cases e s h) as Hin;
           destruct (startsRun e s);
           [rewrite Hin, resetGame_eq by done;
            destruct (spawnFoodLoop _ _ _) as [[pos rest]|]; [|done];
            by intros [= <- _]
           |destruct Hin as (nd & Hnd & ->); [done|];
            intros [= <- _]; apply queueDir_quarter; [done| |done];
            apply HI]
       end.
  simpl. rewrite loop_eq.
  destruct (stamped_core ts s) as (_ & _ & Hd & Hqd & _).
  destruct (tickDue ts s).
  - unfold bind.
    destruct (step _ h) as [[] s1 h1| |] eqn:Hstep; [|done..].
    apply step_dirs in Hstep as [Hd1 Hq1].
    destruct (renderFrame_core s1 h1)
      as (s2 & h2 & -> & (_ & _ & _ & Hd2 & Hq2 & _)).
    intros [= <- _]. rewrite Hd2, Hq2, Hd1, Hq1.
    apply consume_quarter.
    cbn [dir queuedDirs set_lastStepAt]. by rewrite Hd, Hqd.
  - destruct (renderFrame_core (stamped ts s) h)
      as (s2 & h2 & -> & (_ & _ & _ & Hd2 & Hq2 & _)).
    intros [= <- _]. by rewrite Hd2, Hq2, Hd, Hqd.
Qed.

(** X29: every queued turn is a quarter turn. In a reachable state the
    first queued direction is at a right angle to the active direction
    and each further one to the one queued before it: the queue holds
    neither a reversal nor a repetition. *)
Theorem queued_turns_are_quarter_turns (s : State) :
  reachable s → quarterTurns (dir s :: queuedDirs s).
Proof.
  induction 1 as [h s h' Hboot|e s h s' h' Hs IH Hev].
  - revert Hboot. unfold bootstrap. rewrite resetToWelcome_eq.
    destruct (spawnFoodLoop _ _ _) as [[pos rest]|]; [|done].
    by intros [= <- _].
  - eapply quarter_handle; [|done..]. by apply reachable_Inv.
Qed.

Lemma queued_turns_are_quarter_turns_witness :
  ∃ s, queuedDirs s = [mkVec 0 1; mkVec (-1) 0]
       ∧ quarterTurns (dir s :: queuedDirs s).
Proof.
  assert (after (session [KeyDown " "; KeyDown "s"; KeyDown "a"]
                   [0; 0; 0; 0]%Q)
            (λ s _, queuedDirs s = [mkVec 0 1; mkVec (-1) 0])) as Hrun
    by (apply (bool_decide_unpack _); vm_compute; exact I).
  remember (session [KeyDown " "; KeyDown "s"; KeyDown "a"] [0; 0; 0; 0]%Q)
    as o eqn:Ho.
  destruct o as [[] s h| |]; [|unfold after in Hrun; destruct Hrun..].
  unfold after in Hrun. exists s. split; [done|].
  apply (queued_turns_are_quarter_turns s).
  eapply session_reachable. symmetry. exact Ho.
Defined.

(** ** The eat wave *)

(** X30: the eat wave marks the cell in which the food was eaten. After a
    tick that eats the food [f], the wave is centred on the centre of
    the cell [f] in pixels and starts at the clock reading of the tick.
    The head that ate it is on [f] as long as the grid stayed as it
    was; when the tick made the grid grow, the head, like every
    segment, has moved one cell down and right while the wave has
    not. *)
Theorem eat_wave_marks_the_eaten_cell
    (s s' : State) (h h' : Host) (f : Vec) :
  candidate s = Some f → food s = Some f →
  step s h = Done tt s' h' → gameOver s' = false →
  eatWave s' = Some (mkWave (vx f * 30 + 15) (vy f * 30 + 15)
                       (clock h (reads h)))
  ∧ head (snake s')
    = Some (if grid s' =? grid s then f else mkVec (vx f + 1) (vy f + 1)).
Proof.
  intros Hn Hf Hstep Hov.
  destruct (step_inv _ _ _ _ Hstep) as (n & f' & Hn' & Hf' & Hcase).
  rewrite Hn in Hn'. rewrite Hf in Hf'. injection Hn' as <-.
  injection Hf' as <-.
  destruct Hcase as [[_ ->]|[(_ & _ & pos & ->)|(_ & Hne & _)]];
    [done| |done].
  split; [done|].
  set (s1 := advance f (stepPre s)).
  destruct (stepPre_fields s) as (Hg & Hsn & _).
  destruct (refed_fields pos (clock h (S (reads h)))
              (fed f (clock h (reads h)) s1)) as (-> & _ & -> & _).
  rewrite fed_snake.
  destruct (fed_fields f (clock h (reads h)) s1) as (_ & _ & ->).
  change (grid s1) with (grid (stepPre s)). rewrite Hg.
  change (snake s1) with (f :: snake (stepPre s)).
  destruct (growthDue s1).
  - rewrite (proj2 (Z.eqb_neq _ _)) by lia. done.
  - by rewrite Z.eqb_refl.
Qed.

Lemma eat_wave_marks_the_eaten_cell_witness :
  let s := resetState 8 true (mkVec 4 3) 1 (Some 2%Q) in
  after (step s (host0 [0; 0]%Q)) (λ s' _,
    eatWave s' = Some (mkWave (4 * 30 + 15) (3 * 30 + 15) 0)
    ∧ head (snake s')
      = Some (if grid s' =? grid s then mkVec 4 3
              else mkVec (4 + 1) (3 + 1))).
Proof.
  intros s.
  assert (after (step s (host0 [0; 0]%Q)) (λ s' _, gameOver s' = false))
    as Hrun by (apply (bool_decide_unpack _); vm_compute; exact I).
  remember (step s (host0 [0; 0]%Q)) as o eqn:Ho.
  destruct o as [[] s' h'| |]; [|unfold after in Hrun; destruct Hrun..].
  unfold after in Hrun. unfold after.
  apply (eat_wave_marks_the_eaten_cell s s' (host0 [0; 0]%Q) h' (mkVec 4 3));
    [reflexivity|reflexivity|by symmetry|exact Hrun].
Defined.
